(** * dirsync: one-way synchronisation of two directory trees

    A shallow embedding of [dirsync.py] and the properties of its
    reconciliation engine.

    The script talks to three things that live outside of it: the file
    system, the root logger and a [sched.scheduler].  They are gathered in a
    [world] record that every function threads explicitly; Python exceptions
    are the [Raise] outcome of a computation.

    The file system is a tree of regular files, directories, named pipes and
    other special nodes.  Directory listings are ordered (the order in which
    [os.scandir] reports the entries), because the dictionaries built from a
    scan keep their insertion order and the remove phase depends on it.
    There are no symbolic or hard links, permissions are the owner's read and
    write bits, and nobody else changes the tree while the script runs.
    A clock in whole seconds stands for [time.time]; the user's interrupt is
    delivered while the scheduler sleeps.  The handlers of the root logger
    (a rotating file and stderr) are one list of records.

    Every call by which the script changes the file system or the scheduler
    is recorded in the world when it is made, so that what a phase did, and
    in which order, can be stated. *)

From Stdlib Require Import String Ascii List ZArith Lia Bool.
From Stdlib.Strings Require Import Byte.
From Stdlib Require Import DecimalString.
From Equations Require Import Equations.
Import ListNotations.

Local Open Scope string_scope.
Local Open Scope list_scope.

Set Implicit Arguments.
Set Warnings "-register-all".

(** ** Bytes *)

Definition bytes := list byte.

Definition bytes_of_string (s : string) : bytes := list_byte_of_string s.

(** ** hashlib.md5

    The digest itself is RFC 1321, over 32-bit words held in [Z] with the
    wrap-around written out. *)

Module MD5.

Local Open Scope Z_scope.

Definition mask32 : Z := 4294967295.

Definition wrap (x : Z) : Z := Z.land x mask32.

Definition add32 (x y : Z) : Z := wrap (x + y).

Definition not32 (x : Z) : Z := Z.lxor x mask32.

Definition rotl32 (x : Z) (s : Z) : Z :=
  wrap (Z.lor (Z.shiftl x s) (Z.shiftr x (32 - s))).

Definition K : list Z :=
  [ 3614090360; 3905402710; 606105819; 3250441966;
    4118548399; 1200080426; 2821735955; 4249261313;
    1770035416; 2336552879; 4294925233; 2304563134;
    1804603682; 4254626195; 2792965006; 1236535329;
    4129170786; 3225465664; 643717713; 3921069994;
    3593408605; 38016083; 3634488961; 3889429448;
    568446438; 3275163606; 4107603335; 1163531501;
    2850285829; 4243563512; 1735328473; 2368359562;
    4294588738; 2272392833; 1839030562; 4259657740;
    2763975236; 1272893353; 4139469664; 3200236656;
    681279174; 3936430074; 3572445317; 76029189;
    3654602809; 3873151461; 530742520; 3299628645;
    4096336452; 1126891415; 2878612391; 4237533241;
    1700485571; 2399980690; 4293915773; 2240044497;
    1873313359; 4264355552; 2734768916; 1309151649;
    4149444226; 3174756917; 718787259; 3951481745 ].

Definition S : list Z :=
  [ 7; 12; 17; 22; 7; 12; 17; 22; 7; 12; 17; 22; 7; 12; 17; 22;
    5; 9; 14; 20; 5; 9; 14; 20; 5; 9; 14; 20; 5; 9; 14; 20;
    4; 11; 16; 23; 4; 11; 16; 23; 4; 11; 16; 23; 4; 11; 16; 23;
    6; 10; 15; 21; 6; 10; 15; 21; 6; 10; 15; 21; 6; 10; 15; 21 ].

Record state := mkState { sa : Z; sb : Z; sc : Z; sd : Z }.

Definition init : state :=
  mkState 1732584193 4023233417 2562383102 271733878.

(** Little-endian readers and writers. *)

Fixpoint le_word (bs : list Z) : Z :=
  match bs with
  | [] => 0
  | b :: bs' => b + 256 * le_word bs'
  end.

Fixpoint le_bytes (n : nat) (x : Z) : list Z :=
  match n with
  | O => []
  | Datatypes.S n' => (x mod 256) :: le_bytes n' (x / 256)
  end.

Fixpoint words (n : nat) (bs : list Z) : list Z :=
  match n with
  | O => []
  | Datatypes.S n' => le_word (firstn 4 bs) :: words n' (skipn 4 bs)
  end.

(** One of the 64 operations of a block. *)
Definition step (M : list Z) (st : state) (i : nat) : state :=
  let '(mkState a b c d) := st in
  let iz := Z.of_nat i in
  let '(f, g) :=
    match (i / 16)%nat with
    | 0%nat => (Z.lor (Z.land b c) (Z.land (not32 b) d), iz)
    | 1%nat => (Z.lor (Z.land d b) (Z.land (not32 d) c), (5 * iz + 1) mod 16)
    | 2%nat => (Z.lxor (Z.lxor b c) d, (3 * iz + 5) mod 16)
    | _ => (Z.lxor c (Z.lor b (not32 d)), (7 * iz) mod 16)
    end in
  let f' := add32 (add32 (add32 f a) (nth i K 0)) (nth (Z.to_nat g) M 0) in
  mkState d (add32 b (rotl32 f' (nth i S 0))) b c.

Definition compress (st : state) (block : list Z) : state :=
  let M := words 16 block in
  let st' := fold_left (step M) (seq 0 64) st in
  mkState (add32 (sa st) (sa st')) (add32 (sb st) (sb st'))
          (add32 (sc st) (sc st')) (add32 (sd st) (sd st')).

Fixpoint blocks (n : nat) (st : state) (bs : list Z) : state :=
  match n with
  | O => st
  | Datatypes.S n' => blocks n' (compress st (firstn 64 bs)) (skipn 64 bs)
  end.

Definition pad (msg : list Z) : list Z :=
  let len := Z.of_nat (length msg) in
  let zeros := Z.to_nat ((55 - len) mod 64) in
  msg ++ [128] ++ repeat 0 zeros ++ le_bytes 8 ((8 * len) mod 2 ^ 64).

Definition digest (msg : bytes) : list Z :=
  let m := pad (map (fun b => Z.of_N (Byte.to_N b)) msg) in
  let st := blocks (length m / 64) init m in
  le_bytes 4 (sa st) ++ le_bytes 4 (sb st) ++
  le_bytes 4 (sc st) ++ le_bytes 4 (sd st).

Definition hex_digit (x : Z) : ascii :=
  nth (Z.to_nat x)
      (list_ascii_of_string "0123456789abcdef") "0"%char.

Fixpoint hex (bs : list Z) : string :=
  match bs with
  | [] => EmptyString
  | b :: bs' => String (hex_digit (b / 16)) (String (hex_digit (b mod 16)) (hex bs'))
  end.

End MD5.

(** The hash object: [update] feeds bytes, [hexdigest] renders the digest of
    everything fed so far ("repeated calls are equivalent to a single call
    with the concatenation of all the arguments"). *)

Record md5_obj := { md5_fed : bytes }.

Definition hashlib_md5 : md5_obj := {| md5_fed := [] |}.

Definition md5_update (m : md5_obj) (chunk : bytes) : md5_obj :=
  {| md5_fed := md5_fed m ++ chunk |}.

Definition md5_hexdigest (m : md5_obj) : string :=
  MD5.hex (MD5.digest (md5_fed m)).


(** ** Python values and exceptions *)

(** The values a snapshot stores: [None] for directories and named pipes,
    the hex digest (a [str]) of a file, and the integer [0] that [get_md5]
    returns when it cannot read. *)
Inductive pyval :=
| PyNone
| PyInt (z : Z)
| PyStr (s : string).

(** [==] on these values: values of different types are never equal. *)
Definition py_eqb (a b : pyval) : bool :=
  match a, b with
  | PyNone, PyNone => true
  | PyInt x, PyInt y => Z.eqb x y
  | PyStr x, PyStr y => String.eqb x y
  | _, _ => false
  end.

(** [pathlib.PurePath] on POSIX: the root ("/" or empty) and the components.
    Parsing a string drops empty and "." components and keeps "..". *)
Record PurePath := { pp_root : string; pp_parts : list string }.

Fixpoint segments (s : string) : list string :=
  match s with
  | EmptyString => [EmptyString]
  | String c s' =>
      if Ascii.eqb c "/" then EmptyString :: segments s'
      else match segments s' with
           | seg :: rest => String c seg :: rest
           | [] => [String c EmptyString]
           end
  end.

Definition PurePath_of_str (s : string) : PurePath :=
  {| pp_root := match s with
                | String c _ => if Ascii.eqb c "/" then "/" else ""
                | EmptyString => ""
                end;
     pp_parts := filter (fun seg => negb (String.eqb seg "" || String.eqb seg "."))
                        (segments s) |}.

Definition str_of_path (p : PurePath) : string :=
  match pp_parts p with
  | [] => if String.eqb (pp_root p) "" then "." else pp_root p
  | _ => pp_root p ++ String.concat "/" (pp_parts p)
  end.

Fixpoint parts_eqb (a b : list string) : bool :=
  match a, b with
  | [], [] => true
  | x :: a', y :: b' => String.eqb x y && parts_eqb a' b'
  | _, _ => false
  end.

Definition path_eqb (a b : PurePath) : bool :=
  String.eqb (pp_root a) (pp_root b) && parts_eqb (pp_parts a) (pp_parts b).

Definition is_absolute (p : PurePath) : bool := negb (String.eqb (pp_root p) "").

Definition joinpath (self other : PurePath) : PurePath :=
  if is_absolute other then other
  else {| pp_root := pp_root self; pp_parts := pp_parts self ++ pp_parts other |}.

Definition path_parent (p : PurePath) : PurePath :=
  {| pp_root := pp_root p; pp_parts := removelast (pp_parts p) |}.

Definition path_name (p : PurePath) : string := last (pp_parts p) "".

Inductive errno :=
| ENOENT | EACCES | EEXIST | ENOTDIR | EISDIR | ENOTEMPTY | EIO | ENXIO | EBUSY.

(** The exceptions that can reach the script.  [OSError] carries its errno,
    from which Python picks the subclass. *)
Inductive exn :=
| OSError (e : errno) (filename : PurePath)
| SpecialFileError (filename : PurePath)
| SameFileError (src dst : PurePath)
| ValueError (msg : string)
| OverflowError (msg : string)
| KeyboardInterrupt
| SystemExit (code : Z).

Definition is_FileNotFoundError (e : exn) : bool :=
  match e with OSError ENOENT _ => true | _ => false end.

Definition is_PermissionError (e : exn) : bool :=
  match e with OSError EACCES _ => true | _ => false end.

Definition is_FileExistsError (e : exn) : bool :=
  match e with OSError EEXIST _ => true | _ => false end.

(** [except Exception]: everything but [KeyboardInterrupt] and [SystemExit]. *)
Definition is_Exception (e : exn) : bool :=
  match e with
  | KeyboardInterrupt | SystemExit _ => false
  | _ => true
  end.

Definition strerror (e : errno) : string :=
  match e with
  | ENOENT => "[Errno 2] No such file or directory"
  | EACCES => "[Errno 13] Permission denied"
  | EEXIST => "[Errno 17] File exists"
  | ENOTDIR => "[Errno 20] Not a directory"
  | EISDIR => "[Errno 21] Is a directory"
  | ENOTEMPTY => "[Errno 39] Directory not empty"
  | EIO => "[Errno 5] Input/output error"
  | ENXIO => "[Errno 6] No such device or address"
  | EBUSY => "[Errno 16] Device or resource busy"
  end.

Definition str_of_exn (e : exn) : string :=
  match e with
  | OSError n f => strerror n ++ ": '" ++ str_of_path f ++ "'"
  | SpecialFileError f => "`" ++ str_of_path f ++ "` is a named pipe"
  | SameFileError s d =>
      "'" ++ str_of_path s ++ "' and '" ++ str_of_path d ++ "' are the same file"
  | ValueError m => m
  | OverflowError m => m
  | KeyboardInterrupt => ""
  | SystemExit _ => ""
  end.

(** ** The file system *)

Record stat_result := { st_mode : Z; st_mtime : Z }.

(** A regular file holds its bytes and, possibly, the offset of a first byte
    that cannot be read (a failing medium): a read that reaches it raises
    [OSError EIO]. *)
Inductive node :=
| RegularFile (st : stat_result) (data : bytes) (bad : option nat)
| Directory (st : stat_result) (entries : list (string * node))
| NamedPipe (st : stat_result)
| Special (st : stat_result).

Definition node_stat (n : node) : stat_result :=
  match n with
  | RegularFile st _ _ | Directory st _ | NamedPipe st | Special st => st
  end.

Definition set_node_stat (st : stat_result) (n : node) : node :=
  match n with
  | RegularFile _ d b => RegularFile st d b
  | Directory _ es => Directory st es
  | NamedPipe _ => NamedPipe st
  | Special _ => Special st
  end.

(** Permissions are simplified to the owner's read (0o400) and write (0o200)
    bits; the process owns every node, is not the superuser, and may search
    every directory. *)
Definition readable (st : stat_result) : bool := Z.testbit (st_mode st) 8.
Definition writable (st : stat_result) : bool := Z.testbit (st_mode st) 7.

(** Modes of new nodes under the usual umask 0o022. *)
Definition mode_dir : Z := 493.   (* 0o755 *)
Definition mode_file : Z := 420.  (* 0o644 *)

(** Directory listings. *)
Fixpoint entry_get (name : string) (es : list (string * node)) : option node :=
  match es with
  | [] => None
  | (k, n) :: es' => if String.eqb k name then Some n else entry_get name es'
  end.

Fixpoint entry_alter (name : string) (f : node -> node) (es : list (string * node))
  : list (string * node) :=
  match es with
  | [] => []
  | (k, n) :: es' =>
      if String.eqb k name then (k, f n) :: es' else (k, n) :: entry_alter name f es'
  end.

Fixpoint entry_del (name : string) (es : list (string * node)) : list (string * node) :=
  match es with
  | [] => []
  | (k, n) :: es' =>
      if String.eqb k name then es' else (k, n) :: entry_del name es'
  end.

(** A new entry goes to the end of the listing. *)
Definition entry_add (name : string) (n : node) (es : list (string * node))
  : list (string * node) := es ++ [(name, n)].

(** Path resolution from a node: [ENOENT] when a component is missing,
    [ENOTDIR] when one that must be a directory is not. *)
Fixpoint walk (n : node) (p : list string) : errno + node :=
  match p with
  | [] => inr n
  | c :: p' =>
      match n with
      | Directory _ es =>
          match entry_get c es with
          | Some n' => walk n' p'
          | None => inl ENOENT
          end
      | _ => inl ENOTDIR
      end
  end.

(** Replace the node found at [p], if there is one. *)
Fixpoint update_node (n : node) (p : list string) (f : node -> node) : node :=
  match p with
  | [] => f n
  | c :: p' =>
      match n with
      | Directory st es => Directory st (entry_alter c (fun n' => update_node n' p' f) es)
      | _ => n
      end
  end.

Definition update_entries (n : node) (dir : list string)
           (f : list (string * node) -> list (string * node)) : node :=
  update_node n dir (fun d => match d with
                              | Directory st es => Directory st (f es)
                              | _ => d
                              end).

(** ** The world *)

Record sched_event := {
  ev_time : Z;
  ev_priority : Z;
  ev_source : PurePath;
  ev_target : PurePath;
  ev_interval : Z
}.

(** The calls of the script that change the file system or the scheduler,
    recorded when they are made (whether or not they then succeed). *)
Inductive call :=
| CallMkdir (p : PurePath)
| CallCopystat (src dst : PurePath)
| CallMkfifo (p : PurePath)
| CallCopy2 (src dst : PurePath)
| CallUnlink (p : PurePath)
| CallRmdir (p : PurePath)
| CallEnter (ev : sched_event)
| CallAction (ev : sched_event).

Definition INFO : Z := 20.
Definition WARNING : Z := 30.
Definition ERROR : Z := 40.
Definition CRITICAL : Z := 50.

Record world := mkWorld {
  w_fs : node;                       (* the node of "/" *)
  w_cwd : list string;               (* the working directory *)
  w_clock : Z;                       (* time.time(), in seconds *)
  w_sigint : option Z;               (* when the user interrupts, if ever *)
  w_level : Z;                       (* level of the root logger *)
  w_log : list (Z * string);         (* records emitted, oldest first *)
  w_calls : list call;               (* calls made, oldest first *)
  w_queue : list sched_event         (* the scheduler's queue *)
}.

Definition set_fs (f : node) (w : world) : world :=
  mkWorld f (w_cwd w) (w_clock w) (w_sigint w) (w_level w) (w_log w) (w_calls w) (w_queue w).

Definition set_clock (t : Z) (s : option Z) (w : world) : world :=
  mkWorld (w_fs w) (w_cwd w) t s (w_level w) (w_log w) (w_calls w) (w_queue w).

Definition set_level (l : Z) (w : world) : world :=
  mkWorld (w_fs w) (w_cwd w) (w_clock w) (w_sigint w) l (w_log w) (w_calls w) (w_queue w).

Definition add_log (r : Z * string) (w : world) : world :=
  mkWorld (w_fs w) (w_cwd w) (w_clock w) (w_sigint w) (w_level w) (w_log w ++ [r])
          (w_calls w) (w_queue w).

Definition add_call (c : call) (w : world) : world :=
  mkWorld (w_fs w) (w_cwd w) (w_clock w) (w_sigint w) (w_level w) (w_log w)
          (w_calls w ++ [c]) (w_queue w).

Definition set_queue (q : list sched_event) (w : world) : world :=
  mkWorld (w_fs w) (w_cwd w) (w_clock w) (w_sigint w) (w_level w) (w_log w) (w_calls w) q.

(** ** Computations: state and exceptions *)

Inductive result (A : Type) :=
| Ok (a : A)
| Raise (e : exn).
Arguments Ok {A} a.
Arguments Raise {A} e.

Definition M (A : Type) : Type := world -> result A * world.

Definition ret {A} (a : A) : M A := fun w => (Ok a, w).

Definition raise {A} (e : exn) : M A := fun w => (Raise e, w).

Definition bind {A B} (m : M A) (k : A -> M B) : M B :=
  fun w => match m w with
           | (Ok a, w') => k a w'
           | (Raise e, w') => (Raise e, w')
           end.

Declare Scope py_scope.
Delimit Scope py_scope with py.
Notation "x <- m ;; k" := (bind m (fun x => k))
  (at level 61, m at next level, right associativity) : py_scope.
Notation "m ;; k" := (bind m (fun _ => k))
  (at level 61, right associativity) : py_scope.
Local Open Scope py_scope.

(** [try: body except <catches> as e: handler e]. *)
Definition try_except {A} (body : M A) (catches : exn -> bool) (handler : exn -> M A) : M A :=
  fun w => match body w with
           | (Raise e, w') => if catches e then handler e w' else (Raise e, w')
           | r => r
           end.

(** [for x in xs: acc = body(x, acc)]. *)
Fixpoint for_each {X A} (xs : list X) (body : X -> A -> M A) (acc : A) : M A :=
  match xs with
  | [] => ret acc
  | x :: xs' => acc' <- body x acc ;; for_each xs' body acc'
  end.

Definition get_world : M world := fun w => (Ok w, w).

Definition modify (f : world -> world) : M unit := fun w => (Ok tt, f w).

Definition record_call (c : call) : M unit := modify (add_call c).

(** ** logging *)

Definition log_at (level : Z) (msg : string) : M unit :=
  fun w => (Ok tt, if Z.leb (w_level w) level then add_log (level, msg) w else w).

Definition log_info := log_at INFO.
Definition log_warning := log_at WARNING.
Definition log_error := log_at ERROR.
Definition log_critical := log_at CRITICAL.

(** [init_logger]: the root logger is set to [INFO]; its handlers (the
    rotating file and stderr) are the sink [w_log]. *)
Definition init_logger (log_file : string) : M unit := modify (set_level INFO).

(** ** pathlib, os and shutil on the file system *)

Definition lift {A} (r : result A) : M A := fun w => (r, w).

(** The components from "/" that a path denotes for the process. *)
Definition fs_path (w : world) (p : PurePath) : list string :=
  if is_absolute p then pp_parts p else w_cwd w ++ pp_parts p.

Definition os_stat (p : PurePath) : M node :=
  fun w => match walk (w_fs w) (fs_path w p) with
           | inr n => (Ok n, w)
           | inl e => (Raise (OSError e p), w)
           end.

(** [Path.exists], [is_file], [is_dir], [is_fifo]: a path that cannot be
    resolved answers [False]. *)
Definition Path_exists (p : PurePath) : M bool :=
  fun w => (Ok (match walk (w_fs w) (fs_path w p) with
                | inr _ => true
                | inl _ => false
                end), w).

Definition Path_is_file (p : PurePath) : M bool :=
  fun w => (Ok (match walk (w_fs w) (fs_path w p) with
                | inr (RegularFile _ _ _) => true
                | _ => false
                end), w).

Definition Path_is_dir (p : PurePath) : M bool :=
  fun w => (Ok (match walk (w_fs w) (fs_path w p) with
                | inr (Directory _ _) => true
                | _ => false
                end), w).

Definition Path_is_fifo (p : PurePath) : M bool :=
  fun w => (Ok (match walk (w_fs w) (fs_path w p) with
                | inr (NamedPipe _) => true
                | _ => false
                end), w).

(** [Path.resolve]: absolute, with ".." collapsed (there are no symbolic
    links in this file system). *)
Fixpoint collapse (seen : list string) (ps : list string) : list string :=
  match ps with
  | [] => rev seen
  | c :: ps' =>
      if String.eqb c ".." then collapse (tl seen) ps' else collapse (c :: seen) ps'
  end.

Definition Path_resolve (p : PurePath) : M PurePath :=
  fun w => (Ok {| pp_root := "/"; pp_parts := collapse [] (fs_path w p) |}, w).

(** [Path.glob('**/*')]: the entries of the directory, then, for each of its
    sub-directories in listing order, the same again one level down.  A
    directory that cannot be listed contributes nothing, and a path that is
    not a directory yields nothing. *)
Fixpoint glob_rec (n : node) (rel : list string) {struct n} : list (list string) :=
  match n with
  | Directory st es =>
      if readable st then
        map (fun e => rel ++ [fst e]) es ++
        (fix below (es : list (string * node)) : list (list string) :=
           match es with
           | [] => []
           | (name, c) :: es' =>
               match c with
               | Directory _ _ => glob_rec c (rel ++ [name])
               | _ => []
               end ++ below es'
           end) es
      else []
  | _ => []
  end.

Definition Path_glob (p : PurePath) : M (list PurePath) :=
  fun w => (Ok (match walk (w_fs w) (fs_path w p) with
                | inr n => map (fun rel => {| pp_root := pp_root p;
                                              pp_parts := pp_parts p ++ rel |})
                               (glob_rec n [])
                | inl _ => []
                end), w).

(** *** Reading *)

Record file_obj := {
  f_name : PurePath;
  f_rest : bytes;        (* what is left to read *)
  f_pos : nat;           (* offset of the next byte *)
  f_bad : option nat
}.

(** [open(p, 'rb')].  Opening a named pipe blocks until a writer shows up;
    here it fails like the other special nodes. *)
Definition open_rb (p : PurePath) : M file_obj :=
  n <- os_stat p ;;
  match n with
  | RegularFile st data bad =>
      if readable st
      then ret {| f_name := p; f_rest := data; f_pos := 0; f_bad := bad |}
      else raise (OSError EACCES p)
  | Directory _ _ => raise (OSError EISDIR p)
  | NamedPipe _ | Special _ => raise (OSError ENXIO p)
  end.

(** [file.read(n)]: the next [n] bytes, fewer at the end of the file. *)
Definition file_read (f : file_obj) (n : nat) : result (bytes * file_obj) :=
  let chunk := firstn n (f_rest f) in
  let stop := f_pos f + length chunk in
  if match f_bad f with Some k => Nat.ltb k stop | None => false end
  then Raise (OSError EIO (f_name f))
  else Ok (chunk, {| f_name := f_name f; f_rest := skipn n (f_rest f);
                     f_pos := stop; f_bad := f_bad f |}).

(** *** Creating *)

Definition create_entry (p : PurePath) (new : Z -> node) : M unit :=
  fun w =>
    let ps := fs_path w p in
    match ps with
    | [] => (Raise (OSError EEXIST p), w)
    | _ =>
        let dir := removelast ps in
        let name := last ps "" in
        match walk (w_fs w) dir with
        | inl e => (Raise (OSError e p), w)
        | inr (Directory st es) =>
            match entry_get name es with
            | Some _ => (Raise (OSError EEXIST p), w)
            | None =>
                if writable st
                then (Ok tt, set_fs (update_entries (w_fs w) dir
                                       (entry_add name (new (w_clock w)))) w)
                else (Raise (OSError EACCES p), w)
            end
        | inr _ => (Raise (OSError ENOTDIR p), w)
        end
    end.

Definition os_mkdir (p : PurePath) : M unit :=
  create_entry p (fun now => Directory {| st_mode := mode_dir; st_mtime := now |} []).

Definition is_OSError (e : exn) : bool :=
  match e with
  | OSError _ _ | SpecialFileError _ | SameFileError _ _ => true
  | _ => false
  end.

(** [Path.mkdir(parents=False, exist_ok=True)]. *)
Definition mkdir_exist_ok (p : PurePath) : M unit :=
  try_except (os_mkdir p) is_OSError
    (fun e => if is_FileNotFoundError e then raise e
              else d <- Path_is_dir p ;; if (d : bool) then ret tt else raise e).

(** [Path.mkdir(parents=True, exist_ok=True)], on the components in reverse
    so that the parent is a sub-list. *)
Fixpoint mkdir_parents (root : string) (rparts : list string) : M unit :=
  let self := {| pp_root := root; pp_parts := rev rparts |} in
  try_except (os_mkdir self) is_OSError
    (fun e =>
       if is_FileNotFoundError e then
         match rparts with
         | [] => raise e
         | _ :: rparent => mkdir_parents root rparent ;; mkdir_exist_ok self
         end
       else d <- Path_is_dir self ;; if (d : bool) then ret tt else raise e).

Definition Path_mkdir (p : PurePath) : M unit :=
  record_call (CallMkdir p) ;; mkdir_parents (pp_root p) (rev (pp_parts p)).

Definition mkfifo (p : PurePath) : M unit :=
  record_call (CallMkfifo p) ;;
  create_entry p (fun now => NamedPipe {| st_mode := mode_file; st_mtime := now |}).

(** *** Copying *)

(** Mode bits and times of [src] onto [dst]. *)
Definition copystat (src dst : PurePath) : M unit :=
  n <- os_stat src ;;
  fun w => match walk (w_fs w) (fs_path w dst) with
           | inl e => (Raise (OSError e dst), w)
           | inr _ => (Ok tt, set_fs (update_node (w_fs w) (fs_path w dst)
                                        (set_node_stat (node_stat n))) w)
           end.

Definition shutil_copystat (src dst : PurePath) : M unit :=
  record_call (CallCopystat src dst) ;; copystat src dst.

(** [open(p, 'wb')]: create the file or truncate it. *)
Definition open_wb (p : PurePath) : M unit :=
  fun w =>
    let ps := fs_path w p in
    match ps with
    | [] => (Raise (OSError EISDIR p), w)
    | _ =>
        let dir := removelast ps in
        let name := last ps "" in
        match walk (w_fs w) dir with
        | inl e => (Raise (OSError e p), w)
        | inr (Directory st es) =>
            match entry_get name es with
            | Some (RegularFile fst _ _) =>
                if writable fst
                then (Ok tt, set_fs (update_node (w_fs w) ps
                                       (fun _ => RegularFile fst [] None)) w)
                else (Raise (OSError EACCES p), w)
            | Some (Directory _ _) => (Raise (OSError EISDIR p), w)
            | Some (NamedPipe _) | Some (Special _) => (Raise (OSError ENXIO p), w)
            | None =>
                if writable st
                then (Ok tt, set_fs (update_entries (w_fs w) dir
                                       (entry_add name
                                          (RegularFile {| st_mode := mode_file;
                                                          st_mtime := w_clock w |} [] None))) w)
                else (Raise (OSError EACCES p), w)
            end
        | inr _ => (Raise (OSError ENOTDIR p), w)
        end
    end.

Definition write_data (p : PurePath) (data : bytes) : M unit :=
  fun w => (Ok tt, set_fs (update_node (w_fs w) (fs_path w p)
                             (fun n => match n with
                                       | RegularFile st _ _ =>
                                           RegularFile {| st_mode := st_mode st;
                                                          st_mtime := w_clock w |} data None
                                       | _ => n
                                       end)) w).

(** [shutil.copyfile]: refuses to copy a file onto itself and to touch named
    pipes, then opens the source, creates or truncates the destination and
    copies what can be read. *)
Definition copyfile (src dst : PurePath) : M unit :=
  w <- get_world ;;
  same <- Path_exists src ;;
  if (same : bool) && parts_eqb (fs_path w src) (fs_path w dst)
  then raise (SameFileError src dst)
  else
    ps <- Path_is_fifo src ;;
    if (ps : bool) then raise (SpecialFileError src)
    else
      pd <- Path_is_fifo dst ;;
      if (pd : bool) then raise (SpecialFileError dst)
      else
        fsrc <- open_rb src ;;
        open_wb dst ;;
        match f_bad fsrc with
        | Some k =>
            if Nat.ltb k (length (f_rest fsrc))
            then write_data dst (firstn k (f_rest fsrc)) ;; raise (OSError EIO src)
            else write_data dst (f_rest fsrc)
        | None => write_data dst (f_rest fsrc)
        end.

(** [shutil.copy2]: into the directory when the destination is one. *)
Definition copy2 (src dst : PurePath) : M PurePath :=
  d <- Path_is_dir dst ;;
  let dst := if (d : bool)
             then joinpath dst {| pp_root := ""; pp_parts := [path_name src] |}
             else dst in
  copyfile src dst ;;
  copystat src dst ;;
  ret dst.

Definition shutil_copy2 (src dst : PurePath) : M PurePath :=
  record_call (CallCopy2 src dst) ;; copy2 src dst.

(** *** Removing *)

(** The parent must be writable; [unlink] refuses directories, [rmdir]
    refuses everything else and directories that still have entries. *)
Definition remove_entry (p : PurePath) (refuse : node -> option errno) : M unit :=
  fun w =>
    let ps := fs_path w p in
    match walk (w_fs w) ps with
    | inl e => (Raise (OSError e p), w)
    | inr n =>
        match ps with
        | [] => (Raise (OSError EBUSY p), w)
        | _ =>
            let dir := removelast ps in
            match walk (w_fs w) dir with
            | inr (Directory st _) =>
                if writable st then
                  match refuse n with
                  | Some e => (Raise (OSError e p), w)
                  | None => (Ok tt, set_fs (update_entries (w_fs w) dir
                                              (entry_del (last ps ""))) w)
                  end
                else (Raise (OSError EACCES p), w)
            | inr _ => (Raise (OSError ENOTDIR p), w)
            | inl e => (Raise (OSError e p), w)
            end
        end
    end.

Definition Path_unlink (p : PurePath) : M unit :=
  record_call (CallUnlink p) ;;
  remove_entry p (fun n => match n with
                           | Directory _ _ => Some EISDIR
                           | _ => None
                           end).

Definition Path_rmdir (p : PurePath) : M unit :=
  record_call (CallRmdir p) ;;
  remove_entry p (fun n => match n with
                           | Directory _ [] => None
                           | Directory _ (_ :: _) => Some ENOTEMPTY
                           | _ => Some ENOTDIR
                           end).

(** ** time and sched *)

(** The longest sleep, in seconds, whose length in nanoseconds still fits the
    signed 64-bit integer in which [time.sleep] keeps it. *)
Definition sleep_max : Z := 9223372036.

(** [time.sleep]: refuses a length that does not fit, then a negative one,
    before it waits; the wait is the only point at which the interrupt is
    delivered. *)
Definition time_sleep (d : Z) : M unit :=
  fun w =>
    if Z.ltb sleep_max (Z.abs d)
    then (Raise (OverflowError "timestamp out of range for platform time_t"), w)
    else if Z.ltb d 0
    then (Raise (ValueError "sleep length must be non-negative"), w)
    else
      let wake := (w_clock w + d)%Z in
      match w_sigint w with
      | Some t =>
          if Z.leb t wake
          then (Raise KeyboardInterrupt, set_clock (Z.max t (w_clock w)) None w)
          else (Ok tt, set_clock wake (Some t) w)
      | None => (Ok tt, set_clock wake None w)
      end.

Fixpoint heap_push (ev : sched_event) (q : list sched_event) : list sched_event :=
  match q with
  | [] => [ev]
  | x :: q' =>
      if Z.ltb (ev_time ev) (ev_time x)
         || (Z.eqb (ev_time ev) (ev_time x) && Z.ltb (ev_priority ev) (ev_priority x))
      then ev :: q
      else x :: heap_push ev q'
  end.

(** [schedule.enter(delay, priority, do_sync_dirs, (source, target, schedule, interval))]:
    [do_sync_dirs] is the only action this script ever enters. *)
Definition schedule_enter (delay priority : Z) (source_path target_path : PurePath)
           (interval : Z) : M sched_event :=
  w <- get_world ;;
  let ev := {| ev_time := (w_clock w + delay)%Z; ev_priority := priority;
               ev_source := source_path; ev_target := target_path;
               ev_interval := interval |} in
  record_call (CallEnter ev) ;;
  modify (fun w => set_queue (heap_push ev (w_queue w)) w) ;;
  ret ev.

(** * The script *)

Definition str_of_nat (n : nat) : string := NilEmpty.string_of_uint (Nat.to_uint n).

Definition str_of_Z (z : Z) : string := NilEmpty.string_of_int (Z.to_int z).

(** ** get_md5 *)

(** The size of the chunks in which a file is read. *)
Definition chunk_size : nat := 4096.

Definition inspect {A} (a : A) : {b | a = b} := exist _ a eq_refl.

(** The [while chunk:] loop: feed the chunk, read the next one. *)
Equations? read_chunks (file : file_obj) (chunk : bytes) (file_md5 : md5_obj)
  : result md5_obj by wf (length (f_rest file) + length chunk) lt :=
read_chunks file [] file_md5 := Ok file_md5;
read_chunks file (b :: bs) file_md5 with inspect (file_read file chunk_size) := {
  | exist _ (Ok (chunk', file')) _ :=
      read_chunks file' chunk' (md5_update file_md5 (b :: bs));
  | exist _ (Raise e) _ := Raise e }.
Proof.
  revert e. generalize chunk_size. unfold file_read. intros n e.
  destruct (match f_bad file with Some k => _ | None => _ end); [discriminate|].
  injection e as <- <-. cbn [f_rest].
  rewrite <- (firstn_skipn n (f_rest file)) at 3.
  rewrite length_app. cbn [length]. lia.
Qed.

(** The [with open(filename, 'rb') as file:] block. *)
Definition read_md5 (filename : PurePath) : M pyval :=
  file <- open_rb filename ;;
  let file_md5 := hashlib_md5 in
  r <- lift (file_read file chunk_size) ;;
  let '(chunk, file) := r in
  file_md5 <- lift (read_chunks file chunk file_md5) ;;
  ret (PyStr (md5_hexdigest file_md5)).

Definition get_md5 (filename : PurePath) : M pyval :=
  try_except (read_md5 filename) is_Exception
    (fun e =>
       log_warning ("Cannot get MD5 for " ++ str_of_path filename
                    ++ ", reason: " ++ str_of_exn e) ;;
       ret (PyInt 0)).

(** ** Paths *)

Fixpoint is_prefix (a b : list string) : bool :=
  match a, b with
  | [], _ => true
  | x :: a', y :: b' => String.eqb x y && is_prefix a' b'
  | _ :: _, [] => false
  end.

(** [PurePath.relative_to]. *)
Definition relative_to (self other : PurePath) : result PurePath :=
  if String.eqb (pp_root self) (pp_root other)
     && is_prefix (pp_parts other) (pp_parts self)
  then Ok {| pp_root := ""; pp_parts := skipn (length (pp_parts other)) (pp_parts self) |}
  else Raise (ValueError ("'" ++ str_of_path self ++ "' is not in the subpath of '"
                          ++ str_of_path other ++ "'")).

Definition get_relative_path (rootpath abspath : PurePath) : result PurePath :=
  relative_to abspath rootpath.

Definition get_absolute_path (rootpath relpath : PurePath) : PurePath :=
  joinpath rootpath relpath.

(** ** Snapshots: dictionaries from relative paths to fingerprints, in
    insertion order *)

Definition dict := list (PurePath * pyval).

Fixpoint dict_set (k : PurePath) (v : pyval) (d : dict) : dict :=
  match d with
  | [] => [(k, v)]
  | (k', v') :: d' =>
      if path_eqb k' k then (k', v) :: d' else (k', v') :: dict_set k v d'
  end.

Definition dict_keys (d : dict) : list PurePath := map fst d.

Definition dict_values (d : dict) : list pyval := map snd d.

(** [k in d.keys()] and [v in d.values()]. *)
Definition key_in (k : PurePath) (d : dict) : bool := existsb (path_eqb k) (dict_keys d).

Definition value_in (v : pyval) (d : dict) : bool := existsb (py_eqb v) (dict_values d).

Definition is_None (v : pyval) : bool :=
  match v with PyNone => true | _ => false end.

Definition get_files_in_path (scan_path : PurePath) : M dict :=
  files <- Path_glob scan_path ;;
  for_each files
    (fun file scanned_dir =>
       let record file_md5 :=
         file_relative <- lift (get_relative_path scan_path file) ;;
         ret (dict_set file_relative file_md5 scanned_dir) in
       f <- Path_is_file file ;;
       if (f : bool) then file_md5 <- get_md5 file ;; record file_md5
       else
         d <- Path_is_dir file ;;
         p <- Path_is_fifo file ;;
         if (d : bool) || (p : bool) then record PyNone
         else ret scanned_dir)
    [].

(** ** The copy phase *)

Definition copy_verify_file (source_file target_file : PurePath) : M bool :=
  shutil_copy2 source_file target_file ;;
  src_md5 <- get_md5 source_file ;;
  tgt_md5 <- get_md5 target_file ;;
  let hashes_equal := py_eqb src_md5 tgt_md5 in
  (if negb hashes_equal
   then log_warning (str_of_path source_file
                     ++ " modified during copying. MD5 hashes are different.")
   else ret tt) ;;
  ret hashes_equal.

(** The condition under which an entry of the source snapshot is worked on. *)
Definition copy_wanted (target_files : dict) (file : PurePath) (md5 : pyval) : bool :=
  negb (key_in file target_files)
  || (negb (is_None md5) && negb (value_in md5 target_files)).

(** What is done for such an entry; the result is the new count. *)
Definition copy_object (source_path target_path file : PurePath) (total : nat) : M nat :=
  let source_file := get_absolute_path source_path file in
  let target_file := get_absolute_path target_path file in
  d <- Path_is_dir source_file ;;
  if (d : bool) then
    try_except
      (Path_mkdir target_file ;;
       shutil_copystat source_file target_file ;;
       log_info ("Created new directory: " ++ str_of_path target_file) ;;
       ret (total + 1))
      is_PermissionError
      (fun _ =>
         log_error ("Cannot create directory " ++ str_of_path target_file
                    ++ ", insufficient permissions") ;;
         ret total)
  else
    p <- Path_is_fifo source_file ;;
    if (p : bool) then
      try_except
        (mkfifo target_file ;;
         shutil_copystat source_file target_file ;;
         log_info ("Created new named pipe: " ++ str_of_path target_file) ;;
         ret (total + 1))
        is_FileExistsError
        (fun _ =>
           log_info ("Named pipe " ++ str_of_path target_file
                     ++ " already exists, skipping...") ;;
           ret total)
    else
      try_except
        (copy_verify_file source_file target_file ;;
         log_info ("Copied file, source: " ++ str_of_path source_file
                   ++ ", target: " ++ str_of_path target_file) ;;
         ret (total + 1))
        (fun e => is_FileNotFoundError e || is_PermissionError e)
        (fun e =>
           (if is_FileNotFoundError e
            then log_error ("Cannot copy " ++ str_of_path source_file ++ ", file not found.")
            else log_error ("Cannot copy " ++ str_of_path source_file
                            ++ ", insufficient permissions")) ;;
           ret total).

(** The body of the loop of [copy_objects]. *)
Definition copy_step (target_files : dict) (source_path target_path : PurePath)
           (entry : PurePath * pyval) (total : nat) : M nat :=
  let '(file, md5) := entry in
  if copy_wanted target_files file md5
  then copy_object source_path target_path file total
  else ret total.

Definition copy_objects (source_files target_files : dict)
           (source_path target_path : PurePath) : M unit :=
  total <- for_each source_files (copy_step target_files source_path target_path) 0 ;;
  log_info ("Total new objects: " ++ str_of_nat total).

(** ** The remove phase *)

Definition remove_file (target_file : PurePath) (total : nat) : M nat :=
  try_except
    (Path_unlink target_file ;;
     log_info ("Removed file: " ++ str_of_path target_file) ;;
     ret (total + 1))
    (fun e => is_FileNotFoundError e || is_PermissionError e)
    (fun e =>
       (if is_FileNotFoundError e
        then log_error ("Cannot remove " ++ str_of_path target_file ++ ", file not found.")
        else log_error ("Cannot remove " ++ str_of_path target_file
                        ++ ", insufficient permissions")) ;;
       ret total).

Definition remove_dir (path : PurePath) (total : nat) : M nat :=
  try_except
    (Path_rmdir path ;;
     log_info ("Removing empty directory: " ++ str_of_path path) ;;
     ret (total + 1))
    (fun e => is_FileNotFoundError e || is_PermissionError e)
    (fun e =>
       (if is_FileNotFoundError e
        then log_error ("Cannot remove " ++ str_of_path path ++ ", directory not found.")
        else log_error ("Cannot remove " ++ str_of_path path
                        ++ ", insufficient permissions")) ;;
       ret total).

(** The first sweep: files are unlinked, directories are put aside. *)
Definition remove_sweep (source_files : dict) (target_path : PurePath)
           (file : PurePath) (st : list PurePath * nat) : M (list PurePath * nat) :=
  let '(dirs_to_remove, total) := st in
  if negb (key_in file source_files) then
    let target_file := get_absolute_path target_path file in
    d <- Path_is_dir target_file ;;
    if (d : bool) then ret (dirs_to_remove ++ [target_file], total)
    else total <- remove_file target_file total ;; ret (dirs_to_remove, total)
  else ret (dirs_to_remove, total).

Definition remove_objects (source_files target_files : dict)
           (target_path : PurePath) : M unit :=
  st <- for_each (dict_keys target_files)
          (remove_sweep source_files target_path) ([], 0) ;;
  let '(dirs_to_remove, total) := st in
  total <- for_each dirs_to_remove remove_dir total ;;
  log_info ("Total removed objects: " ++ str_of_nat total).

(** ** One pass, the scheduler and main *)

(** The statements of [do_sync_dirs] up to its [return]. *)
Definition sync_pass (source_path target_path : PurePath) : M unit :=
  log_info "Scanning source folder..." ;;
  source_files <- get_files_in_path source_path ;;
  log_info "Scanning target folder..." ;;
  target_files <- get_files_in_path target_path ;;
  log_info "Comparing folders: Looking for files and directories to copy..." ;;
  copy_objects source_files target_files source_path target_path ;;
  log_info "Comparing folders: Looking for files and directories to remove..." ;;
  remove_objects source_files target_files target_path ;;
  log_info "Done!".

Definition do_sync_dirs (source_path target_path : PurePath) (interval : Z)
  : M sched_event :=
  sync_pass source_path target_path ;;
  schedule_enter interval 1 source_path target_path interval.

(** Computations that may not end: [None] when the fuel runs out. *)
Definition MF (A : Type) : Type := world -> option (result A * world).

(** [schedule.run()]: sleep until the first event is due, run it, go on
    until the queue is empty. *)
Fixpoint schedule_run (fuel : nat) : MF unit :=
  fun w =>
    match fuel with
    | O => None
    | S fuel' =>
        match w_queue w with
        | [] => Some (Ok tt, w)
        | ev :: q =>
            let now := w_clock w in
            let turn :=
              if Z.gtb (ev_time ev) now then time_sleep (ev_time ev - now)
              else
                modify (set_queue q) ;;
                record_call (CallAction ev) ;;
                do_sync_dirs (ev_source ev) (ev_target ev) (ev_interval ev) ;;
                time_sleep 0 in
            match turn w with
            | (Ok _, w') => schedule_run fuel' w'
            | (Raise e, w') => Some (Raise e, w')
            end
        end
    end.

(** The parsed command line. *)
Record Namespace := {
  source : string;
  target : string;
  oneshot : bool;
  interval : Z;
  logfile : string
}.

Definition exit {A} (code : Z) : M A := raise (SystemExit code).

(** The body of [for path in [source_path, target_path]]. *)
Definition check_root (path : PurePath) (_ : unit) : M unit :=
  e <- Path_exists path ;;
  if (e : bool) then ret tt
  else log_critical (str_of_path path ++ " not found, exiting...") ;; exit 1.

(** Everything [main] does before the first pass. *)
Definition startup (args : Namespace) : M (PurePath * PurePath) :=
  init_logger (logfile args) ;;
  log_info "======== Startup ========" ;;
  log_info "Logger initialized." ;;
  log_info ("Using log file " ++ logfile args) ;;
  (if oneshot args then log_info "Running in one shot mode."
   else log_info ("Sync interval set to " ++ str_of_Z (interval args))) ;;
  source_path <- Path_resolve (PurePath_of_str (source args)) ;;
  log_info ("Source path set: " ++ str_of_path source_path) ;;
  target_path <- Path_resolve (PurePath_of_str (target args)) ;;
  log_info ("Target path set: " ++ str_of_path target_path) ;;
  for_each [source_path; target_path] check_root tt ;;
  ret (source_path, target_path).

Definition on_interrupt : M unit :=
  log_info "Shutting down on keyboard interrupt..." ;; exit 0.

Definition is_KeyboardInterrupt (e : exn) : bool :=
  match e with KeyboardInterrupt => true | _ => false end.

(** The [try] block of [main] with its handler. *)
Definition sync_loop (fuel : nat) (args : Namespace)
           (source_path target_path : PurePath) : MF unit :=
  fun w =>
    let caught (r : result unit * world) :=
      match r with
      | (Raise e, w') =>
          if is_KeyboardInterrupt e then on_interrupt w' else (Raise e, w')
      | _ => r
      end in
    match do_sync_dirs source_path target_path (interval args) w with
    | (Raise e, w') => Some (caught (Raise e, w'))
    | (Ok _, w') =>
        (* disable scheduler if one shot mode is enabled *)
        if negb (oneshot args)
        then option_map caught (schedule_run fuel w')
        else Some (Ok tt, w')
    end.

Definition main (fuel : nat) (args : Namespace) : MF unit :=
  fun w =>
    match (paths <- startup args ;;
           (* schedule = sched.scheduler(time.time, time.sleep) *)
           modify (set_queue []) ;;
           ret paths) w with
    | (Raise e, w') => Some (Raise e, w')
    | (Ok (source_path, target_path), w') =>
        sync_loop fuel args source_path target_path w'
    end.

(** * Vocabulary of the properties *)

Definition relative (p : PurePath) : Prop := pp_root p = "".

(** [a] lies under [r]: same root, and the components of [r] come first. *)
Definition lies_under (r a : PurePath) : Prop :=
  pp_root a = pp_root r /\ exists rest, pp_parts a = pp_parts r ++ rest.

(** The file at [p] holds [data] and all of it can be read. *)
Definition readable_file (w : world) (p : PurePath) (data : bytes) : Prop :=
  exists st bad,
    walk (w_fs w) (fs_path w p) = inr (RegularFile st data bad)
    /\ readable st = true
    /\ (forall k, bad = Some k -> length data <= k).

(** Opening [p] or reading it to its end fails. *)
Definition unreadable (w : world) (p : PurePath) : Prop :=
  forall data, ~ readable_file w p data.

(** The path a recorded call works on: the destination for the copies. *)
Definition call_target (c : call) : option PurePath :=
  match c with
  | CallMkdir p | CallMkfifo p | CallUnlink p | CallRmdir p => Some p
  | CallCopystat _ dst | CallCopy2 _ dst => Some dst
  | CallEnter _ | CallAction _ => None
  end.

Definition call_on (target_file : PurePath) (c : call) : bool :=
  match call_target c with
  | Some p => path_eqb p target_file
  | None => false
  end.

(** Some call of [cs] works on [target_file]. *)
Definition acted_on (target_file : PurePath) (cs : list call) : bool :=
  existsb (call_on target_file) cs.

(** The calls recorded while [m] runs from [w]. *)
Definition calls_during {A} (m : M A) (w : world) : list call :=
  skipn (length (w_calls w)) (w_calls (snd (m w))).

(** Relations between the world before and the world after that compose:
    what a computation keeps is kept by sequences, handlers and loops. *)
Class Frame (R : world -> world -> Prop) : Prop := {
  frame_refl : forall w, R w w;
  frame_trans : forall a b c, R a b -> R b c -> R a c
}.

Definition keeps (R : world -> world -> Prop) {A} (m : M A) : Prop :=
  forall w, R w (snd (m w)).

(** Neither the record of calls nor the scheduler's queue is touched. *)
Definition untouched (w w' : world) : Prop :=
  w_calls w' = w_calls w /\ w_queue w' = w_queue w.

(** The queue is as it was. *)
Definition same_queue (w w' : world) : Prop := w_queue w' = w_queue w.

(** The file system is as it was. *)
Definition same_fs (w w' : world) : Prop := w_fs w' = w_fs w.

(** Calls were added to the record, and those satisfy [ok]. *)
Definition extends (ok : call -> Prop) (w w' : world) : Prop :=
  exists new, w_calls w' = w_calls w ++ new /\ Forall ok new.

Definition appends {A} (ok : call -> Prop) (m : M A) : Prop := keeps (extends ok) m.

(** The same, with at least one call. *)
Definition appends_some {A} (ok : call -> Prop) (m : M A) : Prop :=
  forall w, exists c new,
    w_calls (snd (m w)) = w_calls w ++ c :: new /\ Forall ok (c :: new).

(** [m] records exactly the calls [cs], whatever its outcome. *)
Definition records {A} (cs : list call) (m : M A) : Prop :=
  forall w, w_calls (snd (m w)) = w_calls w ++ cs.

(** A key of the target snapshot that the source snapshot does not have. *)
Definition orphan (source_files target_files : dict) (file : PurePath) : Prop :=
  In file (dict_keys target_files) /\ ~ In file (dict_keys source_files).

(** The calls that the delete rule allows. *)
Definition unlink_of_orphan (source_files target_files : dict) (target_path : PurePath)
           (c : call) : Prop :=
  exists file, orphan source_files target_files file
               /\ c = CallUnlink (get_absolute_path target_path file).

Definition rmdir_of_orphan (source_files target_files : dict) (target_path : PurePath)
           (c : call) : Prop :=
  exists file, orphan source_files target_files file
               /\ c = CallRmdir (get_absolute_path target_path file).

Definition orphan_target (source_files target_files : dict) (target_path : PurePath)
           (p : PurePath) : Prop :=
  exists file, orphan source_files target_files file
               /\ p = get_absolute_path target_path file.

(** A test on the file system returns and changes nothing. *)
Definition pure_test (m : M bool) : Prop := forall w, exists b, m w = (Ok b, w).

Definition works_on (target_file : PurePath) (c : call) : Prop :=
  call_target c = Some target_file.

(** The calls that change the file system, as opposed to the scheduler's. *)
Definition is_fs_call (c : call) : bool :=
  match c with
  | CallEnter _ | CallAction _ => false
  | _ => true
  end.

Definition fs_calls (cs : list call) : list call := filter is_fs_call cs.

Definition fs_call (c : call) : Prop := is_fs_call c = true.

Definition is_action (c : call) : bool :=
  match c with CallAction _ => true | _ => false end.

(** The root named by a command-line argument, resolved as [main] does. *)
Definition resolved (w : world) (arg : string) : PurePath :=
  {| pp_root := "/"; pp_parts := collapse [] (fs_path w (PurePath_of_str arg)) |}.

Definition path_exists (w : world) (p : PurePath) : bool :=
  match walk (w_fs w) (fs_path w p) with
  | inr _ => true
  | inl _ => false
  end.

(** The world after the records [rs] have been emitted. *)
Definition logged (rs : list (Z * string)) (w : world) : world :=
  fold_left (fun w r => add_log r w) rs w.

(** What [main] logs before it looks at the roots. *)
Definition startup_lines (args : Namespace) (source_path target_path : PurePath)
  : list (Z * string) :=
  [ (INFO, "======== Startup ========");
    (INFO, "Logger initialized.");
    (INFO, ("Using log file " ++ logfile args)%string);
    (INFO, if oneshot args then "Running in one shot mode."
           else ("Sync interval set to " ++ str_of_Z (interval args))%string);
    (INFO, ("Source path set: " ++ str_of_path source_path)%string);
    (INFO, ("Target path set: " ++ str_of_path target_path)%string) ].

Definition not_found (path : PurePath) : Z * string :=
  (CRITICAL, (str_of_path path ++ " not found, exiting...")%string).

(** The [except KeyboardInterrupt] clause of [main], applied to the outcome
    of its [try] block. *)
Definition except_interrupt (out : result unit * world) : result unit * world :=
  match out with
  | (Raise KeyboardInterrupt, w') => on_interrupt w'
  | _ => out
  end.

(** The log has only got longer. *)
Definition log_grows (w w' : world) : Prop :=
  exists more, w_log w' = w_log w ++ more.

(** The first line of a pass. *)
Definition pass_begins : Z * string := (INFO, "Scanning source folder...").

(** ** Example trees *)

Definition rw_file : stat_result := {| st_mode := 420; st_mtime := 0 |}.
Definition no_access : stat_result := {| st_mode := 0; st_mtime := 0 |}.
Definition rwx_dir : stat_result := {| st_mode := 493; st_mtime := 0 |}.

Definition file_of (s : string) : node := RegularFile rw_file (bytes_of_string s) None.
Definition locked_file_of (s : string) : node := RegularFile no_access (bytes_of_string s) None.
Definition dir_of (es : list (string * node)) : node := Directory rwx_dir es.

(** A world at time 100 with the logger at [INFO], nothing recorded yet. *)
Definition world_of (fs : node) : world := mkWorld fs [] 100 None INFO [] [] [].

(** The files of the unit tests: [testsrc/md5.test] holds "0". *)
Definition test_world : world :=
  world_of (dir_of [("testsrc", dir_of [("testdir", dir_of []); ("md5.test", file_of "0")]);
                    ("testtarget", dir_of [("md5.test", file_of "0")])]).

(** The same before anything was copied, as [setUp] leaves it. *)
Definition fresh_test_world : world :=
  world_of (dir_of [("testsrc", dir_of [("testdir", dir_of []); ("md5.test", file_of "0")]);
                    ("testtarget", dir_of [])]).

Definition testsrc_files : dict :=
  [(PurePath_of_str "testdir", PyNone);
   (PurePath_of_str "md5.test", PyStr "cfcd208495d565ef66e7dff9f98764da")].

(** Two files that cannot be read, with different content. *)
Definition locked_world : world :=
  world_of (dir_of [("src", dir_of [("a", locked_file_of "1")]);
                    ("tgt", dir_of [("a", file_of "2"); ("b", locked_file_of "3")])]).

(** The end-to-end scenario: source [{a.txt: "1", sub/b.txt: "2"}], target
    [{a.txt: "0", stale.txt: "9"}]. *)
Definition scenario_world : world :=
  world_of (dir_of [("src", dir_of [("a.txt", file_of "1");
                                    ("sub", dir_of [("b.txt", file_of "2")])]);
                    ("tgt", dir_of [("a.txt", file_of "0"); ("stale.txt", file_of "9")])]).

Definition md5_of (s : string) : pyval :=
  PyStr (md5_hexdigest (md5_update hashlib_md5 (bytes_of_string s))).

Definition scenario_source : dict :=
  [(PurePath_of_str "a.txt", md5_of "1");
   (PurePath_of_str "sub", PyNone);
   (PurePath_of_str "sub/b.txt", md5_of "2")].

Definition scenario_target : dict :=
  [(PurePath_of_str "a.txt", md5_of "0");
   (PurePath_of_str "stale.txt", md5_of "9")].

(** A changed file whose new content also sits in a stale file of the
    target: source [{a.txt: "1"}], target [{a.txt: "0", b.txt: "1"}]. *)
Definition stale_world : world :=
  world_of (dir_of [("src", dir_of [("a.txt", file_of "1")]);
                    ("tgt", dir_of [("a.txt", file_of "0"); ("b.txt", file_of "1")])]).

Definition stale_source : dict := [(PurePath_of_str "a.txt", md5_of "1")].

Definition stale_target : dict :=
  [(PurePath_of_str "a.txt", md5_of "0"); (PurePath_of_str "b.txt", md5_of "1")].

(** A directory inside a directory, both only in the target. *)
Definition nested_world : world :=
  world_of (dir_of [("src", dir_of []);
                    ("tgt", dir_of [("a", dir_of [("b", dir_of [])])])]).

Definition nested_target : dict :=
  [(PurePath_of_str "a", PyNone); (PurePath_of_str "a/b", PyNone)].

(** A file of 5000 bytes: one full chunk and a shorter one. *)
Definition long_world : world :=
  world_of (dir_of [("long.bin", RegularFile rw_file (repeat "a"%byte (50 * 100)) None)]).

Definition missing_target_args : Namespace :=
  {| source := "/src"; target := "/nope"; oneshot := false; interval := 600;
     logfile := "dirsync.log" |}.

Definition oneshot_args : Namespace :=
  {| source := "/src"; target := "/tgt"; oneshot := true; interval := 600;
     logfile := "dirsync.log" |}.

(** Two directories of the source whose places in the target are taken by
    regular files: source [{x/y: "1", w/v: "2"}], target [{x: "0", w: "0"}]. *)
Definition blocked_world : world :=
  world_of (dir_of [("src", dir_of [("x", dir_of [("y", file_of "1")]);
                                    ("w", dir_of [("v", file_of "2")])]);
                    ("tgt", dir_of [("x", file_of "0"); ("w", file_of "0")])]).

Definition blocked_source : dict :=
  [(PurePath_of_str "x", PyNone);
   (PurePath_of_str "w", PyNone);
   (PurePath_of_str "x/y", md5_of "1");
   (PurePath_of_str "w/v", md5_of "2")].

Definition blocked_target : dict :=
  [(PurePath_of_str "x", md5_of "0"); (PurePath_of_str "w", md5_of "0")].

(** * Vocabulary of the further properties *)

(** Induction on a tree, with the hypothesis for every entry of a listing. *)
Section NodeInduction.

Variable P : node -> Prop.
Hypothesis P_file : forall st data bad, P (RegularFile st data bad).
Hypothesis P_dir : forall st es, Forall (fun e => P (snd e)) es -> P (Directory st es).
Hypothesis P_fifo : forall st, P (NamedPipe st).
Hypothesis P_special : forall st, P (Special st).

Fixpoint node_ind_nested (n : node) : P n :=
  match n with
  | RegularFile st data bad => P_file st data bad
  | Directory st es =>
      P_dir st
        ((fix entries (es : list (string * node)) : Forall (fun e => P (snd e)) es :=
            match es with
            | [] => Forall_nil _
            | (name, c) :: es' =>
                @Forall_cons _ (fun e => P (snd e)) (name, c) es'
                             (node_ind_nested c) (entries es')
            end) es)
  | NamedPipe st => P_fifo st
  | Special st => P_special st
  end.

End NodeInduction.

(** [a] is an initial segment of [b]. *)
Definition is_prefix_of (a b : list string) : Prop := exists rest, b = a ++ rest.

(** Neither path leads to the other. *)
Definition apart (a b : list string) : Prop :=
  ~ is_prefix_of a b /\ ~ is_prefix_of b a.

(** Everything but the log is as it was. *)
Definition only_logged (w w' : world) : Prop :=
  w_fs w' = w_fs w /\ w_cwd w' = w_cwd w /\ w_clock w' = w_clock w
  /\ w_sigint w' = w_sigint w /\ w_level w' = w_level w
  /\ w_calls w' = w_calls w /\ w_queue w' = w_queue w.

(** What [glob] can reach from a directory: a walk that stops at the
    directories that cannot be listed. *)
Fixpoint glob_walk (n : node) (p : list string) : option node :=
  match p with
  | [] => Some n
  | c :: p' =>
      match n with
      | Directory st es =>
          if readable st then
            match entry_get c es with
            | Some n' => glob_walk n' p'
            | None => None
            end
          else None
      | _ => None
      end
  end.

(** The body of the loop of [get_files_in_path]. *)
Definition scan_step (scan_path file : PurePath) (scanned_dir : dict) : M dict :=
  let record file_md5 :=
    file_relative <- lift (get_relative_path scan_path file) ;;
    ret (dict_set file_relative file_md5 scanned_dir) in
  f <- Path_is_file file ;;
  if (f : bool) then file_md5 <- get_md5 file ;; record file_md5
  else
    d <- Path_is_dir file ;;
    p <- Path_is_fifo file ;;
    if (d : bool) || (p : bool) then record PyNone
    else ret scanned_dir.

(** The fingerprint [get_md5] gives a file in a world. *)
Definition md5_of_file (w : world) (p : PurePath) : pyval :=
  match fst (get_md5 p w) with
  | Ok v => v
  | Raise _ => PyInt 0
  end.

(** The value a scan stores for a path, if it stores one. *)
Definition scan_value (w : world) (file : PurePath) : option pyval :=
  match walk (w_fs w) (fs_path w file) with
  | inr (RegularFile _ _ _) => Some (md5_of_file w file)
  | inr (Directory _ _) | inr (NamedPipe _) => Some PyNone
  | inr (Special _) | inl _ => None
  end.

(** The path below [scan_path] that [rel] names. *)
Definition below (scan_path : PurePath) (rel : list string) : PurePath :=
  {| pp_root := pp_root scan_path; pp_parts := pp_parts scan_path ++ rel |}.

Definition rel_path (rel : list string) : PurePath :=
  {| pp_root := ""; pp_parts := rel |}.

(** The snapshot as a function of the tree: the paths that [glob] lists, in
    its order, each with its value. *)
Definition scan_fold (w : world) (scan_path : PurePath) (rels : list (list string))
           (d : dict) : dict :=
  fold_left (fun d rel =>
               match scan_value w (below scan_path rel) with
               | Some v => dict_set (rel_path rel) v d
               | None => d
               end) rels d.

Definition glob_rels (w : world) (scan_path : PurePath) : list (list string) :=
  match walk (w_fs w) (fs_path w scan_path) with
  | inr n => glob_rec n []
  | inl _ => []
  end.

(** Two trees that hold the same. *)
Definition synced_world : world :=
  world_of (dir_of [("src", dir_of [("a.txt", file_of "1"); ("sub", dir_of [])]);
                    ("tgt", dir_of [("a.txt", file_of "1"); ("sub", dir_of [])])]).

(** The node at [q], if there is one, stays as it is. *)
Definition keeps_node (q : list string) (w w' : world) : Prop :=
  forall n, walk (w_fs w) q = inr n -> walk (w_fs w') q = inr n.

(** An absolute path at or below the components [t]. *)
Definition under (t : list string) (p : PurePath) : Prop :=
  is_absolute p = true /\ is_prefix_of t (pp_parts p).

(** A computation's results satisfy [P]. *)
Definition returns {A} (P : A -> Prop) (m : M A) : Prop :=
  forall w a, fst (m w) = Ok a -> P a.

(** [p] can be written as a file: its parent is a directory in which it is
    either missing, the directory being writable, or a writable regular
    file. *)
Definition writable_target (w : world) (p : PurePath) : Prop :=
  let d := fs_path w p in
  d <> []
  /\ exists st es,
      walk (w_fs w) (removelast d) = inr (Directory st es)
      /\ match entry_get (last d "") es with
         | None => writable st = true
         | Some (RegularFile fst _ _) => writable fst = true
         | Some _ => False
         end.

(** The same trees with an interrupt to come at time 150, and a command line
    without [--oneshot]. *)
Definition interrupted_world : world := set_clock 100 (Some 150%Z) synced_world.

Definition recurring_args : Namespace :=
  {| source := "/src"; target := "/tgt"; oneshot := false; interval := 600;
     logfile := "dirsync.log" |}.

(** * Properties *)

Unset Implicit Arguments.

(** ** Equality tests decide equality *)

Lemma parts_eqb_eq a b : parts_eqb a b = true <-> a = b.
Proof.
  revert b; induction a as [|x a IH]; intros [|y b]; simpl;
    try (split; [discriminate | discriminate]); [tauto|].
  rewrite andb_true_iff, String.eqb_eq, IH.
  split; [intros [-> ->]; reflexivity | intros H; inversion H; auto].
Qed.

Lemma path_eqb_eq a b : path_eqb a b = true <-> a = b.
Proof.
  unfold path_eqb. rewrite andb_true_iff, String.eqb_eq, parts_eqb_eq.
  destruct a, b; simpl; split; [intros [-> ->]; reflexivity | intros H; inversion H; auto].
Qed.

Lemma py_eqb_eq a b : py_eqb a b = true <-> a = b.
Proof.
  destruct a, b; simpl; try (split; [discriminate | discriminate]); try tauto.
  - rewrite Z.eqb_eq. split; [intros ->; reflexivity | intros H; inversion H; auto].
  - rewrite String.eqb_eq. split; [intros ->; reflexivity | intros H; inversion H; auto].
Qed.

Lemma key_in_In k d : key_in k d = true <-> In k (dict_keys d).
Proof.
  unfold key_in. rewrite existsb_exists. split.
  - intros (x & Hx & E). apply path_eqb_eq in E. subst. exact Hx.
  - intros H. exists k. split; [exact H | apply path_eqb_eq; reflexivity].
Qed.

Lemma value_in_In v d : value_in v d = true <-> In v (dict_values d).
Proof.
  unfold value_in. rewrite existsb_exists. split.
  - intros (x & Hx & E). apply py_eqb_eq in E. subst. exact Hx.
  - intros H. exists v. split; [exact H | apply py_eqb_eq; reflexivity].
Qed.

Lemma is_None_eq v : is_None v = true <-> v = PyNone.
Proof. destruct v; simpl; split; congruence. Qed.

(** ** Paths *)

Lemma is_prefix_app a b : is_prefix a (a ++ b) = true.
Proof. induction a; simpl; [reflexivity|]. rewrite String.eqb_refl. exact IHa. Qed.

Lemma skipn_length_app (a b : list string) : skipn (length a) (a ++ b) = b.
Proof. induction a; simpl; auto. Qed.

Lemma is_absolute_relative p : relative p -> is_absolute p = false.
Proof. unfold relative, is_absolute. intros ->. reflexivity. Qed.

Lemma relative_to_joinpath r p :
  relative p -> relative_to (joinpath r p) r = Ok p.
Proof.
  intros Hp. unfold joinpath. rewrite (is_absolute_relative _ Hp).
  unfold relative_to; simpl.
  rewrite String.eqb_refl, is_prefix_app, skipn_length_app. simpl.
  destruct p as [root parts]; unfold relative in Hp; simpl in *; subst. reflexivity.
Qed.

Lemma relative_to_relative a r rel : relative_to a r = Ok rel -> relative rel.
Proof.
  unfold relative_to. destruct (_ && _); [|discriminate].
  intros H; inversion H. reflexivity.
Qed.

Lemma joinpath_inj r p q :
  relative p -> relative q -> joinpath r p = joinpath r q -> p = q.
Proof.
  intros Hp Hq. unfold joinpath.
  rewrite (is_absolute_relative _ Hp), (is_absolute_relative _ Hq).
  intros H. inversion H as [H1]. apply app_inv_head in H1.
  destruct p, q; unfold relative in *; simpl in *; subst. reflexivity.
Qed.

(** C10. Path round trip: making a relative path absolute under a root and
    taking it relative to that root again gives the path back; and for a path
    that lies under the root, [get_relative_path] succeeds and joining its
    result to the root gives the path back. *)
Theorem path_round_trip (r p a : PurePath) :
  (relative p -> get_relative_path r (get_absolute_path r p) = Ok p) /\
  (lies_under r a ->
   exists rel, get_relative_path r a = Ok rel /\ get_absolute_path r rel = a).
Proof.
  split.
  - apply relative_to_joinpath.
  - intros [Hroot [rest Hparts]].
    exists {| pp_root := ""; pp_parts := rest |}.
    unfold get_relative_path, get_absolute_path, relative_to, joinpath; simpl.
    rewrite Hroot, Hparts, String.eqb_refl, is_prefix_app, skipn_length_app.
    split; [reflexivity|].
    destruct a as [ra pa]; simpl in *; subst. reflexivity.
Qed.

Lemma path_round_trip_witness :
  get_relative_path (PurePath_of_str "/test/root")
    (get_absolute_path (PurePath_of_str "/test/root") (PurePath_of_str "long/path"))
  = Ok (PurePath_of_str "long/path")
  /\ exists rel,
      get_relative_path (PurePath_of_str "/test/root")
                        (PurePath_of_str "/test/root/long/path") = Ok rel
      /\ get_absolute_path (PurePath_of_str "/test/root") rel
         = PurePath_of_str "/test/root/long/path".
Proof.
  split.
  - apply (proj1 (path_round_trip (PurePath_of_str "/test/root")
                    (PurePath_of_str "long/path") (PurePath_of_str "/"))).
    reflexivity.
  - apply (proj2 (path_round_trip (PurePath_of_str "/test/root")
                    (PurePath_of_str "long/path")
                    (PurePath_of_str "/test/root/long/path"))).
    split; [reflexivity | exists ["long"; "path"]; reflexivity].
Defined.

(** ** Reading a file in chunks *)

Lemma chunk_size_pos : 0 < chunk_size.
Proof. exact (Nat.lt_0_succ _). Qed.

Lemma file_read_ok f n :
  (forall k, f_bad f = Some k -> f_pos f + length (f_rest f) <= k) ->
  file_read f n
  = Ok (firstn n (f_rest f),
        {| f_name := f_name f; f_rest := skipn n (f_rest f);
           f_pos := f_pos f + length (firstn n (f_rest f)); f_bad := f_bad f |}).
Proof.
  intros H. unfold file_read. destruct (f_bad f) as [k|] eqn:E; [|reflexivity].
  specialize (H k eq_refl).
  assert (L : length (firstn n (f_rest f)) <= length (f_rest f))
    by (rewrite length_firstn; lia).
  destruct (Nat.ltb_spec k (f_pos f + length (firstn n (f_rest f)))); [lia | reflexivity].
Qed.

Lemma file_read_inv f n chunk f' :
  file_read f n = Ok (chunk, f') ->
  chunk = firstn n (f_rest f) /\ f_rest f' = skipn n (f_rest f)
  /\ f_pos f' = f_pos f + length chunk /\ f_bad f' = f_bad f /\ f_name f' = f_name f
  /\ (forall k, f_bad f = Some k -> f_pos f' <= k).
Proof.
  unfold file_read. destruct (f_bad f) as [k|] eqn:E.
  - destruct (Nat.ltb_spec k (f_pos f + length (firstn n (f_rest f)))); [discriminate|].
    intros H'; inversion H'; subst; simpl. repeat split; auto.
    intros k' Hk; inversion Hk; subst; lia.
  - intros H'; inversion H'; subst; simpl. repeat split; auto. discriminate.
Qed.

Lemma file_read_raise f n e :
  file_read f n = Raise e -> e = OSError EIO (f_name f).
Proof.
  unfold file_read. destruct (match f_bad f with Some _ => _ | None => _ end);
    intros H; inversion H; reflexivity.
Qed.

Lemma firstn_nil_inv {X} n (l : list X) : 0 < n -> firstn n l = [] -> l = [].
Proof. destruct n; [lia|]. destruct l; [reflexivity | discriminate]. Qed.

(** With nothing in the way, the loop feeds the pending chunk and the rest
    of the file. *)
Lemma read_chunks_ok file chunk file_md5 :
  (forall k, f_bad file = Some k -> f_pos file + length (f_rest file) <= k) ->
  (chunk = [] -> f_rest file = []) ->
  read_chunks file chunk file_md5
  = Ok {| md5_fed := md5_fed file_md5 ++ chunk ++ f_rest file |}.
Proof.
  funelim (read_chunks file chunk file_md5); intros Hbad Hnil.
  - rewrite (Hnil eq_refl), app_nil_r. destruct file_md5; reflexivity.
  - destruct (file_read_inv _ _ _ _ e) as (Hc & Hr & Hp & Hb & _ & _).
    rewrite H.
    + simpl. rewrite Hc, Hr, firstn_skipn, <- app_assoc. reflexivity.
    + intros k Hk. rewrite Hb in Hk. specialize (Hbad k Hk).
      rewrite Hp, Hr, Hc. rewrite <- (firstn_skipn chunk_size (f_rest file)) in Hbad.
      rewrite length_app in Hbad. lia.
    + intros E. rewrite Hr. rewrite Hc in E.
      rewrite (firstn_nil_inv _ _ chunk_size_pos E). apply skipn_nil.
  - pose proof (file_read_ok file chunk_size Hbad). congruence.
Qed.

(** With a bad byte ahead, the loop ends in [OSError EIO]. *)
Lemma read_chunks_bad file chunk file_md5 k :
  f_bad file = Some k -> f_pos file <= k -> k < f_pos file + length (f_rest file) ->
  chunk <> [] ->
  read_chunks file chunk file_md5 = Raise (OSError EIO (f_name file)).
Proof.
  funelim (read_chunks file chunk file_md5); intros Hb Hlo Hhi Hne.
  - congruence.
  - destruct (file_read_inv _ _ _ _ e) as (Hc & Hr & Hp & Hb' & Hn & Hle).
    rewrite <- Hn. apply H with (k := k).
    + congruence.
    + apply Hle. exact Hb.
    + rewrite Hp, Hr, Hc. rewrite <- (firstn_skipn chunk_size (f_rest file)) in Hhi.
      rewrite length_app in Hhi. lia.
    + intros E. rewrite Hc in E. apply (firstn_nil_inv _ _ chunk_size_pos) in E.
      rewrite E in Hhi. simpl in Hhi. lia.
  - match goal with E : file_read _ _ = Raise _ |- _ =>
      rewrite (file_read_raise _ _ _ E); reflexivity end.
Qed.

(** ** get_md5 *)

Ltac fsimpl := cbn [f_rest f_pos f_bad f_name md5_fed app Nat.add].

Lemma read_md5_readable w p data :
  readable_file w p data ->
  read_md5 p w = (Ok (PyStr (md5_hexdigest (md5_update hashlib_md5 data))), w).
Proof.
  intros (st & bad & Hw & Hr & Hb).
  unfold read_md5, open_rb, os_stat, bind. rewrite Hw, Hr.
  unfold ret, lift.
  rewrite file_read_ok by (fsimpl; intros k Hk; apply Hb; exact Hk).
  rewrite read_chunks_ok.
  - unfold md5_update, hashlib_md5. fsimpl. rewrite firstn_skipn. reflexivity.
  - fsimpl. intros k Hk. specialize (Hb k Hk).
    rewrite <- (firstn_skipn chunk_size data) in Hb. rewrite length_app in Hb. lia.
  - fsimpl. intros E. rewrite (firstn_nil_inv _ _ chunk_size_pos E). apply skipn_nil.
Qed.

Lemma read_md5_unreadable w p :
  unreadable w p ->
  exists e, read_md5 p w = (Raise e, w) /\ is_Exception e = true.
Proof.
  intros Hun. unfold read_md5, open_rb, os_stat, bind.
  destruct (walk (w_fs w) (fs_path w p)) as [err|n] eqn:Hw.
  { eexists; split; reflexivity. }
  destruct n as [st data bad| | |]; try (eexists; split; reflexivity).
  destruct (readable st) eqn:Hr; [|eexists; split; reflexivity].
  unfold ret, lift.
  destruct bad as [k|].
  2:{ exfalso. apply (Hun data). exists st, None. repeat split; auto. discriminate. }
  destruct (Nat.lt_ge_cases k (length data)) as [Hk|Hk].
  2:{ exfalso. apply (Hun data). exists st, (Some k). repeat split; auto.
      intros k' E; inversion E; subst; exact Hk. }
  destruct (file_read _ chunk_size) as [[chunk file']|e] eqn:Hread.
  - destruct (file_read_inv _ _ _ _ Hread) as (Hc & Hrest & Hp & Hb & Hn & Hle).
    cbn [f_rest f_pos f_bad f_name Nat.add] in Hc, Hrest, Hp, Hb, Hn, Hle.
    rewrite (read_chunks_bad file' chunk hashlib_md5 k).
    + eexists; split; reflexivity.
    + exact Hb.
    + apply Hle. reflexivity.
    + rewrite Hp, Hrest, Hc. rewrite <- (firstn_skipn chunk_size data) in Hk.
      rewrite length_app in Hk. lia.
    + intros E. rewrite Hc in E. apply (firstn_nil_inv _ _ chunk_size_pos) in E.
      subst data. cbn [length] in Hk. lia.
  - rewrite (file_read_raise _ _ _ Hread). eexists; split; reflexivity.
Qed.

Lemma readable_or_not w p : (exists data, readable_file w p data) \/ unreadable w p.
Proof.
  unfold unreadable, readable_file.
  destruct (walk (w_fs w) (fs_path w p)) as [err|n] eqn:Hw.
  { right. intros data (st & bad & H & _). discriminate. }
  destruct n as [st data bad| | |];
    try (right; intros data' (st' & bad' & H & _); discriminate).
  destruct (readable st) eqn:Hr.
  2:{ right. intros data' (st' & bad' & H & Hr' & _). inversion H; subst. congruence. }
  destruct bad as [k|].
  2:{ left. exists data, st, None. repeat split; auto. discriminate. }
  destruct (Nat.lt_ge_cases k (length data)) as [Hk|Hk].
  - right. intros data' (st' & bad' & H & _ & Hb). inversion H; subst.
    specialize (Hb k eq_refl). lia.
  - left. exists data, st, (Some k). repeat split; auto.
    intros k' E; inversion E; subst; exact Hk.
Qed.

Lemma get_md5_readable w p data :
  readable_file w p data ->
  get_md5 p w = (Ok (PyStr (md5_hexdigest (md5_update hashlib_md5 data))), w).
Proof.
  intros H. unfold get_md5, try_except. rewrite (read_md5_readable _ _ _ H). reflexivity.
Qed.

Lemma get_md5_unreadable w p :
  unreadable w p ->
  exists msg, get_md5 p w = (Ok (PyInt 0), snd (log_warning msg w)).
Proof.
  intros H. destruct (read_md5_unreadable _ _ H) as (e & He & Hexc).
  unfold get_md5, try_except. rewrite He, Hexc.
  eexists. unfold bind, log_warning, log_at, ret. reflexivity.
Qed.

(** C7. The fingerprint operation never raises: it always returns a value,
    and that value is the sentinel [0] when the path does not exist and, more
    generally, whenever opening the file fails or reading it fails. *)
Theorem get_md5_never_raises (filename : PurePath) (w : world) :
  exists v w',
    get_md5 filename w = (Ok v, w')
    /\ (fst (Path_exists filename w) = Ok false -> v = PyInt 0)
    /\ (forall e, fst (open_rb filename w) = Raise e -> v = PyInt 0)
    /\ (forall file e,
          fst (open_rb filename w) = Ok file ->
          (r <- lift (file_read file chunk_size) ;;
           lift (read_chunks (snd r) (fst r) hashlib_md5)) w = (Raise e, w) ->
          v = PyInt 0).
Proof.
  destruct (readable_or_not w filename) as [[data H]|H].
  - exists (PyStr (md5_hexdigest (md5_update hashlib_md5 data))), w.
    split; [apply get_md5_readable; exact H|].
    destruct H as (st & bad & Hw & Hr & Hb).
    split; [|split].
    + unfold Path_exists. rewrite Hw. discriminate.
    + unfold open_rb, os_stat, bind. rewrite Hw, Hr. discriminate.
    + intros file e. unfold open_rb, os_stat, bind. rewrite Hw, Hr.
      cbn [fst]. intros E; inversion E; subst file; clear E.
      unfold lift.
      rewrite file_read_ok by (fsimpl; intros k Hk; apply Hb; exact Hk).
      cbn [fst snd]. rewrite read_chunks_ok.
      * discriminate.
      * fsimpl. intros k Hk. specialize (Hb k Hk).
        rewrite <- (firstn_skipn chunk_size data) in Hb. rewrite length_app in Hb. lia.
      * fsimpl. intros E. rewrite (firstn_nil_inv _ _ chunk_size_pos E). apply skipn_nil.
  - destruct (get_md5_unreadable _ _ H) as (msg & Hm).
    exists (PyInt 0), (snd (log_warning msg w)). split; [exact Hm|]. auto.
Qed.

Lemma get_md5_never_raises_witness :
  exists w', get_md5 (PurePath_of_str "wrongvalue") test_world = (Ok (PyInt 0), w').
Proof.
  destruct (get_md5_never_raises (PurePath_of_str "wrongvalue") test_world)
    as (v & w' & Hrun & Hmissing & _).
  exists w'. rewrite <- (Hmissing eq_refl). exact Hrun.
Defined.

(** C8. For a file all of whose content can be read, the fingerprint is the
    digest of the whole content taken at once, although it is computed over
    4096-byte chunks; so two calls on unchanged content return the same
    value, and two files with the same bytes (in any two worlds, under any
    two names) receive equal fingerprints. *)
Theorem fingerprint_of_content (w1 w2 : world) (p1 p2 : PurePath) (data : bytes) :
  readable_file w1 p1 data ->
  readable_file w2 p2 data ->
  let whole := PyStr (md5_hexdigest (md5_update hashlib_md5 data)) in
  (v1 <- get_md5 p1 ;; v2 <- get_md5 p1 ;; ret (v1, v2)) w1 = (Ok (whole, whole), w1)
  /\ fst (get_md5 p1 w1) = fst (get_md5 p2 w2)
  /\ fst (get_md5 p1 w1) = Ok whole.
Proof.
  intros H1 H2 whole. unfold bind.
  rewrite !(get_md5_readable _ _ _ H1), (get_md5_readable _ _ _ H2).
  repeat split.
Qed.

Lemma test_file_readable :
  readable_file test_world (PurePath_of_str "testsrc/md5.test") (bytes_of_string "0").
Proof.
  exists rw_file, None. split; [reflexivity | split; [reflexivity | discriminate]].
Defined.

Lemma test_copy_readable :
  readable_file test_world (PurePath_of_str "/testtarget/md5.test") (bytes_of_string "0").
Proof.
  exists rw_file, None. split; [reflexivity | split; [reflexivity | discriminate]].
Defined.

Lemma fingerprint_of_content_witness :
  fst (get_md5 (PurePath_of_str "testsrc/md5.test") test_world)
  = fst (get_md5 (PurePath_of_str "/testtarget/md5.test") test_world)
  /\ fst (get_md5 (PurePath_of_str "testsrc/md5.test") test_world)
     = Ok (PyStr (md5_hexdigest (md5_update hashlib_md5 (bytes_of_string "0")))).
Proof.
  exact (proj2 (fingerprint_of_content test_world test_world
                  (PurePath_of_str "testsrc/md5.test")
                  (PurePath_of_str "/testtarget/md5.test")
                  (bytes_of_string "0") test_file_readable test_copy_readable)).
Defined.

(** The value the unit test expects for a file holding "0". *)
Example test_get_md5 :
  fst (get_md5 (PurePath_of_str "testsrc/md5.test") test_world)
  = Ok (PyStr "cfcd208495d565ef66e7dff9f98764da")
  /\ fst (get_md5 (PurePath_of_str "wrongvalue") test_world) = Ok (PyInt 0).
Proof. split; vm_compute; reflexivity. Qed.

(** A file that takes two reads. *)
Example get_md5_two_chunks :
  fst (get_md5 (PurePath_of_str "/long.bin") long_world)
  = Ok (PyStr "7aaa7dec709fa4fa82f3746abfd80bdb").
Proof. vm_compute. reflexivity. Qed.

(** ** The sentinel for unreadable files *)

Lemma copy_wanted_spec target_files file md5 :
  copy_wanted target_files file md5 = true
  <-> (~ In file (dict_keys target_files)
       \/ (md5 <> PyNone /\ ~ In md5 (dict_values target_files))).
Proof.
  unfold copy_wanted.
  rewrite orb_true_iff, andb_true_iff, !negb_true_iff.
  rewrite <- !not_true_iff_false, key_in_In, value_in_In, is_None_eq. tauto.
Qed.

(** C3, as the code has it.  The sentinel is the integer [0]: it differs
    from every hex digest, but the sentinels of two unreadable files are
    equal to each other, whatever the files are.  A source entry that carries
    the sentinel is therefore copied only when its path is missing from the
    target snapshot or no file of the target snapshot carries the sentinel
    too. *)
Theorem unreadable_sentinel (w1 w2 : world) (p1 p2 : PurePath) :
  unreadable w1 p1 ->
  exists v1 v2,
    fst (get_md5 p1 w1) = Ok v1 /\ fst (get_md5 p2 w2) = Ok v2
    /\ ((exists data, readable_file w2 p2 data) ->
        py_eqb v1 v2 = false /\ py_eqb v2 v1 = false)
    /\ (unreadable w2 p2 -> py_eqb v1 v2 = true)
    /\ (forall target_files file,
          copy_wanted target_files file v1 = true
          <-> (~ In file (dict_keys target_files)
               \/ ~ In (PyInt 0) (dict_values target_files))).
Proof.
  intros H1. destruct (get_md5_unreadable _ _ H1) as (msg1 & E1).
  exists (PyInt 0).
  assert (Hcopy : forall target_files file,
             copy_wanted target_files file (PyInt 0) = true
             <-> (~ In file (dict_keys target_files)
                  \/ ~ In (PyInt 0) (dict_values target_files))).
  { intros. rewrite copy_wanted_spec.
    split; [tauto | intros [H|H]; [tauto | right; split; [discriminate | exact H]]]. }
  destruct (readable_or_not w2 p2) as [[data H2]|H2].
  - exists (PyStr (md5_hexdigest (md5_update hashlib_md5 data))).
    rewrite E1, (get_md5_readable _ _ _ H2).
    split; [reflexivity | split; [reflexivity | split; [| split; [| exact Hcopy]]]].
    + intros _. split; reflexivity.
    + intros Hun. exfalso. exact (Hun data H2).
  - destruct (get_md5_unreadable _ _ H2) as (msg2 & E2).
    exists (PyInt 0). rewrite E1, E2.
    split; [reflexivity | split; [reflexivity | split; [| split; [| exact Hcopy]]]].
    + intros [data H]. exfalso. exact (H2 data H).
    + intros _. reflexivity.
Qed.

Lemma locked_source_unreadable :
  unreadable locked_world (PurePath_of_str "/src/a").
Proof.
  intros data (st & bad & Hw & Hr & _).
  vm_compute in Hw. inversion Hw; subst. discriminate Hr.
Defined.

Lemma unreadable_sentinel_witness :
  exists v1 v2,
    fst (get_md5 (PurePath_of_str "/src/a") locked_world) = Ok v1
    /\ fst (get_md5 (PurePath_of_str "/tgt/a") locked_world) = Ok v2
    /\ py_eqb v1 v2 = false.
Proof.
  destruct (unreadable_sentinel locked_world locked_world
              (PurePath_of_str "/src/a") (PurePath_of_str "/tgt/a")
              locked_source_unreadable)
    as (v1 & v2 & E1 & E2 & Hreal & _).
  exists v1, v2. split; [exact E1 | split; [exact E2 |]].
  apply Hreal. exists (bytes_of_string "2"), rw_file, None.
  split; [reflexivity | split; [reflexivity | discriminate]].
Defined.

(** C3, as stated, fails: [/src/a] and [/tgt/b] are two different files
    that cannot be read (and hold different bytes); their fingerprints
    compare equal, and the pass from [/src] to [/tgt] makes no attempt to
    copy [a], whose path is in the target and whose sentinel is found among
    the target's values. *)
Lemma unreadable_files_compare_equal :
  path_eqb (PurePath_of_str "/src/a") (PurePath_of_str "/tgt/b") = false
  /\ fst (get_md5 (PurePath_of_str "/src/a") locked_world) = Ok (PyInt 0)
  /\ fst (get_md5 (PurePath_of_str "/tgt/b") locked_world) = Ok (PyInt 0)
  /\ py_eqb (PyInt 0) (PyInt 0) = true
  /\ fst (get_files_in_path (PurePath_of_str "/src") locked_world)
     = Ok [(PurePath_of_str "a", PyInt 0)]
  /\ acted_on (PurePath_of_str "/tgt/a")
       (calls_during (do_sync_dirs (PurePath_of_str "/src") (PurePath_of_str "/tgt") 600)
                     locked_world) = false.
Proof. repeat split; vm_compute; reflexivity. Qed.

(** ** What the script's functions keep *)

#[global] Instance untouched_frame : Frame untouched.
Proof.
  split; unfold untouched.
  - auto.
  - intros a b c [H1 H2] [H3 H4]. split; congruence.
Qed.

#[global] Instance same_queue_frame : Frame same_queue.
Proof. split; unfold same_queue; [auto | intros; congruence]. Qed.

#[global] Instance same_fs_frame : Frame same_fs.
Proof. split; unfold same_fs; [auto | intros; congruence]. Qed.

#[global] Instance extends_frame ok : Frame (extends ok).
Proof.
  split; unfold extends.
  - intros w. exists []. rewrite app_nil_r. auto.
  - intros a b c (n1 & E1 & F1) (n2 & E2 & F2). exists (n1 ++ n2).
    rewrite E2, E1, app_assoc. split; [reflexivity | apply Forall_app; auto].
Qed.

Section Keeping.

Context {R : world -> world -> Prop} `{Frame R}.

Lemma keeps_ret {A} (a : A) : keeps R (ret a).
Proof. intros w. apply frame_refl. Qed.

Lemma keeps_raise {A} e : keeps R (raise (A := A) e).
Proof. intros w. apply frame_refl. Qed.

Lemma keeps_lift {A} (r : result A) : keeps R (lift r).
Proof. intros w. apply frame_refl. Qed.

Lemma keeps_get_world : keeps R get_world.
Proof. intros w. apply frame_refl. Qed.

Lemma keeps_bind {A B} (m : M A) (k : A -> M B) :
  keeps R m -> (forall a, keeps R (k a)) -> keeps R (bind m k).
Proof.
  intros Hm Hk w. unfold bind. specialize (Hm w).
  destruct (m w) as [[a|e] w1]; simpl in Hm; [|exact Hm].
  eapply frame_trans; [exact Hm | apply Hk].
Qed.

Lemma keeps_try {A} (body : M A) catches handler :
  keeps R body -> (forall e, keeps R (handler e)) ->
  keeps R (try_except body catches handler).
Proof.
  intros Hm Hk w. unfold try_except. specialize (Hm w).
  destruct (body w) as [[a|e] w1]; simpl in Hm; [exact Hm|].
  destruct (catches e); [|exact Hm].
  eapply frame_trans; [exact Hm | apply Hk].
Qed.

Lemma keeps_for_each {X A} (xs : list X) (body : X -> A -> M A) acc :
  (forall x a, In x xs -> keeps R (body x a)) -> keeps R (for_each xs body acc).
Proof.
  revert acc. induction xs as [|x xs IH]; intros acc Hb; simpl.
  - apply keeps_ret.
  - apply keeps_bind; [apply Hb; left; reflexivity|].
    intros a. apply IH. intros; apply Hb; right; assumption.
Qed.

End Keeping.

(** Computations are taken apart along their structure. *)
Ltac keeps_step :=
  first
    [ apply keeps_ret | apply keeps_raise | apply keeps_lift | apply keeps_get_world
    | apply keeps_bind; [|intros ?]
    | apply keeps_try; [|intros ?]
    | apply keeps_for_each; intros ? ? ?
    | match goal with
      | |- keeps _ (if ?b then _ else _) => destruct b
      | |- keeps _ (match ?x with _ => _ end) => destruct x
      end ].

(** *** Everything but the recorded calls and [schedule.enter] leaves the
    record and the queue alone *)

Ltac prim_untouched :=
  intros ?w;
  repeat match goal with
         | |- context [match ?x with _ => _ end] => destruct x
         end;
  split; reflexivity.

Lemma untouched_log level msg : keeps untouched (log_at level msg).
Proof. unfold log_at. prim_untouched. Qed.

Lemma untouched_os_stat p : keeps untouched (os_stat p).
Proof. unfold os_stat. prim_untouched. Qed.

Lemma untouched_Path_exists p : keeps untouched (Path_exists p).
Proof. unfold Path_exists. prim_untouched. Qed.

Lemma untouched_Path_is_file p : keeps untouched (Path_is_file p).
Proof. unfold Path_is_file. prim_untouched. Qed.

Lemma untouched_Path_is_dir p : keeps untouched (Path_is_dir p).
Proof. unfold Path_is_dir. prim_untouched. Qed.

Lemma untouched_Path_is_fifo p : keeps untouched (Path_is_fifo p).
Proof. unfold Path_is_fifo. prim_untouched. Qed.

Lemma untouched_Path_glob p : keeps untouched (Path_glob p).
Proof. unfold Path_glob. prim_untouched. Qed.

Lemma untouched_Path_resolve p : keeps untouched (Path_resolve p).
Proof. unfold Path_resolve. prim_untouched. Qed.

Lemma untouched_create_entry p new : keeps untouched (create_entry p new).
Proof. unfold create_entry. prim_untouched. Qed.

Lemma untouched_open_wb p : keeps untouched (open_wb p).
Proof. unfold open_wb. prim_untouched. Qed.

Lemma untouched_write_data p data : keeps untouched (write_data p data).
Proof. unfold write_data. prim_untouched. Qed.

Lemma untouched_remove_entry p refuse : keeps untouched (remove_entry p refuse).
Proof. unfold remove_entry. prim_untouched. Qed.

Lemma untouched_time_sleep d : keeps untouched (time_sleep d).
Proof. unfold time_sleep. prim_untouched. Qed.

Lemma untouched_init_logger f : keeps untouched (init_logger f).
Proof. unfold init_logger, modify. prim_untouched. Qed.

Create HintDb untouched.
#[local] Hint Resolve untouched_log untouched_os_stat untouched_Path_exists
  untouched_Path_is_file untouched_Path_is_dir untouched_Path_is_fifo
  untouched_Path_glob untouched_Path_resolve untouched_create_entry
  untouched_open_wb untouched_write_data untouched_remove_entry
  untouched_time_sleep untouched_init_logger : untouched.

Ltac untouched_tac := repeat first [ solve [auto with untouched] | keeps_step ].

Lemma untouched_open_rb p : keeps untouched (open_rb p).
Proof. unfold open_rb. untouched_tac. Qed.
#[local] Hint Resolve untouched_open_rb : untouched.

Lemma untouched_read_md5 p : keeps untouched (read_md5 p).
Proof.
  unfold read_md5. apply keeps_bind; [auto with untouched | intros file].
  apply keeps_bind; [apply keeps_lift | intros [chunk file']]. untouched_tac.
Qed.

Lemma untouched_get_md5 p : keeps untouched (get_md5 p).
Proof.
  unfold get_md5, log_warning.
  apply keeps_try; [apply untouched_read_md5 | intros e]. untouched_tac.
Qed.
#[local] Hint Resolve untouched_get_md5 : untouched.

Lemma untouched_get_files_in_path p : keeps untouched (get_files_in_path p).
Proof. unfold get_files_in_path. untouched_tac. Qed.

Lemma untouched_os_mkdir p : keeps untouched (os_mkdir p).
Proof. unfold os_mkdir. auto with untouched. Qed.
#[local] Hint Resolve untouched_os_mkdir : untouched.

Lemma untouched_mkdir_exist_ok p : keeps untouched (mkdir_exist_ok p).
Proof. unfold mkdir_exist_ok. untouched_tac. Qed.
#[local] Hint Resolve untouched_mkdir_exist_ok : untouched.

Lemma untouched_mkdir_parents root rparts : keeps untouched (mkdir_parents root rparts).
Proof.
  induction rparts as [|c rparts IH]; simpl;
    (apply keeps_try; [auto with untouched | intros e]).
  - untouched_tac.
  - destruct (is_FileNotFoundError e); [|untouched_tac].
    apply keeps_bind; [exact IH | intros _; auto with untouched].
Qed.

Lemma untouched_copystat src dst : keeps untouched (copystat src dst).
Proof.
  unfold copystat. apply keeps_bind; [auto with untouched | intros n]. prim_untouched.
Qed.
#[local] Hint Resolve untouched_mkdir_parents untouched_copystat : untouched.

Lemma untouched_copyfile src dst : keeps untouched (copyfile src dst).
Proof. unfold copyfile. untouched_tac. Qed.
#[local] Hint Resolve untouched_copyfile : untouched.

Lemma untouched_copy2 src dst : keeps untouched (copy2 src dst).
Proof. unfold copy2. untouched_tac. Qed.
#[local] Hint Resolve untouched_copy2 untouched_get_files_in_path : untouched.

(** *** The record of calls *)

Lemma skipn_length_app_gen {X} (a b : list X) : skipn (length a) (a ++ b) = b.
Proof. induction a; simpl; auto. Qed.

Lemma calls_during_eq {A} (m : M A) w new :
  w_calls (snd (m w)) = w_calls w ++ new -> calls_during m w = new.
Proof. unfold calls_during. intros ->. apply skipn_length_app_gen. Qed.

Lemma appends_calls_during {A} ok (m : M A) w :
  appends ok m ->
  w_calls (snd (m w)) = w_calls w ++ calls_during m w /\ Forall ok (calls_during m w).
Proof.
  intros H. destruct (H w) as (new & E & F).
  rewrite (calls_during_eq _ _ _ E). auto.
Qed.

Lemma untouched_appends {A} ok (m : M A) : keeps untouched m -> appends ok m.
Proof.
  intros H w. destruct (H w) as [E _]. exists []. rewrite app_nil_r. auto.
Qed.

Lemma untouched_same_queue {A} (m : M A) : keeps untouched m -> keeps same_queue m.
Proof. intros H w. destruct (H w) as [_ E]. exact E. Qed.

Lemma appends_some_appends {A} ok (m : M A) : appends_some ok m -> appends ok m.
Proof. intros H w. destruct (H w) as (c & new & E & F). exists (c :: new). auto. Qed.

Lemma appends_record ok c : ok c -> appends ok (record_call c).
Proof. intros H w. exists [c]. split; [reflexivity | repeat constructor; exact H]. Qed.

Lemma same_queue_record c : keeps same_queue (record_call c).
Proof. intros w. reflexivity. Qed.

Lemma appends_bind {A B} ok (m : M A) (k : A -> M B) :
  appends ok m -> (forall a, appends ok (k a)) -> appends ok (bind m k).
Proof. apply keeps_bind. Qed.

Lemma appends_try {A} ok (body : M A) catches handler :
  appends ok body -> (forall e, appends ok (handler e)) ->
  appends ok (try_except body catches handler).
Proof. apply keeps_try. Qed.

Lemma appends_for_each {X A} ok (xs : list X) (body : X -> A -> M A) acc :
  (forall x a, In x xs -> appends ok (body x a)) -> appends ok (for_each xs body acc).
Proof. apply keeps_for_each. Qed.

Ltac appends_tac :=
  unfold appends;
  repeat first
    [ solve [apply untouched_appends; auto with untouched]
    | keeps_step ].

Lemma appends_some_record {A} (ok : call -> Prop) c (k : M A) :
  ok c -> appends ok k -> appends_some ok (record_call c ;; k).
Proof.
  intros Hc Hk w. unfold bind, record_call, modify.
  destruct (Hk (add_call c w)) as (new & E & F).
  exists c, new. rewrite E. simpl. rewrite <- app_assoc. auto.
Qed.

Lemma appends_some_bind {A B} ok (m : M A) (k : A -> M B) :
  appends_some ok m -> (forall a, appends ok (k a)) -> appends_some ok (bind m k).
Proof.
  intros Hm Hk w. unfold bind. destruct (Hm w) as (c & n1 & E1 & F1).
  destruct (m w) as [[a|e] w1]; simpl in E1.
  - destruct (Hk a w1) as (n2 & E2 & F2). exists c, (n1 ++ n2).
    rewrite E2, E1, <- app_assoc. split; [reflexivity|].
    rewrite app_comm_cons. apply Forall_app; auto.
  - exists c, n1. auto.
Qed.

Lemma appends_some_try {A} ok (body : M A) catches handler :
  appends_some ok body -> (forall e, appends ok (handler e)) ->
  appends_some ok (try_except body catches handler).
Proof.
  intros Hm Hk w. unfold try_except. destruct (Hm w) as (c & n1 & E1 & F1).
  destruct (body w) as [[a|e] w1]; simpl in E1.
  - exists c, n1. auto.
  - destruct (catches e); [|exists c, n1; auto].
    destruct (Hk e w1) as (n2 & E2 & F2). exists c, (n1 ++ n2).
    rewrite E2, E1, <- app_assoc. split; [reflexivity|].
    rewrite app_comm_cons. apply Forall_app; auto.
Qed.

Lemma Path_is_dir_pure p : pure_test (Path_is_dir p).
Proof. intros w. eexists. reflexivity. Qed.

Lemma Path_is_fifo_pure p : pure_test (Path_is_fifo p).
Proof. intros w. eexists. reflexivity. Qed.

Lemma appends_some_after_test {B} ok (m : M bool) (k : bool -> M B) :
  pure_test m -> (forall b, appends_some ok (k b)) -> appends_some ok (bind m k).
Proof.
  intros Hm Hk w. unfold bind. destruct (Hm w) as (b & ->). apply Hk.
Qed.

(** *** The copy phase *)

Lemma copy_object_calls source_path target_path file total :
  appends_some (works_on (get_absolute_path target_path file))
               (copy_object source_path target_path file total).
Proof.
  unfold copy_object, log_info, log_error.
  apply appends_some_after_test; [apply Path_is_dir_pure | intros [|]].
  - apply appends_some_try; [|intros e; appends_tac].
    unfold Path_mkdir, shutil_copystat.
    apply appends_some_bind; [apply appends_some_record; [reflexivity | appends_tac]|].
    intros _. apply appends_bind; [|intros _; appends_tac].
    apply appends_bind; [apply appends_record; reflexivity | intros _; appends_tac].
  - apply appends_some_after_test; [apply Path_is_fifo_pure | intros [|]].
    + apply appends_some_try; [|intros e; appends_tac].
      unfold mkfifo, shutil_copystat.
      apply appends_some_bind; [apply appends_some_record; [reflexivity | appends_tac]|].
      intros _. apply appends_bind; [|intros _; appends_tac].
      apply appends_bind; [apply appends_record; reflexivity | intros _; appends_tac].
    + apply appends_some_try; [|intros e; appends_tac].
      unfold copy_verify_file, shutil_copy2, log_warning.
      apply appends_some_bind; [|intros _; appends_tac].
      apply appends_some_bind; [|intros _; appends_tac].
      apply appends_some_record; [reflexivity | appends_tac].
Qed.

Lemma acted_on_true target_file cs :
  acted_on target_file cs = true <-> exists c, In c cs /\ works_on target_file c.
Proof.
  unfold acted_on, works_on, call_on. rewrite existsb_exists. split.
  - intros (c & Hin & H). exists c. split; [exact Hin|].
    destruct (call_target c) as [p|]; [|discriminate].
    apply path_eqb_eq in H. subst. reflexivity.
  - intros (c & Hin & H). exists c. split; [exact Hin|]. rewrite H.
    apply path_eqb_eq. reflexivity.
Qed.

(** One turn of the loop: calls are made, all of them on the entry's target
    path, exactly when the entry is wanted. *)
Lemma copy_step_calls target_files source_path target_path file md5 total w :
  let calls := calls_during
                 (copy_step target_files source_path target_path (file, md5) total) w in
  w_calls (snd (copy_step target_files source_path target_path (file, md5) total w))
  = w_calls w ++ calls
  /\ Forall (works_on (get_absolute_path target_path file)) calls
  /\ (calls <> [] <-> copy_wanted target_files file md5 = true).
Proof.
  intros calls. subst calls. unfold copy_step.
  destruct (copy_wanted target_files file md5).
  - destruct (copy_object_calls source_path target_path file total w) as (c & new & E & F).
    rewrite (calls_during_eq _ _ _ E). repeat split; auto. discriminate.
  - assert (E : w_calls (snd (ret (A := nat) total w)) = w_calls w ++ [])
      by (rewrite app_nil_r; reflexivity).
    rewrite (calls_during_eq _ _ _ E). repeat split; auto; congruence.
Qed.

Lemma acted_on_app target_file cs1 cs2 :
  acted_on target_file (cs1 ++ cs2)
  = acted_on target_file cs1 || acted_on target_file cs2.
Proof. apply existsb_app. Qed.

Lemma for_each_cons {X A} (x : X) xs (body : X -> A -> M A) acc w :
  for_each (x :: xs) body acc w
  = match body x acc w with
    | (Ok acc', w') => for_each xs body acc' w'
    | (Raise e, w') => (Raise e, w')
    end.
Proof. reflexivity. Qed.

(** Every call of the loop is made for a wanted entry, on its target path. *)
Lemma copy_loop_sound target_files source_path target_path source_files total :
  appends (fun c => exists file md5,
               In (file, md5) source_files
               /\ copy_wanted target_files file md5 = true
               /\ works_on (get_absolute_path target_path file) c)
          (for_each source_files (copy_step target_files source_path target_path) total).
Proof.
  apply appends_for_each. intros [file md5] a Hin w.
  destruct (copy_step_calls target_files source_path target_path file md5 a w)
    as (E & F & Hne).
  eexists. split; [exact E|].
  rewrite Forall_forall in *. intros c Hc. exists file, md5.
  split; [exact Hin | split; [|apply F; exact Hc]].
  apply Hne. intros Hnil. rewrite Hnil in Hc. exact Hc.
Qed.

(** When the loop runs to its end, every wanted entry has had its calls. *)
Lemma copy_loop_complete target_files source_path target_path source_files :
  forall total w r,
    fst (for_each source_files (copy_step target_files source_path target_path) total w)
    = Ok r ->
    forall file md5,
      In (file, md5) source_files ->
      copy_wanted target_files file md5 = true ->
      acted_on (get_absolute_path target_path file)
        (calls_during
           (for_each source_files (copy_step target_files source_path target_path) total)
           w) = true.
Proof.
  induction source_files as [|[f m] xs IH]; intros total w r Hok file md5 Hin Hw.
  - destruct Hin.
  - destruct (copy_step_calls target_files source_path target_path f m total w)
      as (E1 & F1 & Hne1).
    rewrite for_each_cons in Hok.
    destruct (copy_step target_files source_path target_path (f, m) total w)
      as [[a|e] w1] eqn:Hstep; [|discriminate Hok].
    simpl in E1.
    destruct (appends_calls_during _ _ w1
                (copy_loop_sound target_files source_path target_path xs a)) as (E2 & _).
    assert (E : w_calls (snd (for_each ((f, m) :: xs)
                                (copy_step target_files source_path target_path) total w))
                = w_calls w
                  ++ (calls_during (copy_step target_files source_path target_path
                                              (f, m) total) w
                      ++ calls_during (for_each xs (copy_step target_files source_path
                                                               target_path) a) w1)).
    { rewrite for_each_cons, Hstep, E2, E1, app_assoc. reflexivity. }
    rewrite (calls_during_eq _ _ _ E), acted_on_app. apply orb_true_iff.
    destruct Hin as [Heq|Hin].
    + left. inversion Heq; subst f m.
      apply Hne1 in Hw.
      destruct (calls_during _ w) as [|c cs] eqn:Hc; [congruence|].
      apply acted_on_true. exists c. split; [left; reflexivity|].
      inversion F1; assumption.
    + right. exact (IH a w1 r Hok file md5 Hin Hw).
Qed.

Lemma copy_objects_calls source_files target_files source_path target_path w :
  calls_during (copy_objects source_files target_files source_path target_path) w
  = calls_during (for_each source_files
                    (copy_step target_files source_path target_path) 0) w.
Proof.
  unfold calls_during, copy_objects, bind, log_info, log_at.
  destruct (for_each _ _ _ w) as [[total|e] w1]; [|reflexivity].
  simpl. destruct (Z.leb _ _); reflexivity.
Qed.

Lemma copy_objects_ok source_files target_files source_path target_path w :
  fst (copy_objects source_files target_files source_path target_path w) = Ok tt ->
  exists total,
    fst (for_each source_files (copy_step target_files source_path target_path) 0 w)
    = Ok total.
Proof.
  unfold copy_objects, bind.
  destruct (for_each _ _ _ w) as [[total|e] w1]; [|discriminate].
  intros _. exists total. reflexivity.
Qed.

Lemma keys_functional (d : dict) k v1 v2 :
  NoDup (dict_keys d) -> In (k, v1) d -> In (k, v2) d -> v1 = v2.
Proof.
  unfold dict_keys. induction d as [|[k' v'] d IH]; simpl; intros Hnd H1 H2; [tauto|].
  inversion Hnd as [|? ? Hnotin Hnd']; subst.
  destruct H1 as [H1|H1], H2 as [H2|H2].
  - congruence.
  - inversion H1; subst. exfalso. apply Hnotin.
    apply in_map_iff. exists (k, v2). auto.
  - inversion H2; subst. exfalso. apply Hnotin.
    apply in_map_iff. exists (k, v1). auto.
  - auto.
Qed.

(** In a snapshot (keys distinct and relative), the calls on the target path
    of an entry are made for that entry. *)
Lemma copy_objects_acted_wanted source_files target_files source_path target_path
      file md5 w :
  NoDup (dict_keys source_files) ->
  Forall relative (dict_keys source_files) ->
  In (file, md5) source_files ->
  acted_on (get_absolute_path target_path file)
    (calls_during (copy_objects source_files target_files source_path target_path) w)
  = true ->
  copy_wanted target_files file md5 = true.
Proof.
  intros Hnd Hrel Hin Hact.
  rewrite copy_objects_calls in Hact. apply acted_on_true in Hact.
  destruct Hact as (c & Hc & Hon).
  destruct (appends_calls_during _ _ w
              (copy_loop_sound target_files source_path target_path source_files 0))
    as (_ & F).
  rewrite Forall_forall in F. destruct (F c Hc) as (f' & m' & Hin' & Hw' & Hon').
  unfold works_on in Hon, Hon'. rewrite Hon in Hon'. inversion Hon' as [Hpath].
  rewrite Forall_forall in Hrel.
  assert (Hf : file = f').
  { apply (joinpath_inj target_path); [| |exact Hpath];
      apply Hrel; apply in_map_iff; [exists (file, md5) | exists (f', m')]; auto. }
  subst f'. rewrite (keys_functional _ _ _ _ Hnd Hin Hin'). exact Hw'.
Qed.

(** C1. The copy/update decision rule.  In the turn of the loop that handles
    an entry of the source snapshot, calls on the entry's target path are
    made if and only if the path is not a key of the target snapshot, or the
    entry is a file (its fingerprint is not [None]) whose fingerprint is not
    among the values of the target snapshot; otherwise the turn changes
    nothing at all.  Over the whole phase, on a snapshot, a path that was
    acted on satisfies the rule, and when the phase runs to its end every
    entry that satisfies the rule was acted on. *)
Theorem copy_decision_rule
        (source_files target_files : dict) (source_path target_path : PurePath)
        (file : PurePath) (md5 : pyval) (w : world) :
  let wanted := ~ In file (dict_keys target_files)
                \/ (md5 <> PyNone /\ ~ In md5 (dict_values target_files)) in
  let target_file := get_absolute_path target_path file in
  (forall total,
      let turn := copy_step target_files source_path target_path (file, md5) total in
      (acted_on target_file (calls_during turn w) = true <-> wanted)
      /\ (~ wanted -> turn w = (Ok total, w)))
  /\ (NoDup (dict_keys source_files) ->
      Forall relative (dict_keys source_files) ->
      In (file, md5) source_files ->
      let phase := copy_objects source_files target_files source_path target_path in
      (acted_on target_file (calls_during phase w) = true -> wanted)
      /\ (fst (phase w) = Ok tt -> wanted ->
          acted_on target_file (calls_during phase w) = true)).
Proof.
  intros wanted target_file.
  assert (Hspec : copy_wanted target_files file md5 = true <-> wanted)
    by apply copy_wanted_spec.
  split.
  - intros total turn. subst turn. split.
    + destruct (copy_step_calls target_files source_path target_path file md5 total w)
        as (_ & F & Hne).
      rewrite <- Hspec, <- Hne. rewrite acted_on_true. split.
      * intros (c & Hc & _) Hnil. rewrite Hnil in Hc. exact Hc.
      * intros Hnn. destruct (calls_during _ w) as [|c cs]; [congruence|].
        exists c. split; [left; reflexivity | inversion F; assumption].
    + intros Hnot. unfold copy_step.
      destruct (copy_wanted target_files file md5); [|reflexivity].
      exfalso. apply Hnot, Hspec. reflexivity.
  - intros Hnd Hrel Hin phase. subst phase. split.
    + intros Hact. apply Hspec.
      exact (copy_objects_acted_wanted _ _ _ _ _ _ _ Hnd Hrel Hin Hact).
    + intros Hok Hw. rewrite copy_objects_calls.
      destruct (copy_objects_ok _ _ _ _ _ Hok) as (total & Htot).
      apply (copy_loop_complete _ _ _ _ _ _ _ Htot _ _ Hin). apply Hspec. exact Hw.
Qed.

(** The snapshots of the scenario are what a scan of its trees returns. *)
Example scenario_snapshots :
  fst (get_files_in_path (PurePath_of_str "/src") scenario_world) = Ok scenario_source
  /\ fst (get_files_in_path (PurePath_of_str "/tgt") scenario_world) = Ok scenario_target.
Proof. split; vm_compute; reflexivity. Qed.

Lemma scenario_source_keys :
  NoDup (dict_keys scenario_source) /\ Forall relative (dict_keys scenario_source).
Proof.
  split.
  - repeat constructor; simpl; intuition discriminate.
  - repeat constructor.
Defined.

Lemma copy_decision_rule_witness :
  acted_on (PurePath_of_str "/tgt/a.txt")
    (calls_during (copy_objects scenario_source scenario_target
                                (PurePath_of_str "/src") (PurePath_of_str "/tgt"))
                  scenario_world) = true.
Proof.
  refine (proj2 (proj2 (copy_decision_rule scenario_source scenario_target
                          (PurePath_of_str "/src") (PurePath_of_str "/tgt")
                          (PurePath_of_str "a.txt") (md5_of "1") scenario_world)
                   (proj1 scenario_source_keys) (proj2 scenario_source_keys) _) _ _).
  - left. reflexivity.
  - vm_compute. reflexivity.
  - right. split; [discriminate|].
    vm_compute. intros [H|[H|[]]]; discriminate H.
Defined.

(** C1, as stated, fails: in the tree with source [{x/y, w/v}] and the
    regular files [x] and [w] in the target, the snapshots are what the scans
    return, the entry [w/v] is a file whose path is absent from the target
    snapshot, and the copy phase never acts on it: the copy of [x/y], the
    entry before it, raises [NotADirectoryError], which the phase does not
    catch, and the phase ends there. *)
Lemma copy_phase_cut_short :
  fst (get_files_in_path (PurePath_of_str "/src") blocked_world) = Ok blocked_source
  /\ fst (get_files_in_path (PurePath_of_str "/tgt") blocked_world) = Ok blocked_target
  /\ In (PurePath_of_str "w/v", md5_of "2") blocked_source
  /\ key_in (PurePath_of_str "w/v") blocked_target = false
  /\ fst (copy_objects blocked_source blocked_target
                       (PurePath_of_str "/src") (PurePath_of_str "/tgt") blocked_world)
     = Raise (OSError ENOTDIR (PurePath_of_str "/tgt/x/y"))
  /\ acted_on (PurePath_of_str "/tgt/w/v")
       (calls_during (copy_objects blocked_source blocked_target
                                   (PurePath_of_str "/src") (PurePath_of_str "/tgt"))
                     blocked_world) = false.
Proof.
  split; [vm_compute; reflexivity|].
  split; [vm_compute; reflexivity|].
  split; [right; right; right; left; reflexivity|].
  split; [vm_compute; reflexivity|].
  split; vm_compute; reflexivity.
Qed.

(** C5. Content-based skip.  For an entry of the source snapshot whose path
    is a key of the target snapshot (with whatever fingerprint [md5'], the
    same or another) and whose fingerprint is among the values of the target
    snapshot, the copy phase makes no call on the entry's target path, and
    the entry's turn of the loop changes nothing. *)
Theorem content_based_skip
        (source_files target_files : dict) (source_path target_path : PurePath)
        (file : PurePath) (md5 md5' : pyval) (w : world) :
  NoDup (dict_keys source_files) ->
  Forall relative (dict_keys source_files) ->
  In (file, md5) source_files ->
  In (file, md5') target_files ->
  In md5 (dict_values target_files) ->
  acted_on (get_absolute_path target_path file)
    (calls_during (copy_objects source_files target_files source_path target_path) w)
  = false
  /\ forall total,
      copy_step target_files source_path target_path (file, md5) total w = (Ok total, w).
Proof.
  intros Hnd Hrel Hin Hkey Hval.
  assert (Hnot : copy_wanted target_files file md5 = false).
  { apply not_true_iff_false. rewrite copy_wanted_spec.
    intros [H|[_ H]]; [|exact (H Hval)].
    apply H. unfold dict_keys. apply in_map_iff. exists (file, md5'). auto. }
  split.
  - apply not_true_iff_false. intros Hact.
    rewrite (copy_objects_acted_wanted _ _ _ _ _ _ _ Hnd Hrel Hin Hact) in Hnot.
    discriminate Hnot.
  - intros total. unfold copy_step. rewrite Hnot. reflexivity.
Qed.

Example stale_snapshots :
  fst (get_files_in_path (PurePath_of_str "/src") stale_world) = Ok stale_source
  /\ fst (get_files_in_path (PurePath_of_str "/tgt") stale_world) = Ok stale_target.
Proof. split; vm_compute; reflexivity. Qed.

(** The target's [a.txt] differs from the source's, and is left alone because
    [b.txt] holds the source's content. *)
Lemma content_based_skip_witness :
  py_eqb (md5_of "1") (md5_of "0") = false
  /\ acted_on (PurePath_of_str "/tgt/a.txt")
       (calls_during (copy_objects stale_source stale_target
                                   (PurePath_of_str "/src") (PurePath_of_str "/tgt"))
                     stale_world) = false.
Proof.
  split; [vm_compute; reflexivity|].
  refine (proj1 (content_based_skip stale_source stale_target
                   (PurePath_of_str "/src") (PurePath_of_str "/tgt")
                   (PurePath_of_str "a.txt") (md5_of "1") (md5_of "0") stale_world
                   _ _ _ _ _)).
  - repeat constructor. simpl. tauto.
  - repeat constructor.
  - left. reflexivity.
  - left. reflexivity.
  - right. left. reflexivity.
Defined.

(** *** The remove phase *)

Lemma records_after_call {A} c (k : M A) :
  keeps untouched k -> records [c] (record_call c ;; k).
Proof.
  intros Hk w. unfold bind, record_call, modify.
  destruct (Hk (add_call c w)) as [E _]. rewrite E. reflexivity.
Qed.

Lemma records_bind {A B} cs (m : M A) (k : A -> M B) :
  records cs m -> (forall a, keeps untouched (k a)) -> records cs (bind m k).
Proof.
  intros Hm Hk w. unfold bind. specialize (Hm w).
  destruct (m w) as [[a|e] w1]; simpl in Hm; [|exact Hm].
  destruct (Hk a w1) as [E _]. rewrite E. exact Hm.
Qed.

Lemma records_try {A} cs (body : M A) catches handler :
  records cs body -> (forall e, keeps untouched (handler e)) ->
  records cs (try_except body catches handler).
Proof.
  intros Hm Hk w. unfold try_except. specialize (Hm w).
  destruct (body w) as [[a|e] w1]; simpl in Hm; [exact Hm|].
  destruct (catches e); [|exact Hm].
  destruct (Hk e w1) as [E _]. rewrite E. exact Hm.
Qed.

Lemma remove_file_records target_file total :
  records [CallUnlink target_file] (remove_file target_file total).
Proof.
  unfold remove_file, Path_unlink, log_info, log_error.
  apply records_try; [|intros e; untouched_tac].
  apply records_bind; [|intros _; untouched_tac].
  apply records_after_call. auto with untouched.
Qed.

Lemma remove_dir_records path total :
  records [CallRmdir path] (remove_dir path total).
Proof.
  unfold remove_dir, Path_rmdir, log_info, log_error.
  apply records_try; [|intros e; untouched_tac].
  apply records_bind; [|intros _; untouched_tac].
  apply records_after_call. auto with untouched.
Qed.

Lemma records_extends {A} cs (m : M A) ok : records cs m -> Forall ok cs -> appends ok m.
Proof. intros H F w. exists cs. auto. Qed.

Section RemovePhase.

Variables (source_files target_files : dict) (target_path : PurePath).

#[local] Abbreviation unlink_of_orphan := (unlink_of_orphan source_files target_files target_path).
#[local] Abbreviation rmdir_of_orphan := (rmdir_of_orphan source_files target_files target_path).
#[local] Abbreviation orphan_target := (orphan_target source_files target_files target_path).

(** A turn of the first sweep unlinks an orphan or puts an orphan aside. *)
Lemma remove_sweep_sound file dirs total w :
  In file (dict_keys target_files) ->
  Forall orphan_target dirs ->
  let out := remove_sweep source_files target_path file (dirs, total) w in
  extends unlink_of_orphan w (snd out)
  /\ forall dirs' total', fst out = Ok (dirs', total') -> Forall orphan_target dirs'.
Proof.
  intros Hin Hdirs out. subst out. unfold remove_sweep.
  destruct (key_in file source_files) eqn:Hkey; cbn [negb].
  { split; [apply frame_refl|]. intros ? ? E; inversion E; subst; exact Hdirs. }
  assert (Horph : orphan source_files target_files file).
  { split; [exact Hin|]. rewrite <- key_in_In. congruence. }
  unfold bind at 1 3.
  destruct (Path_is_dir_pure (get_absolute_path target_path file) w) as (d & ->).
  destruct d.
  - split; [apply frame_refl|]. intros ? ? E; inversion E; subst.
    apply Forall_app. split; [exact Hdirs|].
    constructor; [|constructor]. exists file. auto.
  - unfold bind.
    pose proof (remove_file_records (get_absolute_path target_path file) total w) as E.
    assert (Hext : extends unlink_of_orphan w
                     (snd (remove_file (get_absolute_path target_path file) total w))).
    { exists [CallUnlink (get_absolute_path target_path file)].
      split; [exact E|]. constructor; [|constructor]. exists file. auto. }
    destruct (remove_file _ total w) as [[total1|e] w1]; simpl in *.
    + split; [exact Hext|]. intros ? ? H; inversion H; subst; exact Hdirs.
    + split; [exact Hext|]. intros ? ? H; discriminate H.
Qed.

(** The first sweep unlinks orphans only and puts orphans only aside. *)
Lemma first_sweep_sound keys :
  incl keys (dict_keys target_files) ->
  forall dirs total w,
    Forall orphan_target dirs ->
    let out := for_each keys (remove_sweep source_files target_path) (dirs, total) w in
    extends unlink_of_orphan w (snd out)
    /\ forall dirs' total', fst out = Ok (dirs', total') -> Forall orphan_target dirs'.
Proof.
  induction keys as [|file keys IH]; intros Hincl dirs total w Hdirs out; subst out.
  - simpl. split; [apply frame_refl|]. intros ? ? E; inversion E; subst; exact Hdirs.
  - rewrite for_each_cons.
    assert (Hin : In file (dict_keys target_files)) by (apply Hincl; left; reflexivity).
    assert (Hincl' : incl keys (dict_keys target_files))
      by (intros k Hk; apply Hincl; right; exact Hk).
    destruct (remove_sweep_sound file dirs total w Hin Hdirs) as [Hext Hout].
    destruct (remove_sweep source_files target_path file (dirs, total) w)
      as [[[dirs1 total1]|e] w1]; simpl in Hext, Hout.
    + destruct (IH Hincl' dirs1 total1 w1 (Hout _ _ eq_refl)) as [Hext' Hout'].
      split; [|exact Hout']. eapply frame_trans; [exact Hext | exact Hext'].
    + split; [exact Hext|]. intros ? ? H; discriminate H.
Qed.

(** The second sweep calls [rmdir] on what was put aside. *)
Lemma second_sweep_sound dirs total :
  Forall orphan_target dirs ->
  appends rmdir_of_orphan (for_each dirs remove_dir total).
Proof.
  intros Hdirs. apply appends_for_each. intros p a Hp.
  apply (records_extends _ _ _ (remove_dir_records p a)).
  constructor; [|constructor].
  rewrite Forall_forall in Hdirs. destruct (Hdirs p Hp) as (file & Ho & ->).
  exists file. auto.
Qed.

(** The rule and the order of the remove phase: the phase calls [unlink]
    and [rmdir] on orphans only, and every [unlink] comes before every
    [rmdir]. *)
Lemma remove_objects_sweeps w :
  exists unlinks rmdirs,
    calls_during (remove_objects source_files target_files target_path) w
    = unlinks ++ rmdirs
    /\ Forall unlink_of_orphan unlinks
    /\ Forall rmdir_of_orphan rmdirs.
Proof.
  unfold remove_objects.
  destruct (first_sweep_sound (dict_keys target_files) (incl_refl _) [] 0 w
              (Forall_nil _)) as [(unlinks & E1 & F1) Hdirs].
  unfold bind at 1.
  destruct (for_each (dict_keys target_files) _ _ w) as [[[dirs total]|e] w1] eqn:Hrun;
    simpl in E1.
  - specialize (Hdirs dirs total eq_refl).
    assert (Happ : appends rmdir_of_orphan
                     (total' <- for_each dirs remove_dir total ;;
                      log_info ("Total removed objects: " ++ str_of_nat total'))).
    { apply appends_bind; [apply second_sweep_sound; exact Hdirs|].
      intros a. unfold log_info. appends_tac. }
    destruct (Happ w1) as (rmdirs & E2 & F2).
    exists unlinks, rmdirs. split; [|auto].
    apply calls_during_eq. unfold bind in E2 |- *. rewrite Hrun.
    cbv beta iota. rewrite E2, E1, app_assoc. reflexivity.
  - exists unlinks, []. split; [|auto].
    apply calls_during_eq. unfold bind at 1. rewrite Hrun.
    simpl. rewrite app_nil_r. exact E1.
Qed.

(** When the phase runs to its end, every orphan has had its call. *)

Lemma calls_during_bind {A B} ok (m : M A) (k : A -> M B) w a w1 :
  appends ok m -> (forall a, appends ok (k a)) ->
  m w = (Ok a, w1) ->
  calls_during (bind m k) w = calls_during m w ++ calls_during (k a) w1.
Proof.
  intros Hm Hk Hrun.
  destruct (appends_calls_during ok m w Hm) as [E1 _].
  destruct (appends_calls_during ok (k a) w1 (Hk a)) as [E2 _].
  apply calls_during_eq. unfold bind. rewrite Hrun in *. simpl in E1.
  rewrite E2, E1, app_assoc. reflexivity.
Qed.

Lemma remove_file_appends target_file total : appends (fun _ => True) (remove_file target_file total).
Proof.
  apply (records_extends _ _ _ (remove_file_records target_file total)). auto.
Qed.

Lemma remove_dir_appends path total : appends (fun _ => True) (remove_dir path total).
Proof.
  apply (records_extends _ _ _ (remove_dir_records path total)). auto.
Qed.

Lemma remove_sweep_appends file st :
  appends (fun _ => True) (remove_sweep source_files target_path file st).
Proof.
  unfold remove_sweep. destruct st as [dirs total].
  destruct (negb _); [|appends_tac].
  apply appends_bind; [appends_tac | intros [|]]; [appends_tac|].
  apply appends_bind; [apply remove_file_appends | intros a; appends_tac].
Qed.

Lemma first_sweep_complete keys :
  forall dirs total w dirs' total',
    fst (for_each keys (remove_sweep source_files target_path) (dirs, total) w)
    = Ok (dirs', total') ->
    incl dirs dirs'
    /\ forall file,
        In file keys -> key_in file source_files = false ->
        In (CallUnlink (get_absolute_path target_path file))
           (calls_during (for_each keys (remove_sweep source_files target_path)
                                   (dirs, total)) w)
        \/ In (get_absolute_path target_path file) dirs'.
Proof.
  induction keys as [|k keys IH]; intros dirs total w dirs' total' Hok.
  - simpl in Hok. inversion Hok; subst. split; [apply incl_refl | intros ? []].
  - rewrite for_each_cons in Hok.
    destruct (remove_sweep source_files target_path k (dirs, total) w)
      as [[[dirs1 total1]|e] w1] eqn:Hstep; [|discriminate Hok].
    destruct (IH dirs1 total1 w1 dirs' total' Hok) as [Hincl Hrest].
    assert (Hcalls :
              calls_during (for_each (k :: keys) (remove_sweep source_files target_path)
                                     (dirs, total)) w
              = calls_during (remove_sweep source_files target_path k (dirs, total)) w
                ++ calls_during (for_each keys (remove_sweep source_files target_path)
                                          (dirs1, total1)) w1).
    { apply (calls_during_bind (fun _ => True)
               (remove_sweep source_files target_path k (dirs, total))
               (fun st => for_each keys (remove_sweep source_files target_path) st)).
      - apply remove_sweep_appends.
      - intros st. apply appends_for_each. intros; apply remove_sweep_appends.
      - exact Hstep. }
    rewrite Hcalls.
    (* what the turn for [k] did *)
    assert (Hk : incl dirs dirs1
                 /\ (key_in k source_files = false ->
                     In (CallUnlink (get_absolute_path target_path k))
                        (calls_during (remove_sweep source_files target_path k
                                                    (dirs, total)) w)
                     \/ In (get_absolute_path target_path k) dirs1)).
    { unfold calls_during. rewrite Hstep. cbn [snd]. revert Hstep. unfold remove_sweep.
      destruct (key_in k source_files); cbn [negb].
      - intros H; inversion H; subst. split; [apply incl_refl | discriminate].
      - unfold bind at 1.
        destruct (Path_is_dir_pure (get_absolute_path target_path k) w) as (d & ->).
        destruct d.
        + intros H; inversion H; subst. split.
          * intros x Hx. apply in_or_app. left. exact Hx.
          * intros _. right. apply in_or_app. right. left. reflexivity.
        + unfold bind.
          pose proof (remove_file_records (get_absolute_path target_path k) total w) as E.
          destruct (remove_file _ total w) as [[t|e] w2]; [|discriminate].
          intros H; inversion H; subst. split; [apply incl_refl|].
          intros _. left. simpl in E. rewrite E, skipn_length_app_gen.
          left. reflexivity. }
    destruct Hk as [Hincl1 Hk]. split.
    + intros x Hx. apply Hincl, Hincl1, Hx.
    + intros file [<-|Hin] Hkey.
      * destruct (Hk Hkey) as [H|H].
        -- left. apply in_or_app. left. exact H.
        -- right. apply Hincl. exact H.
      * destruct (Hrest file Hin Hkey) as [H|H].
        -- left. apply in_or_app. right. exact H.
        -- right. exact H.
Qed.

Lemma second_sweep_complete dirs :
  forall total w total',
    fst (for_each dirs remove_dir total w) = Ok total' ->
    forall p, In p dirs -> In (CallRmdir p) (calls_during (for_each dirs remove_dir total) w).
Proof.
  induction dirs as [|d dirs IH]; intros total w total' Hok p Hp; [destruct Hp|].
  rewrite for_each_cons in Hok.
  destruct (remove_dir d total w) as [[t|e] w1] eqn:Hstep; [|discriminate Hok].
  cbn [for_each].
  rewrite (calls_during_bind (fun _ => True) (remove_dir d total)
             (fun t => for_each dirs remove_dir t) w t w1);
    [| apply remove_dir_appends
     | intros a; apply appends_for_each; intros; apply remove_dir_appends
     | exact Hstep].
  apply in_or_app. destruct Hp as [<-|Hp].
  - left. rewrite (calls_during_eq _ _ _ (remove_dir_records d total w)).
    left. reflexivity.
  - right. exact (IH t w1 total' Hok p Hp).
Qed.

Lemma remove_objects_complete w file :
  fst (remove_objects source_files target_files target_path w) = Ok tt ->
  orphan source_files target_files file ->
  acted_on (get_absolute_path target_path file)
    (calls_during (remove_objects source_files target_files target_path) w) = true.
Proof.
  intros Hok [Hin Hnot].
  assert (Hkey : key_in file source_files = false).
  { apply not_true_iff_false. rewrite key_in_In. exact Hnot. }
  unfold remove_objects in *.
  destruct (for_each (dict_keys target_files) (remove_sweep source_files target_path)
                     ([], 0) w) as [[[dirs total]|e] w1] eqn:Hrun.
  2:{ unfold bind in Hok. rewrite Hrun in Hok. discriminate Hok. }
  set (rest := fun st : list PurePath * nat =>
                 let '(dirs_to_remove, total) := st in
                 total <- for_each dirs_to_remove remove_dir total ;;
                 log_info ("Total removed objects: " ++ str_of_nat total)).
  assert (Hrest : forall st, appends (fun _ => True) (rest st)).
  { intros [ds t]. unfold rest, log_info.
    apply appends_bind; [|intros a; appends_tac].
    apply appends_for_each. intros; apply remove_dir_appends. }
  rewrite (calls_during_bind (fun _ => True) _ rest w (dirs, total) w1);
    [| apply appends_for_each; intros; apply remove_sweep_appends
     | exact Hrest
     | exact Hrun].
  rewrite acted_on_app. apply orb_true_iff.
  assert (Hfst : fst (for_each (dict_keys target_files)
                               (remove_sweep source_files target_path) ([], 0) w)
                 = Ok (dirs, total)) by (rewrite Hrun; reflexivity).
  destruct (first_sweep_complete _ _ _ _ _ _ Hfst) as [_ Hall].
  destruct (Hall file Hin Hkey) as [H|H].
  - left. apply acted_on_true. eexists. split; [exact H | reflexivity].
  - right. apply acted_on_true. exists (CallRmdir (get_absolute_path target_path file)).
    split; [|reflexivity].
    unfold bind in Hok. rewrite Hrun in Hok. cbv beta iota in Hok. unfold bind in Hok.
    destruct (for_each dirs remove_dir total w1) as [[t|e] w2] eqn:Hrm; [|discriminate Hok].
    unfold rest.
    rewrite (calls_during_bind (fun _ => True) (for_each dirs remove_dir total)
               (fun t => log_info ("Total removed objects: " ++ str_of_nat t)) w1 t w2);
      [| apply appends_for_each; intros; apply remove_dir_appends
       | intros a; unfold log_info; appends_tac
       | exact Hrm].
    apply in_or_app. left.
    apply (second_sweep_complete dirs total w1 t); [rewrite Hrm; reflexivity | exact H].
Qed.

End RemovePhase.

(** ** The delete rule on nested directories *)

(** C2, at a target that holds a directory inside a directory, neither of
    them in the source.  The scan lists [a] before [a/b]; both are put aside
    in that order, and the second sweep calls [rmdir] on [a] while [a/b] is
    still in it: the call fails with "directory not empty", an [OSError]
    that [remove_objects] does not catch.  It ends the pass and, through
    [main], the program; nothing has been removed. *)
Theorem nested_orphan_directories :
  fst (get_files_in_path (PurePath_of_str "/src") nested_world) = Ok []
  /\ fst (get_files_in_path (PurePath_of_str "/tgt") nested_world) = Ok nested_target
  /\ fst (remove_objects [] nested_target (PurePath_of_str "/tgt") nested_world)
     = Raise (OSError ENOTEMPTY (PurePath_of_str "/tgt/a"))
  /\ calls_during (remove_objects [] nested_target (PurePath_of_str "/tgt")) nested_world
     = [CallRmdir (PurePath_of_str "/tgt/a")]
  /\ w_fs (snd (remove_objects [] nested_target (PurePath_of_str "/tgt") nested_world))
     = w_fs nested_world
  /\ fst (do_sync_dirs (PurePath_of_str "/src") (PurePath_of_str "/tgt") 600 nested_world)
     = Raise (OSError ENOTEMPTY (PurePath_of_str "/tgt/a"))
  /\ option_map fst (main 0 oneshot_args nested_world)
     = Some (Raise (OSError ENOTEMPTY (PurePath_of_str "/tgt/a"))).
Proof. repeat split; vm_compute; reflexivity. Qed.

(** ** Two passes in a row *)

(** C4, at a source [{a.txt: "1"}] and a target [{a.txt: "0", b.txt: "1"}],
    all files readable.  The first pass copies nothing ([a.txt] is skipped
    because its new content is found in [b.txt]) and removes [b.txt]; the
    second pass, run on the result, then copies [a.txt]; only the third pass
    is quiet. *)
Theorem second_pass_copies :
  let pass := do_sync_dirs (PurePath_of_str "/src") (PurePath_of_str "/tgt") 600 in
  let w1 := snd (pass stale_world) in
  let w2 := snd (pass w1) in
  fs_calls (calls_during pass stale_world) = [CallUnlink (PurePath_of_str "/tgt/b.txt")]
  /\ fs_calls (calls_during pass w1)
     = [CallCopy2 (PurePath_of_str "/src/a.txt") (PurePath_of_str "/tgt/a.txt")]
  /\ In (INFO, "Total new objects: 1") (skipn (length (w_log w1)) (w_log w2))
  /\ fs_calls (calls_during pass w2) = [].
Proof.
  cbv zeta.
  split; [vm_compute; reflexivity|].
  split; [vm_compute; reflexivity|].
  split; [|vm_compute; reflexivity].
  vm_compute. repeat first [left; reflexivity | right].
Qed.


(** ** Startup *)

Lemma bind_run {A B} (m : M A) (k : A -> M B) w a w1 :
  m w = (Ok a, w1) -> bind m k w = k a w1.
Proof. intros H. unfold bind. rewrite H. reflexivity. Qed.

Lemma bind_raise {A B} (m : M A) (k : A -> M B) w e w1 :
  m w = (Raise e, w1) -> bind m k w = (Raise e, w1).
Proof. intros H. unfold bind. rewrite H. reflexivity. Qed.

Lemma bind_assoc {A B C} (m : M A) (k : A -> M B) (k' : B -> M C) w :
  bind (bind m k) k' w = bind m (fun a => bind (k a) k') w.
Proof. unfold bind. destruct (m w) as [[a|e] w1]; reflexivity. Qed.

Ltac step a w1 :=
  match goal with
  | |- bind ?m ?k ?w = _ => rewrite (bind_run m k w a w1) by reflexivity; cbv beta
  end.

(** What [startup] returns and leaves behind: the six lines at [INFO], then
    either the resolved roots or a line at [CRITICAL] and [exit(1)]. *)
Lemma startup_run args w :
  let source_path := resolved w (source args) in
  let target_path := resolved w (target args) in
  let w0 := set_level INFO w in
  let rs := startup_lines args source_path target_path in
  startup args w
  = if path_exists w source_path
    then if path_exists w target_path
         then (Ok (source_path, target_path), logged rs w0)
         else (Raise (SystemExit 1), logged (rs ++ [not_found target_path]) w0)
    else (Raise (SystemExit 1), logged (rs ++ [not_found source_path]) w0).
Proof.
  intros source_path target_path w0 rs. unfold startup.
  step tt w0.
  step tt (logged (firstn 1 rs) w0).
  step tt (logged (firstn 2 rs) w0).
  step tt (logged (firstn 3 rs) w0).
  rewrite (bind_run _ _ _ tt (logged (firstn 4 rs) w0))
    by (subst rs; unfold startup_lines; destruct (oneshot args); reflexivity).
  step source_path (logged (firstn 4 rs) w0).
  step tt (logged (firstn 5 rs) w0).
  step target_path (logged (firstn 5 rs) w0).
  step tt (logged rs w0).
  cbn [for_each]. unfold check_root. rewrite !bind_assoc.
  step (path_exists w source_path) (logged rs w0).
  destruct (path_exists w source_path).
  - step tt (logged rs w0). rewrite !bind_assoc.
    step (path_exists w target_path) (logged rs w0).
    destruct (path_exists w target_path).
    + reflexivity.
    + reflexivity.
  - reflexivity.
Qed.

Lemma logged_keeps rs w :
  w_fs (logged rs w) = w_fs w /\ w_cwd (logged rs w) = w_cwd w
  /\ w_clock (logged rs w) = w_clock w /\ w_calls (logged rs w) = w_calls w
  /\ w_queue (logged rs w) = w_queue w /\ w_log (logged rs w) = w_log w ++ rs.
Proof.
  unfold logged. revert w. induction rs as [|r rs IH]; intros w; simpl.
  - rewrite app_nil_r. repeat split.
  - destruct (IH (add_log r w)) as (H1 & H2 & H3 & H4 & H5 & H6).
    rewrite H1, H2, H3, H4, H5, H6. simpl. rewrite <- app_assoc. repeat split.
Qed.

(** ** One pass *)

Ltac fs_tac :=
  unfold appends;
  repeat first
    [ solve [apply untouched_appends; auto with untouched]
    | solve [apply appends_record; reflexivity]
    | keeps_step ].

Ltac queue_tac :=
  repeat first
    [ solve [apply untouched_same_queue; auto with untouched]
    | apply same_queue_record
    | keeps_step ].

Lemma copy_object_fs source_path target_path file total :
  appends fs_call (copy_object source_path target_path file total)
  /\ keeps same_queue (copy_object source_path target_path file total).
Proof.
  unfold copy_object, Path_mkdir, mkfifo, shutil_copystat, copy_verify_file,
    shutil_copy2, log_info, log_error, log_warning.
  split; [fs_tac | queue_tac].
Qed.

Lemma copy_objects_fs source_files target_files source_path target_path :
  appends fs_call (copy_objects source_files target_files source_path target_path)
  /\ keeps same_queue (copy_objects source_files target_files source_path target_path).
Proof.
  unfold copy_objects, log_info. split.
  - apply appends_bind; [|intros a; fs_tac].
    apply appends_for_each. intros [file md5] a _. unfold copy_step.
    destruct (copy_wanted _ _ _); [apply copy_object_fs | fs_tac].
  - apply keeps_bind; [|intros a; queue_tac].
    apply keeps_for_each. intros [file md5] a _. unfold copy_step.
    destruct (copy_wanted _ _ _); [apply copy_object_fs | queue_tac].
Qed.

Lemma remove_objects_fs source_files target_files target_path :
  appends fs_call (remove_objects source_files target_files target_path)
  /\ keeps same_queue (remove_objects source_files target_files target_path).
Proof.
  unfold remove_objects, log_info.
  assert (Hfile : forall t n, appends fs_call (remove_file t n)
                              /\ keeps same_queue (remove_file t n)).
  { intros. unfold remove_file, Path_unlink, log_info, log_error.
    split; [fs_tac | queue_tac]. }
  assert (Hdir : forall t n, appends fs_call (remove_dir t n)
                             /\ keeps same_queue (remove_dir t n)).
  { intros. unfold remove_dir, Path_rmdir, log_info, log_error.
    split; [fs_tac | queue_tac]. }
  split.
  - apply appends_bind.
    + apply appends_for_each. intros file [dirs total] _. unfold remove_sweep.
      destruct (negb _); [|fs_tac].
      apply appends_bind; [fs_tac | intros [|]; [fs_tac|]].
      apply appends_bind; [apply Hfile | intros a; fs_tac].
    + intros [dirs total]. apply appends_bind; [|intros a; fs_tac].
      apply appends_for_each. intros; apply Hdir.
  - apply keeps_bind.
    + apply keeps_for_each. intros file [dirs total] _. unfold remove_sweep.
      destruct (negb _); [|queue_tac].
      apply keeps_bind; [queue_tac | intros [|]; [queue_tac|]].
      apply keeps_bind; [apply Hfile | intros a; queue_tac].
    + intros [dirs total]. apply keeps_bind; [|intros a; queue_tac].
      apply keeps_for_each. intros; apply Hdir.
Qed.

Lemma sync_pass_fs source_path target_path :
  appends fs_call (sync_pass source_path target_path)
  /\ keeps same_queue (sync_pass source_path target_path).
Proof.
  unfold sync_pass, log_info. split.
  - repeat first
      [ apply copy_objects_fs | apply remove_objects_fs
      | solve [apply untouched_appends; auto with untouched]
      | apply appends_bind; [|intros ?] ].
  - repeat first
      [ apply copy_objects_fs | apply remove_objects_fs
      | solve [apply untouched_same_queue; auto with untouched]
      | apply keeps_bind; [|intros ?] ].
Qed.

(** A pass makes calls on the file system only; when it comes to its end it
    enters one event, the last thing it does. *)
Lemma do_sync_dirs_outcome source_path target_path interval w :
  exists calls,
    Forall fs_call calls
    /\ match do_sync_dirs source_path target_path interval w with
       | (Ok ev, w') =>
           w_calls w' = w_calls w ++ calls ++ [CallEnter ev]
           /\ w_queue w' = heap_push ev (w_queue w)
           /\ ev_priority ev = 1%Z /\ ev_source ev = source_path
           /\ ev_target ev = target_path /\ ev_interval ev = interval
       | (Raise e, w') =>
           w_calls w' = w_calls w ++ calls /\ w_queue w' = w_queue w
       end.
Proof.
  destruct (sync_pass_fs source_path target_path) as [Happ Hq].
  destruct (Happ w) as (calls & E & F). specialize (Hq w). unfold same_queue in Hq.
  exists calls. split; [exact F|].
  unfold do_sync_dirs, bind at 1.
  destruct (sync_pass source_path target_path w) as [[[]|e] w1]; simpl in E, Hq.
  - unfold schedule_enter, bind, get_world, record_call, modify, ret. simpl.
    rewrite E, Hq, <- app_assoc. repeat split.
  - auto.
Qed.

(** ** The log only grows *)

#[global] Instance log_grows_frame : Frame log_grows.
Proof.
  split; unfold log_grows.
  - intros w. exists []. rewrite app_nil_r. reflexivity.
  - intros a b c (m1 & E1) (m2 & E2). exists (m1 ++ m2).
    rewrite E2, E1, app_assoc. reflexivity.
Qed.

Ltac prim_log_grows :=
  intros ?w;
  repeat match goal with
         | |- context [match ?x with _ => _ end] => destruct x
         end;
  first [ exists []; simpl; rewrite app_nil_r; reflexivity
        | eexists; simpl; reflexivity ].

Lemma log_grows_log level msg : keeps log_grows (log_at level msg).
Proof. unfold log_at. prim_log_grows. Qed.

Lemma log_grows_os_stat p : keeps log_grows (os_stat p).
Proof. unfold os_stat. prim_log_grows. Qed.

Lemma log_grows_Path_exists p : keeps log_grows (Path_exists p).
Proof. unfold Path_exists. prim_log_grows. Qed.

Lemma log_grows_Path_is_file p : keeps log_grows (Path_is_file p).
Proof. unfold Path_is_file. prim_log_grows. Qed.

Lemma log_grows_Path_is_dir p : keeps log_grows (Path_is_dir p).
Proof. unfold Path_is_dir. prim_log_grows. Qed.

Lemma log_grows_Path_is_fifo p : keeps log_grows (Path_is_fifo p).
Proof. unfold Path_is_fifo. prim_log_grows. Qed.

Lemma log_grows_Path_glob p : keeps log_grows (Path_glob p).
Proof. unfold Path_glob. prim_log_grows. Qed.

Lemma log_grows_Path_resolve p : keeps log_grows (Path_resolve p).
Proof. unfold Path_resolve. prim_log_grows. Qed.

Lemma log_grows_create_entry p new : keeps log_grows (create_entry p new).
Proof. unfold create_entry. prim_log_grows. Qed.

Lemma log_grows_open_wb p : keeps log_grows (open_wb p).
Proof. unfold open_wb. prim_log_grows. Qed.

Lemma log_grows_write_data p data : keeps log_grows (write_data p data).
Proof. unfold write_data. prim_log_grows. Qed.

Lemma log_grows_remove_entry p refuse : keeps log_grows (remove_entry p refuse).
Proof. unfold remove_entry. prim_log_grows. Qed.

Lemma log_grows_time_sleep d : keeps log_grows (time_sleep d).
Proof. unfold time_sleep. prim_log_grows. Qed.

Lemma log_grows_init_logger f : keeps log_grows (init_logger f).
Proof. unfold init_logger, modify. prim_log_grows. Qed.

Create HintDb log_grows.
#[local] Hint Resolve log_grows_log log_grows_os_stat log_grows_Path_exists
  log_grows_Path_is_file log_grows_Path_is_dir log_grows_Path_is_fifo
  log_grows_Path_glob log_grows_Path_resolve log_grows_create_entry
  log_grows_open_wb log_grows_write_data log_grows_remove_entry
  log_grows_time_sleep log_grows_init_logger : log_grows.

Ltac log_grows_tac := repeat first [ solve [auto with log_grows] | keeps_step ].

Lemma log_grows_open_rb p : keeps log_grows (open_rb p).
Proof. unfold open_rb. log_grows_tac. Qed.
#[local] Hint Resolve log_grows_open_rb : log_grows.

Lemma log_grows_read_md5 p : keeps log_grows (read_md5 p).
Proof.
  unfold read_md5. apply keeps_bind; [auto with log_grows | intros file].
  apply keeps_bind; [apply keeps_lift | intros [chunk file']]. log_grows_tac.
Qed.

Lemma log_grows_get_md5 p : keeps log_grows (get_md5 p).
Proof.
  unfold get_md5, log_warning.
  apply keeps_try; [apply log_grows_read_md5 | intros e]. log_grows_tac.
Qed.
#[local] Hint Resolve log_grows_get_md5 : log_grows.

Lemma log_grows_get_files_in_path p : keeps log_grows (get_files_in_path p).
Proof. unfold get_files_in_path. log_grows_tac. Qed.

Lemma log_grows_os_mkdir p : keeps log_grows (os_mkdir p).
Proof. unfold os_mkdir. auto with log_grows. Qed.
#[local] Hint Resolve log_grows_os_mkdir : log_grows.

Lemma log_grows_mkdir_exist_ok p : keeps log_grows (mkdir_exist_ok p).
Proof. unfold mkdir_exist_ok. log_grows_tac. Qed.
#[local] Hint Resolve log_grows_mkdir_exist_ok : log_grows.

Lemma log_grows_mkdir_parents root rparts : keeps log_grows (mkdir_parents root rparts).
Proof.
  induction rparts as [|c rparts IH]; simpl;
    (apply keeps_try; [auto with log_grows | intros e]).
  - log_grows_tac.
  - destruct (is_FileNotFoundError e); [|log_grows_tac].
    apply keeps_bind; [exact IH | intros _; auto with log_grows].
Qed.

Lemma log_grows_copystat src dst : keeps log_grows (copystat src dst).
Proof.
  unfold copystat. apply keeps_bind; [auto with log_grows | intros n]. prim_log_grows.
Qed.
#[local] Hint Resolve log_grows_mkdir_parents log_grows_copystat : log_grows.

Lemma log_grows_copyfile src dst : keeps log_grows (copyfile src dst).
Proof. unfold copyfile. log_grows_tac. Qed.
#[local] Hint Resolve log_grows_copyfile : log_grows.

Lemma log_grows_copy2 src dst : keeps log_grows (copy2 src dst).
Proof. unfold copy2. log_grows_tac. Qed.
#[local] Hint Resolve log_grows_copy2 log_grows_get_files_in_path : log_grows.

Lemma log_grows_record c : keeps log_grows (record_call c).
Proof. unfold record_call, modify. prim_log_grows. Qed.
#[local] Hint Resolve log_grows_record : log_grows.

Lemma log_grows_copy_objects source_files target_files source_path target_path :
  keeps log_grows (copy_objects source_files target_files source_path target_path).
Proof.
  unfold copy_objects, log_info.
  apply keeps_bind; [|intros a; log_grows_tac].
  apply keeps_for_each. intros [file md5] a _. unfold copy_step.
  destruct (copy_wanted _ _ _); [|apply keeps_ret].
  unfold copy_object, Path_mkdir, mkfifo, shutil_copystat, copy_verify_file,
    shutil_copy2, log_info, log_error, log_warning.
  log_grows_tac.
Qed.

Lemma log_grows_remove_objects source_files target_files target_path :
  keeps log_grows (remove_objects source_files target_files target_path).
Proof.
  unfold remove_objects, remove_sweep, remove_file, remove_dir, Path_unlink, Path_rmdir,
    log_info, log_error.
  log_grows_tac.
Qed.

Lemma log_grows_schedule_enter delay priority source_path target_path interval :
  keeps log_grows (schedule_enter delay priority source_path target_path interval).
Proof.
  unfold schedule_enter.
  apply keeps_bind; [apply keeps_get_world | intros w0].
  apply keeps_bind; [apply log_grows_record | intros _].
  apply keeps_bind; [|intros _; apply keeps_ret].
  unfold modify. prim_log_grows.
Qed.

Lemma logged_level rs : forall w, w_level (logged rs w) = w_level w.
Proof.
  unfold logged. induction rs as [|r rs IH]; intros w; simpl; [reflexivity|].
  rewrite IH. reflexivity.
Qed.

(** With the logger at [INFO] or below, a pass begins by logging its first
    line, whatever becomes of it afterwards. *)
Lemma do_sync_dirs_begins source_path target_path interval w :
  Z.leb (w_level w) INFO = true ->
  exists more,
    w_log (snd (do_sync_dirs source_path target_path interval w))
    = w_log w ++ pass_begins :: more.
Proof.
  intros Hlevel. unfold do_sync_dirs, sync_pass. rewrite !bind_assoc.
  assert (Hfirst : log_info "Scanning source folder..." w = (Ok tt, add_log pass_begins w)).
  { unfold log_info, log_at. rewrite Hlevel. reflexivity. }
  rewrite (bind_run _ _ _ _ _ Hfirst).
  match goal with
  | |- context [snd (?m (add_log pass_begins w))] =>
      assert (Hrest : keeps log_grows m)
  end.
  { unfold log_info.
    repeat first
      [ apply log_grows_copy_objects | apply log_grows_remove_objects
      | apply log_grows_schedule_enter
      | solve [auto with log_grows]
      | apply keeps_bind; [|intros ?] ]. }
  destruct (Hrest (add_log pass_begins w)) as (more & E).
  exists more. rewrite E. simpl. rewrite <- app_assoc. reflexivity.
Qed.

(** ** main *)

Lemma main_run fuel args w :
  main fuel args w
  = match startup args w with
    | (Raise e, w') => Some (Raise e, w')
    | (Ok (source_path, target_path), w') =>
        sync_loop fuel args source_path target_path (set_queue [] w')
    end.
Proof.
  unfold main, bind, modify, ret.
  destruct (startup args w) as [[[source_path target_path]|e] w']; reflexivity.
Qed.



(** ** One shot *)




(** ** The unit tests and the end-to-end scenario *)

Example test_get_relative_path :
  get_relative_path (PurePath_of_str "/test/root") (PurePath_of_str "/test/root/long/path")
  = Ok (PurePath_of_str "long/path").
Proof. reflexivity. Qed.

Example test_get_absolute_path :
  get_absolute_path (PurePath_of_str "/test/root") (PurePath_of_str "long/path")
  = PurePath_of_str "/test/root/long/path".
Proof. reflexivity. Qed.

Example test_get_files_in_path :
  fst (get_files_in_path (PurePath_of_str "testsrc") fresh_test_world) = Ok testsrc_files.
Proof. vm_compute. reflexivity. Qed.

Example test_copy_objects :
  let w := snd (copy_objects testsrc_files [] (PurePath_of_str "testsrc")
                             (PurePath_of_str "testtarget") fresh_test_world) in
  path_exists w (PurePath_of_str "testtarget/testdir") = true
  /\ path_exists w (PurePath_of_str "testtarget/md5.test") = true.
Proof. cbv zeta. split; vm_compute; reflexivity. Qed.

Example test_copy_verify :
  fst (copy_verify_file (PurePath_of_str "testsrc/md5.test")
                        (PurePath_of_str "testtarget/md5.test") fresh_test_world)
  = Ok true.
Proof. vm_compute. reflexivity. Qed.

(** After one pass on the scenario the target holds what the source holds,
    and [stale.txt] is gone. *)
Example scenario_pass :
  let w := snd (do_sync_dirs (PurePath_of_str "/src") (PurePath_of_str "/tgt") 600
                             scenario_world) in
  fst (get_files_in_path (PurePath_of_str "/tgt") w) = Ok scenario_source
  /\ path_exists w (PurePath_of_str "/tgt/stale.txt") = false.
Proof. cbv zeta. split; vm_compute; reflexivity. Qed.

(** * Further properties *)

(** ** Loops *)

(** A loop whose body always returns and keeps an invariant returns and
    keeps it; the invariant may speak of the elements handled so far and of
    the world. *)
Lemma for_each_total {X A} (I : list X -> A -> world -> Prop) (body : X -> A -> M A) :
  forall xs done acc w,
    I done acc w ->
    (forall x done a w, In x xs -> I done a w ->
       exists a' w', body x a w = (Ok a', w') /\ I (done ++ [x]) a' w') ->
    exists acc' w',
      for_each xs body acc w = (Ok acc', w') /\ I (done ++ xs) acc' w'.
Proof.
  induction xs as [|x xs IH]; intros done acc w Hacc Hbody.
  - exists acc, w. rewrite app_nil_r. split; [reflexivity | exact Hacc].
  - destruct (Hbody x done acc w (or_introl eq_refl) Hacc) as (a1 & w1 & E1 & I1).
    destruct (IH (done ++ [x]) a1 w1 I1) as (a2 & w2 & E2 & I2).
    { intros y dn a w0 Hy. apply Hbody. right. exact Hy. }
    exists a2, w2. rewrite for_each_cons, E1, E2, <- app_assoc in *.
    split; [reflexivity | exact I2].
Qed.

#[global] Instance only_logged_frame : Frame only_logged.
Proof.
  split; unfold only_logged.
  - intros w. repeat split.
  - intros a b c (H1 & H2 & H3 & H4 & H5 & H6 & H7) (G1 & G2 & G3 & G4 & G5 & G6 & G7).
    repeat split; congruence.
Qed.

(** ** Paths *)

Lemma is_prefix_true a b : is_prefix a b = true <-> is_prefix_of a b.
Proof.
  unfold is_prefix_of. revert b. induction a as [|x a IH]; intros b; simpl.
  - split; [intros _; exists b; reflexivity | reflexivity].
  - destruct b as [|y b].
    + split; [discriminate | intros [rest H]; discriminate H].
    + rewrite andb_true_iff, String.eqb_eq, IH. split.
      * intros [-> [rest ->]]. exists rest. reflexivity.
      * intros [rest H]. inversion H; subst. split; [reflexivity | exists rest; reflexivity].
Qed.

Lemma lies_under_prefix r a :
  lies_under r a <-> pp_root a = pp_root r /\ is_prefix_of (pp_parts r) (pp_parts a).
Proof. reflexivity. Qed.

(** ** get_files_in_path *)

Lemma fs_path_ext w w' p : w_cwd w' = w_cwd w -> fs_path w' p = fs_path w p.
Proof. intros H. unfold fs_path. rewrite H. reflexivity. Qed.

Lemma readable_file_ext w w' p data :
  w_fs w' = w_fs w -> w_cwd w' = w_cwd w ->
  readable_file w' p data <-> readable_file w p data.
Proof.
  intros Hfs Hcwd. unfold readable_file. rewrite Hfs, (fs_path_ext _ _ _ Hcwd). reflexivity.
Qed.

Lemma log_at_only_logged level msg : keeps only_logged (log_at level msg).
Proof.
  intros w. unfold log_at. destruct (Z.leb _ _); cbn [snd]; unfold only_logged;
    repeat split.
Qed.

(** [get_md5] returns, and changes nothing but the log. *)
Lemma get_md5_run p w :
  exists w', get_md5 p w = (Ok (md5_of_file w p), w') /\ only_logged w w'.
Proof.
  unfold md5_of_file. destruct (readable_or_not w p) as [[data H]|H].
  - exists w. rewrite (get_md5_readable _ _ _ H). split; [reflexivity | apply frame_refl].
  - destruct (get_md5_unreadable _ _ H) as (msg & E). rewrite E.
    eexists. split; [reflexivity|]. apply (log_at_only_logged WARNING msg w).
Qed.

Lemma md5_of_file_ext w w' p :
  w_fs w' = w_fs w -> w_cwd w' = w_cwd w -> md5_of_file w' p = md5_of_file w p.
Proof.
  intros Hfs Hcwd. unfold md5_of_file.
  destruct (readable_or_not w p) as [[data H]|H].
  - rewrite (get_md5_readable _ _ _ H).
    rewrite (get_md5_readable w' p data); [reflexivity|].
    apply (readable_file_ext w w' p data Hfs Hcwd). exact H.
  - destruct (get_md5_unreadable _ _ H) as (msg & E). rewrite E.
    assert (H' : unreadable w' p).
    { intros data Hd. apply (H data). apply (readable_file_ext w w' p data Hfs Hcwd).
      exact Hd. }
    destruct (get_md5_unreadable _ _ H') as (msg' & E'). rewrite E'. reflexivity.
Qed.

Lemma scan_value_ext w w' file :
  w_fs w' = w_fs w -> w_cwd w' = w_cwd w -> scan_value w' file = scan_value w file.
Proof.
  intros Hfs Hcwd. unfold scan_value.
  rewrite Hfs, (fs_path_ext _ _ _ Hcwd), (md5_of_file_ext _ _ _ Hfs Hcwd). reflexivity.
Qed.

Lemma relative_to_below scan_path rel :
  get_relative_path scan_path (below scan_path rel) = Ok (rel_path rel).
Proof.
  unfold get_relative_path, relative_to, below, rel_path. simpl.
  rewrite String.eqb_refl, is_prefix_app, skipn_length_app. reflexivity.
Qed.

Lemma below_is_joinpath scan_path rel :
  get_absolute_path scan_path (rel_path rel) = below scan_path rel.
Proof. reflexivity. Qed.

(** One turn of the scan: the entry is stored, or the path is passed over;
    nothing changes but the log. *)
Lemma scan_step_run scan_path rel d w :
  exists w',
    scan_step scan_path (below scan_path rel) d w
    = (Ok (match scan_value w (below scan_path rel) with
           | Some v => dict_set (rel_path rel) v d
           | None => d
           end), w')
    /\ only_logged w w'.
Proof.
  unfold scan_step, scan_value.
  unfold bind at 1, Path_is_file.
  destruct (walk (w_fs w) (fs_path w (below scan_path rel))) as [e|n] eqn:Hw.
  - unfold bind, Path_is_dir, Path_is_fifo. rewrite Hw. cbn.
    exists w. split; [reflexivity | apply frame_refl].
  - destruct n as [st data bad | st es | st | st].
    + destruct (get_md5_run (below scan_path rel) w) as (w' & E & Hl).
      unfold bind. rewrite E. unfold lift. rewrite relative_to_below.
      exists w'. split; [reflexivity | exact Hl].
    + unfold bind, Path_is_dir, Path_is_fifo, lift. rewrite Hw, relative_to_below. cbn.
      exists w. split; [reflexivity | apply frame_refl].
    + unfold bind, Path_is_dir, Path_is_fifo, lift. rewrite Hw, relative_to_below. cbn.
      exists w. split; [reflexivity | apply frame_refl].
    + unfold bind, Path_is_dir, Path_is_fifo. rewrite Hw. cbn.
      exists w. split; [reflexivity | apply frame_refl].
Qed.

Lemma scan_fold_app w scan_path rels1 rels2 d :
  scan_fold w scan_path (rels1 ++ rels2) d
  = scan_fold w scan_path rels2 (scan_fold w scan_path rels1 d).
Proof. unfold scan_fold. apply fold_left_app. Qed.

(** The scan never raises: it returns the snapshot that the tree determines,
    and changes nothing but the log. *)
Lemma get_files_in_path_run scan_path w :
  exists w',
    get_files_in_path scan_path w
    = (Ok (scan_fold w scan_path (glob_rels w scan_path) []), w')
    /\ only_logged w w'.
Proof.
  change (get_files_in_path scan_path)
    with (files <- Path_glob scan_path ;; for_each files (scan_step scan_path) []).
  unfold bind, Path_glob, glob_rels.
  set (rels := match walk (w_fs w) (fs_path w scan_path) with
               | inr n => glob_rec n []
               | inl _ => []
               end).
  assert (Hfiles : match walk (w_fs w) (fs_path w scan_path) with
                   | inr n => map (fun rel => {| pp_root := pp_root scan_path;
                                                 pp_parts := pp_parts scan_path ++ rel |})
                                  (glob_rec n [])
                   | inl _ => []
                   end = map (below scan_path) rels).
  { subst rels. destruct (walk _ _); reflexivity. }
  rewrite Hfiles. clear Hfiles. generalize rels. clear rels. intros rels.
  destruct (for_each_total
              (fun done d w1 => only_logged w w1
                                /\ exists rs, done = map (below scan_path) rs
                                              /\ d = scan_fold w scan_path rs [])
              (scan_step scan_path) (map (below scan_path) rels) [] [] w)
    as (d & w' & E & Hl & (rs & Hrs & Hd)).
  - split; [apply frame_refl|]. exists []. split; reflexivity.
  - intros file done a w1 Hin (Hl & rs & Hdone & Ha).
    apply in_map_iff in Hin. destruct Hin as (rel & <- & _).
    destruct (scan_step_run scan_path rel a w1) as (w2 & E & Hl2).
    eexists; exists w2. split; [exact E|].
    split; [eapply frame_trans; eassumption|].
    exists (rs ++ [rel]). split.
    + rewrite map_app, Hdone. reflexivity.
    + rewrite scan_fold_app, <- Ha. cbn [scan_fold fold_left].
      destruct Hl as (Hfs & Hcwd & _).
      rewrite (scan_value_ext _ _ _ Hfs Hcwd). reflexivity.
  - cbn [app] in Hrs.
    assert (rs = rels) as ->.
    { clear - Hrs. revert rs Hrs. induction rels as [|r rels IH]; intros [|r' rs] H;
        try discriminate; [reflexivity|].
      simpl in H. inversion H as [[Hp Ht]]. apply app_inv_head in Hp. subst r'.
      f_equal. apply IH. exact Ht. }
    exists w'. rewrite E, Hd. split; [reflexivity | exact Hl].
Qed.

(** *** Dictionaries *)

Lemma dict_set_In k v d k' v' :
  In (k', v') (dict_set k v d) -> (k' = k /\ v' = v) \/ In (k', v') d.
Proof.
  induction d as [|[k0 v0] d IH]; simpl.
  - intros [H|[]]. inversion H. left. auto.
  - destruct (path_eqb k0 k) eqn:E.
    + apply path_eqb_eq in E. subst k0.
      intros [H|H]; [inversion H; subst; left; auto | right; right; exact H].
    + intros [H|H]; [right; left; exact H|].
      destruct (IH H) as [H'|H']; [left; exact H' | right; right; exact H'].
Qed.

Lemma dict_set_keys k v d k' :
  In k' (dict_keys (dict_set k v d)) <-> k' = k \/ In k' (dict_keys d).
Proof.
  unfold dict_keys. induction d as [|[k0 v0] d IH]; simpl.
  - split; [intros [H|[]]; left; auto | intros [H|[]]; left; auto].
  - destruct (path_eqb k0 k) eqn:E; simpl.
    + apply path_eqb_eq in E. subst k0. split; [tauto | intros [H|H]; auto].
    + rewrite IH. split; tauto.
Qed.

Lemma dict_set_NoDup k v d :
  NoDup (dict_keys d) -> NoDup (dict_keys (dict_set k v d)).
Proof.
  unfold dict_keys. induction d as [|[k0 v0] d IH]; simpl; intros H.
  - constructor; [intros [] | constructor].
  - inversion H as [|? ? Hnotin Hnd]; subst.
    destruct (path_eqb k0 k) eqn:E; simpl.
    + constructor; assumption.
    + constructor; [|apply IH; exact Hnd].
      intros Hin. apply (dict_set_keys k v d k0) in Hin. destruct Hin as [Hin|Hin].
      * subst k0. rewrite (proj2 (path_eqb_eq k k) eq_refl) in E. discriminate E.
      * exact (Hnotin Hin).
Qed.

(** *** What glob lists *)

Lemma glob_rec_dir st es base :
  glob_rec (Directory st es) base
  = if readable st
    then map (fun e => base ++ [fst e]) es
         ++ flat_map (fun e => match snd e with
                               | Directory _ _ => glob_rec (snd e) (base ++ [fst e])
                               | _ => []
                               end) es
    else [].
Proof.
  simpl. destruct (readable st); [|reflexivity]. f_equal.
  induction es as [|[name c] es IH]; [reflexivity|].
  simpl. rewrite <- IH. destruct c; reflexivity.
Qed.

(** Every path that glob lists lies strictly below the directory. *)
Lemma glob_rec_below n :
  forall base x, In x (glob_rec n base) -> exists suffix, x = base ++ suffix /\ suffix <> [].
Proof.
  induction n using node_ind_nested; intros base x Hin; try (destruct Hin; fail).
  rewrite glob_rec_dir in Hin. destruct (readable st); [|destruct Hin].
  apply in_app_or in Hin. destruct Hin as [Hin|Hin].
  - apply in_map_iff in Hin. destruct Hin as (e & <- & _).
    exists [fst e]. split; [reflexivity | discriminate].
  - apply in_flat_map in Hin. destruct Hin as (e & He & Hx).
    rewrite Forall_forall in H. specialize (H e He).
    destruct (snd e) eqn:Ec; try (destruct Hx; fail).
    destruct (H (base ++ [fst e]) x Hx) as (suffix & -> & Hne).
    exists (fst e :: suffix). rewrite <- app_assoc. split; [reflexivity | discriminate].
Qed.

Lemma entry_get_In name es n : entry_get name es = Some n -> In (name, n) es.
Proof.
  induction es as [|[k c] es IH]; simpl; [discriminate|].
  destruct (String.eqb k name) eqn:E.
  - apply String.eqb_eq in E. intros H; inversion H; subst. left. reflexivity.
  - intros H. right. apply IH. exact H.
Qed.

(** Everything that can be reached through listable directories is listed. *)
Lemma glob_rec_complete rel :
  forall n base m,
    rel <> [] -> glob_walk n rel = Some m -> In (base ++ rel) (glob_rec n base).
Proof.
  induction rel as [|c rel IH]; intros n base m Hne Hw; [congruence|].
  simpl in Hw. destruct n as [| st es | |]; try discriminate.
  destruct (readable st) eqn:Hr; [|discriminate].
  destruct (entry_get c es) as [n'|] eqn:Hget; [|discriminate].
  apply entry_get_In in Hget.
  rewrite glob_rec_dir, Hr. apply in_or_app.
  destruct rel as [|c' rel'].
  - left. apply in_map_iff. exists (c, n'). auto.
  - right. apply in_flat_map. exists (c, n'). split; [exact Hget|].
    cbn [fst snd].
    assert (Hin : In ((base ++ [c]) ++ c' :: rel') (glob_rec n' (base ++ [c])))
      by (apply (IH n' (base ++ [c]) m); [discriminate | exact Hw]).
    rewrite <- app_assoc in Hin. cbn [app] in Hin.
    destruct n'; try (simpl in Hw; discriminate Hw). exact Hin.
Qed.

Lemma glob_walk_walk rel : forall n m, glob_walk n rel = Some m -> walk n rel = inr m.
Proof.
  induction rel as [|c rel IH]; intros n m; simpl.
  - intros H; inversion H; reflexivity.
  - destruct n as [| st es | |]; try discriminate.
    destruct (readable st); [|discriminate].
    destruct (entry_get c es) as [n'|]; [|discriminate]. apply IH.
Qed.

Lemma walk_app a : forall n b,
  walk n (a ++ b) = match walk n a with
                    | inr m => walk m b
                    | inl e => inl e
                    end.
Proof.
  induction a as [|c a IH]; intros n b; [reflexivity|].
  simpl. destruct n as [| st es | |]; try reflexivity.
  destruct (entry_get c es) as [n'|]; [apply IH | reflexivity].
Qed.

Lemma fs_path_below w scan_path rel :
  fs_path w (below scan_path rel) = fs_path w scan_path ++ rel.
Proof.
  unfold fs_path, below, is_absolute. simpl.
  destruct (negb _); [reflexivity | apply app_assoc].
Qed.

(** *** The snapshot *)

Lemma md5_of_file_not_None w p : md5_of_file w p <> PyNone.
Proof.
  unfold md5_of_file. destruct (readable_or_not w p) as [[data H]|H].
  - rewrite (get_md5_readable _ _ _ H). discriminate.
  - destruct (get_md5_unreadable _ _ H) as (msg & E). rewrite E. discriminate.
Qed.

(** Every entry was stored for a listed path, with that path's value. *)
Lemma scan_fold_sound w scan_path rels :
  forall d,
    (forall k v, In (k, v) d ->
       exists rel, k = rel_path rel /\ rel <> []
                   /\ scan_value w (below scan_path rel) = Some v) ->
    Forall (fun rel => rel <> []) rels ->
    forall k v, In (k, v) (scan_fold w scan_path rels d) ->
      exists rel, k = rel_path rel /\ rel <> []
                  /\ scan_value w (below scan_path rel) = Some v.
Proof.
  unfold scan_fold. induction rels as [|rel rels IH]; intros d Hd Hne; [exact Hd|].
  inversion Hne as [|? ? Hrel Hne']; subst. cbn [fold_left]. apply IH; [|exact Hne'].
  destruct (scan_value w (below scan_path rel)) as [v0|] eqn:Hv; [|exact Hd].
  intros k v Hin. apply dict_set_In in Hin. destruct Hin as [[-> ->]|Hin].
  - exists rel. auto.
  - apply Hd. exact Hin.
Qed.

Lemma scan_fold_NoDup w scan_path rels :
  forall d, NoDup (dict_keys d) -> NoDup (dict_keys (scan_fold w scan_path rels d)).
Proof.
  unfold scan_fold. induction rels as [|rel rels IH]; intros d Hd; [exact Hd|].
  cbn [fold_left]. apply IH.
  destruct (scan_value w (below scan_path rel)); [apply dict_set_NoDup|]; exact Hd.
Qed.

Lemma scan_fold_keeps_keys w scan_path rels :
  forall d k, In k (dict_keys d) -> In k (dict_keys (scan_fold w scan_path rels d)).
Proof.
  unfold scan_fold. induction rels as [|rel rels IH]; intros d k Hk; [exact Hk|].
  cbn [fold_left]. apply IH.
  destruct (scan_value w (below scan_path rel)); [|exact Hk].
  apply dict_set_keys. right. exact Hk.
Qed.

Lemma scan_fold_complete w scan_path rels rel v :
  In rel rels -> scan_value w (below scan_path rel) = Some v ->
  forall d, In (rel_path rel) (dict_keys (scan_fold w scan_path rels d)).
Proof.
  intros Hin Hv. induction rels as [|r rels IH]; intros d; [destruct Hin|].
  destruct Hin as [->|Hin].
  - unfold scan_fold. cbn [fold_left]. rewrite Hv.
    apply (scan_fold_keeps_keys w scan_path rels). apply dict_set_keys. left. reflexivity.
  - unfold scan_fold. cbn [fold_left]. apply IH. exact Hin.
Qed.

Lemma glob_rels_below w scan_path :
  Forall (fun rel => rel <> []) (glob_rels w scan_path).
Proof.
  unfold glob_rels. destruct (walk _ _) as [e|n]; [constructor|].
  apply Forall_forall. intros rel Hin.
  destruct (glob_rec_below n [] rel Hin) as (suffix & -> & Hne). exact Hne.
Qed.

(** X2. A scan never raises.  It changes nothing but the log (the warnings
    of [get_md5]); the keys of the snapshot it returns are distinct, relative
    and never the scanned root itself. *)
Theorem get_files_in_path_snapshot (scan_path : PurePath) (w : world) :
  exists d w',
    get_files_in_path scan_path w = (Ok d, w')
    /\ only_logged w w'
    /\ NoDup (dict_keys d)
    /\ Forall (fun k => relative k /\ pp_parts k <> []) (dict_keys d).
Proof.
  destruct (get_files_in_path_run scan_path w) as (w' & E & Hl).
  eexists. exists w'. split; [exact E|]. split; [exact Hl|]. split.
  - apply scan_fold_NoDup. constructor.
  - apply Forall_forall. intros k Hk. unfold dict_keys in Hk.
    apply in_map_iff in Hk. destruct Hk as ([k' v] & <- & Hin).
    destruct (scan_fold_sound w scan_path (glob_rels w scan_path) []
                (fun _ _ F => match F with end) (glob_rels_below w scan_path) k' v Hin)
      as (rel & -> & Hne & _).
    split; [reflexivity | exact Hne].
Qed.

(** X3. What a snapshot holds.  Every entry names a regular file, a
    directory or a named pipe that exists below the scanned root: a file
    with the value that [get_md5] returns for it (never [None]), a directory
    or a pipe with [None].  No entry names anything else. *)
Theorem snapshot_sound (scan_path : PurePath) (w : world) (d : dict)
        (k : PurePath) (v : pyval) :
  fst (get_files_in_path scan_path w) = Ok d ->
  In (k, v) d ->
  let file := get_absolute_path scan_path k in
  match walk (w_fs w) (fs_path w file) with
  | inr (RegularFile _ _ _) => fst (get_md5 file w) = Ok v /\ v <> PyNone
  | inr (Directory _ _) | inr (NamedPipe _) => v = PyNone
  | inr (Special _) | inl _ => False
  end.
Proof.
  intros Hrun Hin file. subst file.
  destruct (get_files_in_path_run scan_path w) as (w' & E & _).
  rewrite E in Hrun. cbn [fst] in Hrun. inversion Hrun; subst d; clear Hrun.
  destruct (scan_fold_sound w scan_path (glob_rels w scan_path) []
              (fun _ _ F => match F with end) (glob_rels_below w scan_path) k v Hin)
    as (rel & -> & _ & Hv).
  rewrite below_is_joinpath. unfold scan_value in Hv.
  destruct (walk (w_fs w) (fs_path w (below scan_path rel))) as [e|[st data bad|st es|st|st]];
    try discriminate Hv; inversion Hv; try reflexivity.
  split; [|apply md5_of_file_not_None].
  destruct (get_md5_run (below scan_path rel) w) as (w1 & E1 & _). rewrite E1. reflexivity.
Qed.

Lemma snapshot_sound_witness :
  fst (get_md5 (PurePath_of_str "testsrc/md5.test") fresh_test_world)
  = Ok (PyStr "cfcd208495d565ef66e7dff9f98764da").
Proof.
  refine (proj1 (snapshot_sound (PurePath_of_str "testsrc") fresh_test_world testsrc_files
                   (PurePath_of_str "md5.test")
                   (PyStr "cfcd208495d565ef66e7dff9f98764da") _ _)).
  - vm_compute. reflexivity.
  - right. left. reflexivity.
Defined.

(** X4. What a snapshot does not miss.  Every regular file, directory or
    named pipe that can be reached from the scanned root through directories
    that can be listed is a key of the snapshot. *)
Theorem snapshot_complete (scan_path : PurePath) (w : world) (d : dict)
        (root m : node) (rel : list string) :
  fst (get_files_in_path scan_path w) = Ok d ->
  walk (w_fs w) (fs_path w scan_path) = inr root ->
  rel <> [] ->
  glob_walk root rel = Some m ->
  (forall st, m <> Special st) ->
  In (rel_path rel) (dict_keys d).
Proof.
  intros Hrun Hroot Hne Hwalk Hkind.
  destruct (get_files_in_path_run scan_path w) as (w' & E & _).
  rewrite E in Hrun. cbn [fst] in Hrun. inversion Hrun; subst d; clear Hrun.
  assert (Hv : exists v, scan_value w (below scan_path rel) = Some v).
  { unfold scan_value. rewrite fs_path_below, walk_app, Hroot.
    rewrite (glob_walk_walk rel root m Hwalk).
    destruct m; try (eexists; reflexivity). exfalso. exact (Hkind st eq_refl). }
  destruct Hv as [v Hv].
  apply (scan_fold_complete w scan_path (glob_rels w scan_path) rel v); [|exact Hv].
  unfold glob_rels. rewrite Hroot.
  exact (glob_rec_complete rel root [] m Hne Hwalk).
Qed.

Lemma snapshot_complete_witness :
  In (rel_path ["sub"; "b.txt"]) (dict_keys scenario_source).
Proof.
  refine (snapshot_complete (PurePath_of_str "/src") scenario_world scenario_source
            (dir_of [("a.txt", file_of "1"); ("sub", dir_of [("b.txt", file_of "2")])])
            (file_of "2") ["sub"; "b.txt"] _ _ _ _ _).
  - vm_compute. reflexivity.
  - reflexivity.
  - discriminate.
  - reflexivity.
  - intros st. discriminate.
Defined.

(** ** The remove phase *)

(** X5. The delete rule and its order.  Whatever its outcome, the remove
    phase makes no other calls than [unlink] and [rmdir] on the target paths
    of orphans (keys of the target snapshot that are no keys of the source
    snapshot), and every [unlink] comes before every [rmdir]. *)
Theorem remove_phase_rule_and_order
        (source_files target_files : dict) (target_path : PurePath) (w : world) :
  exists unlinks rmdirs,
    calls_during (remove_objects source_files target_files target_path) w
    = unlinks ++ rmdirs
    /\ Forall (unlink_of_orphan source_files target_files target_path) unlinks
    /\ Forall (rmdir_of_orphan source_files target_files target_path) rmdirs.
Proof. apply remove_objects_sweeps. Qed.

(** X6. What the remove phase spares.  With relative keys (as a scan
    returns them), no call of the remove phase works on the target path of a
    key of the source snapshot. *)
Theorem remove_phase_spares
        (source_files target_files : dict) (target_path file : PurePath) (w : world) :
  Forall relative (dict_keys target_files) ->
  relative file ->
  In file (dict_keys source_files) ->
  acted_on (get_absolute_path target_path file)
    (calls_during (remove_objects source_files target_files target_path) w) = false.
Proof.
  intros Hrel Hfile Hin. apply not_true_iff_false. intros Hact.
  apply acted_on_true in Hact. destruct Hact as (c & Hc & Hon).
  destruct (remove_objects_sweeps source_files target_files target_path w)
    as (unlinks & rmdirs & E & Fu & Fr).
  rewrite E in Hc. rewrite Forall_forall in Fu, Fr, Hrel.
  assert (Horph : exists f, orphan source_files target_files f
                            /\ call_target c = Some (get_absolute_path target_path f)).
  { apply in_app_or in Hc. destruct Hc as [Hc|Hc].
    - destruct (Fu c Hc) as (f & Ho & ->). exists f. auto.
    - destruct (Fr c Hc) as (f & Ho & ->). exists f. auto. }
  destruct Horph as (f & [Hft Hfs] & Ht).
  unfold works_on in Hon. rewrite Hon in Ht. inversion Ht as [Hpath].
  apply joinpath_inj in Hpath; [| exact Hfile | apply Hrel; exact Hft].
  subst f. exact (Hfs Hin).
Qed.

Lemma remove_phase_spares_witness :
  acted_on (PurePath_of_str "/tgt/a.txt")
    (calls_during (remove_objects scenario_source scenario_target (PurePath_of_str "/tgt"))
                  scenario_world) = false.
Proof.
  refine (remove_phase_spares scenario_source scenario_target (PurePath_of_str "/tgt")
            (PurePath_of_str "a.txt") scenario_world _ _ _).
  - repeat constructor.
  - reflexivity.
  - left. reflexivity.
Defined.

(** X7. What the remove phase does not miss.  When the phase runs to its
    end, a call was made on the target path of every orphan. *)
Theorem remove_phase_complete
        (source_files target_files : dict) (target_path file : PurePath) (w : world) :
  fst (remove_objects source_files target_files target_path w) = Ok tt ->
  orphan source_files target_files file ->
  acted_on (get_absolute_path target_path file)
    (calls_during (remove_objects source_files target_files target_path) w) = true.
Proof. apply remove_objects_complete. Qed.

Lemma remove_phase_complete_witness :
  acted_on (PurePath_of_str "/tgt/stale.txt")
    (calls_during (remove_objects scenario_source scenario_target (PurePath_of_str "/tgt"))
                  scenario_world) = true.
Proof.
  refine (remove_phase_complete scenario_source scenario_target (PurePath_of_str "/tgt")
            (PurePath_of_str "stale.txt") scenario_world _ _).
  - vm_compute. reflexivity.
  - split.
    + right. left. reflexivity.
    + vm_compute. intros [H|[H|[H|[]]]]; discriminate H.
Defined.

(** ** Trees that are in sync *)

Lemma log_info_only_logged msg w :
  exists w', log_info msg w = (Ok tt, w') /\ only_logged w w'.
Proof.
  eexists. split; [reflexivity|]. apply (log_at_only_logged INFO msg w).
Qed.

Lemma copy_loop_unwanted target_files source_path target_path source_files :
  (forall file md5, In (file, md5) source_files ->
                    copy_wanted target_files file md5 = false) ->
  forall total w,
    for_each source_files (copy_step target_files source_path target_path) total w
    = (Ok total, w).
Proof.
  induction source_files as [|[f m] xs IH]; intros Hall total w; [reflexivity|].
  rewrite for_each_cons. unfold copy_step at 1.
  rewrite (Hall f m (or_introl eq_refl)). cbn.
  apply IH. intros; apply Hall; right; assumption.
Qed.

Lemma remove_loop_present source_files target_path keys :
  (forall file, In file keys -> key_in file source_files = true) ->
  forall st w,
    for_each keys (remove_sweep source_files target_path) st w = (Ok st, w).
Proof.
  induction keys as [|k keys IH]; intros Hall st w; [reflexivity|].
  rewrite for_each_cons. unfold remove_sweep at 1. destruct st as [dirs total].
  rewrite (Hall k (or_introl eq_refl)). cbn.
  apply IH. intros; apply Hall; right; assumption.
Qed.

Lemma glob_rels_ext w w' scan_path :
  w_fs w' = w_fs w -> w_cwd w' = w_cwd w -> glob_rels w' scan_path = glob_rels w scan_path.
Proof.
  intros Hfs Hcwd. unfold glob_rels. rewrite Hfs, (fs_path_ext _ _ _ Hcwd). reflexivity.
Qed.

Lemma scan_fold_ext w w' scan_path rels d :
  w_fs w' = w_fs w -> w_cwd w' = w_cwd w ->
  scan_fold w' scan_path rels d = scan_fold w scan_path rels d.
Proof.
  intros Hfs Hcwd. unfold scan_fold. revert d.
  induction rels as [|rel rels IH]; intros d; [reflexivity|].
  cbn [fold_left]. rewrite IH, (scan_value_ext _ _ _ Hfs Hcwd). reflexivity.
Qed.

(** The scan of a world that differs in its log only gives the same
    snapshot. *)
Lemma get_files_in_path_ext w w' scan_path :
  only_logged w w' ->
  fst (get_files_in_path scan_path w') = fst (get_files_in_path scan_path w).
Proof.
  intros (Hfs & Hcwd & _).
  destruct (get_files_in_path_run scan_path w) as (w1 & E1 & _).
  destruct (get_files_in_path_run scan_path w') as (w2 & E2 & _).
  rewrite E1, E2. cbn [fst].
  rewrite (glob_rels_ext _ _ _ Hfs Hcwd), (scan_fold_ext _ _ _ _ _ Hfs Hcwd). reflexivity.
Qed.



(** ** The event of a pass *)

(** X9. [do_sync_dirs] and the scheduler.  A pass that returns has made
    calls on the file system and then, as its last call, entered exactly one
    event: for the same roots and interval, with priority 1, due [interval]
    seconds after the time at which the pass ended; it is what the pass
    returns.  A pass that raises has entered nothing. *)
Theorem do_sync_dirs_enters_one_event
        (source_path target_path : PurePath) (interval : Z) (w : world) :
  exists calls,
    Forall fs_call calls
    /\ match do_sync_dirs source_path target_path interval w with
       | (Ok ev, w') =>
           w_calls w' = w_calls w ++ calls ++ [CallEnter ev]
           /\ w_queue w' = heap_push ev (w_queue w)
           /\ ev = {| ev_time := (w_clock w' + interval)%Z; ev_priority := 1;
                      ev_source := source_path; ev_target := target_path;
                      ev_interval := interval |}
       | (Raise e, w') =>
           w_calls w' = w_calls w ++ calls /\ w_queue w' = w_queue w
       end.
Proof.
  destruct (sync_pass_fs source_path target_path) as [Happ Hq].
  destruct (Happ w) as (calls & E & F). specialize (Hq w). unfold same_queue in Hq.
  exists calls. split; [exact F|].
  unfold do_sync_dirs, bind at 1.
  destruct (sync_pass source_path target_path w) as [[[]|e] w1]; simpl in E, Hq.
  - unfold schedule_enter, bind, get_world, record_call, modify, ret. simpl.
    rewrite E, Hq, <- app_assoc. repeat split.
  - auto.
Qed.

(** ** What a pass writes *)

(** *** Paths *)

Lemma is_prefix_of_dec a b : is_prefix_of a b \/ ~ is_prefix_of a b.
Proof.
  destruct (is_prefix a b) eqn:E.
  - left. apply is_prefix_true. exact E.
  - right. intros H. apply is_prefix_true in H. congruence.
Qed.

Lemma is_prefix_of_trans a b c : is_prefix_of a b -> is_prefix_of b c -> is_prefix_of a c.
Proof. intros [r1 ->] [r2 ->]. exists (r1 ++ r2). apply eq_sym, app_assoc. Qed.

Lemma prefixes_comparable a b : forall c,
  is_prefix_of a c -> is_prefix_of b c -> is_prefix_of a b \/ is_prefix_of b a.
Proof.
  revert b. induction a as [|x a IH]; intros b c Ha Hb.
  - left. exists b. reflexivity.
  - destruct b as [|y b]; [right; exists (x :: a); reflexivity|].
    destruct Ha as [ra ->]. destruct Hb as [rb Hb]. simpl in Hb.
    inversion Hb; subst y.
    destruct (IH b (a ++ ra)) as [[r ->]|[r ->]].
    + exists ra. reflexivity.
    + exists rb. assumption.
    + left. exists r. reflexivity.
    + right. exists r. reflexivity.
Qed.

Lemma apart_below t q ps : apart t q -> is_prefix_of t ps -> apart ps q.
Proof.
  intros [H1 H2] Ht. split.
  - intros Hp. apply H1. eapply is_prefix_of_trans; eassumption.
  - intros Hq. destruct (prefixes_comparable t q ps Ht Hq); tauto.
Qed.

(** An ancestor of a path below [t] is apart from [q] or leads to it. *)
Lemma apart_above t q ps full :
  apart t q -> is_prefix_of t full -> is_prefix_of ps full ->
  apart ps q \/ is_prefix_of ps q.
Proof.
  intros Hap Ht Hps.
  destruct (is_prefix_of_dec ps q) as [H|H]; [right; exact H|].
  left. split; [exact H|]. intros Hq.
  assert (Hqf : is_prefix_of q full) by (eapply is_prefix_of_trans; eassumption).
  destruct Hap as [H1 H2].
  destruct (prefixes_comparable t q full Ht Hqf); tauto.
Qed.

Lemma apart_cons c p q : apart (c :: p) (c :: q) -> apart p q.
Proof.
  intros [H1 H2]. split; intros [r ->]; [apply H1 | apply H2]; exists r; reflexivity.
Qed.

Lemma apart_nil_l q : ~ apart [] q.
Proof. intros [H _]. apply H. exists q. reflexivity. Qed.

Lemma apart_nil_r p : ~ apart p [].
Proof. intros [_ H]. apply H. exists p. reflexivity. Qed.

Lemma removelast_last_parts (ps : list string) :
  ps <> [] -> ps = removelast ps ++ [last ps ""].
Proof. intros H. apply app_removelast_last. exact H. Qed.

(** *** Trees *)

Lemma entry_get_alter c name f es :
  entry_get c (entry_alter name f es)
  = if String.eqb name c then option_map f (entry_get c es) else entry_get c es.
Proof.
  induction es as [|[k n] es IH]; simpl.
  - destruct (String.eqb name c); reflexivity.
  - destruct (String.eqb k name) eqn:Ekn; simpl.
    + apply String.eqb_eq in Ekn. subst k.
      destruct (String.eqb name c); reflexivity.
    + destruct (String.eqb k c) eqn:Ekc.
      * apply String.eqb_eq in Ekc. subst k.
        rewrite String.eqb_sym, Ekn. reflexivity.
      * exact IH.
Qed.

Lemma entry_get_add c name n es :
  c <> name -> entry_get c (entry_add name n es) = entry_get c es.
Proof.
  intros Hne. unfold entry_add. induction es as [|[k m] es IH]; simpl.
  - apply String.eqb_neq in Hne. rewrite String.eqb_sym, Hne. reflexivity.
  - destruct (String.eqb k c); [reflexivity | exact IH].
Qed.

Lemma entry_get_del c name es :
  c <> name -> entry_get c (entry_del name es) = entry_get c es.
Proof.
  intros Hne. induction es as [|[k m] es IH]; simpl; [reflexivity|].
  destruct (String.eqb k name) eqn:Ekn; simpl.
  - apply String.eqb_eq in Ekn. subst k.
    apply not_eq_sym, String.eqb_neq in Hne. rewrite Hne. reflexivity.
  - destruct (String.eqb k c); [reflexivity | exact IH].
Qed.

(** Changing the node at [p] changes nothing at a path apart from [p]. *)
Lemma walk_update_node_apart p : forall n q f,
  apart p q -> walk (update_node n p f) q = walk n q.
Proof.
  induction p as [|c p IH]; intros n q f Hap.
  - exfalso. exact (apart_nil_l q Hap).
  - destruct q as [|c' q]; [exfalso; exact (apart_nil_r _ Hap)|].
    simpl. destruct n as [| st es | |]; try reflexivity.
    simpl. rewrite entry_get_alter.
    destruct (String.eqb c c') eqn:E; [|reflexivity].
    apply String.eqb_eq in E. subst c'.
    destruct (entry_get c es) as [n'|]; [|reflexivity].
    simpl. apply IH. apply (apart_cons c). exact Hap.
Qed.

(** Changing the entry [name] of the directory at [dir] changes nothing at
    a path apart from [dir/name]. *)
Lemma walk_update_entries_apart g name :
  (forall c es, c <> name -> entry_get c (g es) = entry_get c es) ->
  forall dir n q,
    apart (dir ++ [name]) q -> walk (update_entries n dir g) q = walk n q.
Proof.
  intros Hg. unfold update_entries.
  induction dir as [|c dir IH]; intros n q Hap.
  - destruct q as [|c' q]; [exfalso; exact (apart_nil_r _ Hap)|].
    simpl. destruct n as [| st es | |]; try reflexivity.
    simpl. rewrite Hg; [reflexivity|].
    intros ->. destruct Hap as [H _]. apply H. exists q. reflexivity.
  - destruct q as [|c' q]; [exfalso; exact (apart_nil_r _ Hap)|].
    simpl. destruct n as [| st es | |]; try reflexivity.
    simpl. rewrite entry_get_alter.
    destruct (String.eqb c c') eqn:E; [|reflexivity].
    apply String.eqb_eq in E. subst c'.
    destruct (entry_get c es) as [n'|]; [|reflexivity].
    simpl. apply IH. apply (apart_cons c). exact Hap.
Qed.

(** What lies on the way to an existing node exists. *)
Lemma walk_prefix_exists n p q m :
  walk n q = inr m -> is_prefix_of p q -> exists m', walk n p = inr m'.
Proof.
  intros Hw [r ->]. rewrite walk_app in Hw.
  destruct (walk n p) as [e|m']; [discriminate | eauto].
Qed.

Lemma walk_last n ps m :
  ps <> [] -> walk n ps = inr m ->
  exists st es, walk n (removelast ps) = inr (Directory st es)
                /\ entry_get (last ps "") es = Some m.
Proof.
  intros Hne Hw. rewrite (removelast_last_parts ps Hne), walk_app in Hw.
  destruct (walk n (removelast ps)) as [e|d]; [discriminate|].
  simpl in Hw. destruct d as [| st es | |]; try discriminate.
  destruct (entry_get (last ps "") es) as [m'|] eqn:E; [|discriminate].
  inversion Hw; subst. eauto.
Qed.

(** *** The primitives that write *)

#[global] Instance keeps_node_frame q : Frame (keeps_node q).
Proof. split; unfold keeps_node; auto. Qed.

Lemma fs_path_absolute w p : is_absolute p = true -> fs_path w p = pp_parts p.
Proof. intros H. unfold fs_path. rewrite H. reflexivity. Qed.

Lemma only_logged_keeps_node {A} q (m : M A) :
  keeps only_logged m -> keeps (keeps_node q) m.
Proof. intros H w n Hn. destruct (H w) as (Hfs & _). rewrite Hfs. exact Hn. Qed.

Lemma unchanged_keeps_node {A} q (m : M A) :
  (forall w, snd (m w) = w) -> keeps (keeps_node q) m.
Proof. intros H w n Hn. rewrite H. exact Hn. Qed.

Section Writes.

Variables (q : list string) (p : PurePath).
Hypothesis p_abs : is_absolute p = true.

Lemma create_entry_keeps new :
  apart (pp_parts p) q \/ is_prefix_of (pp_parts p) q ->
  keeps (keeps_node q) (create_entry p new).
Proof.
  intros Hsafe w n Hn. unfold create_entry. rewrite (fs_path_absolute w p p_abs).
  destruct (pp_parts p) as [|c ps] eqn:Eps; [exact Hn|]. rewrite <- Eps in *.
  assert (Hne : pp_parts p <> []) by (rewrite Eps; discriminate).
  destruct (walk (w_fs w) (removelast (pp_parts p))) as [e|[| st es | |]] eqn:Hdir;
    try exact Hn.
  destruct (entry_get (last (pp_parts p) "") es) eqn:Hget; [exact Hn|].
  destruct (writable st); [|exact Hn]. cbn [snd set_fs w_fs].
  destruct Hsafe as [Hap|Hpre].
  - rewrite walk_update_entries_apart with (name := last (pp_parts p) "").
    + exact Hn.
    + intros c0 es0 Hc. apply entry_get_add. exact Hc.
    + rewrite <- removelast_last_parts by exact Hne. exact Hap.
  - exfalso. destruct (walk_prefix_exists _ _ _ _ Hn Hpre) as (m' & Hm').
    destruct (walk_last _ _ _ Hne Hm') as (st' & es' & Hd' & Hg').
    rewrite Hdir in Hd'. inversion Hd'; subst. congruence.
Qed.

Hypothesis p_apart : apart (pp_parts p) q.

Lemma open_wb_keeps : keeps (keeps_node q) (open_wb p).
Proof.
  intros w n Hn. unfold open_wb. rewrite (fs_path_absolute w p p_abs).
  destruct (pp_parts p) as [|c ps] eqn:Eps; [exact Hn|]. rewrite <- Eps in *.
  assert (Hne : pp_parts p <> []) by (rewrite Eps; discriminate).
  destruct (walk (w_fs w) (removelast (pp_parts p))) as [e|[| st es | |]];
    try exact Hn.
  destruct (entry_get (last (pp_parts p) "") es) as [[fst0 d0 b0| | |]|].
  - destruct (writable fst0); [|exact Hn]. cbn [snd set_fs w_fs].
    rewrite walk_update_node_apart by exact p_apart. exact Hn.
  - exact Hn.
  - exact Hn.
  - exact Hn.
  - destruct (writable st); [|exact Hn]. cbn [snd set_fs w_fs].
    rewrite walk_update_entries_apart with (name := last (pp_parts p) "").
    + exact Hn.
    + intros c0 es0 Hc. apply entry_get_add. exact Hc.
    + rewrite <- removelast_last_parts by exact Hne. exact p_apart.
Qed.

Lemma write_data_keeps data : keeps (keeps_node q) (write_data p data).
Proof.
  intros w n Hn. unfold write_data. rewrite (fs_path_absolute w p p_abs).
  cbn [snd set_fs w_fs]. rewrite walk_update_node_apart by exact p_apart. exact Hn.
Qed.

Lemma copystat_keeps src : keeps (keeps_node q) (copystat src p).
Proof.
  intros w n Hn. unfold copystat, bind, os_stat.
  destruct (walk (w_fs w) (fs_path w src)); [exact Hn|].
  rewrite (fs_path_absolute w p p_abs).
  destruct (walk (w_fs w) (pp_parts p)); [exact Hn|]. cbn [snd set_fs w_fs].
  rewrite walk_update_node_apart by exact p_apart. exact Hn.
Qed.

Lemma remove_entry_keeps refuse : keeps (keeps_node q) (remove_entry p refuse).
Proof.
  intros w n Hn. unfold remove_entry. rewrite (fs_path_absolute w p p_abs).
  destruct (walk (w_fs w) (pp_parts p)) as [e|m]; [exact Hn|].
  destruct (pp_parts p) as [|c ps] eqn:Eps; [exact Hn|]. rewrite <- Eps in *.
  assert (Hne : pp_parts p <> []) by (rewrite Eps; discriminate).
  destruct (walk (w_fs w) (removelast (pp_parts p))) as [e|[| st es | |]];
    try exact Hn.
  destruct (writable st); [|exact Hn].
  destruct (refuse m); [exact Hn|]. cbn [snd set_fs w_fs].
  rewrite walk_update_entries_apart with (name := last (pp_parts p) "").
  - exact Hn.
  - intros c0 es0 Hc. apply entry_get_del. exact Hc.
  - rewrite <- removelast_last_parts by exact Hne. exact p_apart.
Qed.

End Writes.

(** *** The calls of the script *)

Section BelowTarget.

Variables (q t : list string).
Hypothesis t_apart : apart t q.

Lemma under_apart p : under t p -> apart (pp_parts p) q.
Proof. intros [_ H]. exact (apart_below t q _ t_apart H). Qed.

Lemma under_joinpath target_path file :
  under t target_path -> relative file -> under t (get_absolute_path target_path file).
Proof.
  intros [Habs [r Hr]] Hrel. unfold get_absolute_path, joinpath.
  rewrite (is_absolute_relative _ Hrel). split.
  - exact Habs.
  - simpl. rewrite Hr. exists (r ++ pp_parts file). apply eq_sym, app_assoc.
Qed.

Lemma log_keeps_node level msg : keeps (keeps_node q) (log_at level msg).
Proof. apply only_logged_keeps_node, log_at_only_logged. Qed.

Lemma get_md5_keeps_node p : keeps (keeps_node q) (get_md5 p).
Proof.
  apply only_logged_keeps_node. intros w.
  destruct (get_md5_run p w) as (w' & E & H). rewrite E. exact H.
Qed.

Lemma record_keeps_node c : keeps (keeps_node q) (record_call c).
Proof. intros w n Hn. exact Hn. Qed.

Lemma os_stat_keeps_node p : keeps (keeps_node q) (os_stat p).
Proof.
  apply unchanged_keeps_node. intros w. unfold os_stat.
  destruct (walk _ _); reflexivity.
Qed.

Lemma Path_is_dir_keeps_node p : keeps (keeps_node q) (Path_is_dir p).
Proof. apply unchanged_keeps_node. reflexivity. Qed.

Lemma Path_is_fifo_keeps_node p : keeps (keeps_node q) (Path_is_fifo p).
Proof. apply unchanged_keeps_node. reflexivity. Qed.

Lemma Path_exists_keeps_node p : keeps (keeps_node q) (Path_exists p).
Proof. apply unchanged_keeps_node. reflexivity. Qed.

Lemma open_rb_keeps_node p : keeps (keeps_node q) (open_rb p).
Proof.
  unfold open_rb. apply keeps_bind; [apply os_stat_keeps_node | intros n].
  repeat keeps_step.
Qed.

Create HintDb node.
#[local] Hint Resolve log_keeps_node get_md5_keeps_node record_keeps_node
  os_stat_keeps_node Path_is_dir_keeps_node Path_is_fifo_keeps_node
  Path_exists_keeps_node open_rb_keeps_node : node.

Ltac node_tac := repeat first [ solve [auto with node] | keeps_step ].

Lemma os_mkdir_keeps_node p :
  is_absolute p = true ->
  apart (pp_parts p) q \/ is_prefix_of (pp_parts p) q ->
  keeps (keeps_node q) (os_mkdir p).
Proof. intros Habs Hsafe. unfold os_mkdir. apply create_entry_keeps; assumption. Qed.

Lemma mkdir_exist_ok_keeps_node p :
  is_absolute p = true ->
  apart (pp_parts p) q \/ is_prefix_of (pp_parts p) q ->
  keeps (keeps_node q) (mkdir_exist_ok p).
Proof.
  intros Habs Hsafe. unfold mkdir_exist_ok.
  apply keeps_try; [apply os_mkdir_keeps_node; assumption | intros e]. node_tac.
Qed.

Lemma mkdir_parents_keeps_node root rparts :
  String.eqb root "" = false ->
  (forall ps, is_prefix_of ps (rev rparts) -> apart ps q \/ is_prefix_of ps q) ->
  keeps (keeps_node q) (mkdir_parents root rparts).
Proof.
  intros Hroot. induction rparts as [|c rparts IH]; intros Hsafe.
  - simpl. apply keeps_try; [|intros e; node_tac].
    apply os_mkdir_keeps_node.
    + unfold is_absolute. simpl. rewrite Hroot. reflexivity.
    + apply Hsafe. exists []. reflexivity.
  - cbn [mkdir_parents].
    assert (Habs : is_absolute {| pp_root := root; pp_parts := rev (c :: rparts) |} = true)
      by (unfold is_absolute; cbn [pp_root]; rewrite Hroot; reflexivity).
    assert (Hself : apart (rev (c :: rparts)) q \/ is_prefix_of (rev (c :: rparts)) q)
      by (apply Hsafe; exists []; rewrite app_nil_r; reflexivity).
    apply keeps_try; [apply os_mkdir_keeps_node; assumption | intros e].
    destruct (is_FileNotFoundError e); [|node_tac].
    apply keeps_bind.
    + apply IH. intros ps Hps. apply Hsafe.
      eapply is_prefix_of_trans; [exact Hps|]. simpl. exists [c]. reflexivity.
    + intros _. apply mkdir_exist_ok_keeps_node; assumption.
Qed.

Lemma Path_mkdir_keeps_node p :
  under t p -> keeps (keeps_node q) (Path_mkdir p).
Proof.
  intros [Habs Hpre]. unfold Path_mkdir.
  apply keeps_bind; [apply record_keeps_node | intros _].
  apply mkdir_parents_keeps_node.
  - unfold is_absolute in Habs. apply negb_true_iff. exact Habs.
  - rewrite rev_involutive. intros ps Hps.
    exact (apart_above t q ps (pp_parts p) t_apart Hpre Hps).
Qed.

Lemma mkfifo_keeps_node p : under t p -> keeps (keeps_node q) (mkfifo p).
Proof.
  intros Hu. unfold mkfifo.
  apply keeps_bind; [apply record_keeps_node | intros _].
  apply create_entry_keeps; [apply Hu | left; apply under_apart; exact Hu].
Qed.

Lemma shutil_copystat_keeps_node src p :
  under t p -> keeps (keeps_node q) (shutil_copystat src p).
Proof.
  intros Hu. unfold shutil_copystat.
  apply keeps_bind; [apply record_keeps_node | intros _].
  apply copystat_keeps; [apply Hu | apply under_apart; exact Hu].
Qed.

Lemma copyfile_keeps_node src p : under t p -> keeps (keeps_node q) (copyfile src p).
Proof.
  intros Hu. unfold copyfile.
  assert (Ho : keeps (keeps_node q) (open_wb p))
    by (apply open_wb_keeps; [apply Hu | apply under_apart; exact Hu]).
  assert (Hw : forall data, keeps (keeps_node q) (write_data p data))
    by (intros; apply write_data_keeps; [apply Hu | apply under_apart; exact Hu]).
  repeat first [ exact Ho | apply Hw | solve [auto with node] | keeps_step ].
Qed.

Lemma copy2_keeps_node src p : under t p -> keeps (keeps_node q) (copy2 src p).
Proof.
  intros Hu. unfold copy2.
  apply keeps_bind; [apply Path_is_dir_keeps_node | intros d].
  assert (Hu' : under t (if d then joinpath p {| pp_root := ""; pp_parts := [path_name src] |}
                         else p)).
  { destruct d; [|exact Hu]. apply (under_joinpath p); [exact Hu | reflexivity]. }
  apply keeps_bind; [apply copyfile_keeps_node; exact Hu' | intros _].
  apply keeps_bind; [|intros _; apply keeps_ret].
  apply copystat_keeps; [apply Hu' | apply under_apart; exact Hu'].
Qed.

Lemma copy_object_keeps_node source_path target_path file total :
  under t target_path -> relative file ->
  keeps (keeps_node q) (copy_object source_path target_path file total).
Proof.
  intros Ht Hrel.
  pose proof (under_joinpath target_path file Ht Hrel) as Hu.
  unfold copy_object, copy_verify_file, shutil_copy2, log_info, log_error, log_warning.
  repeat first
    [ apply Path_mkdir_keeps_node; exact Hu
    | apply mkfifo_keeps_node; exact Hu
    | apply shutil_copystat_keeps_node; exact Hu
    | apply copy2_keeps_node; exact Hu
    | solve [auto with node]
    | keeps_step ].
Qed.

Lemma copy_objects_keeps_node source_files target_files source_path target_path :
  under t target_path -> Forall relative (dict_keys source_files) ->
  keeps (keeps_node q) (copy_objects source_files target_files source_path target_path).
Proof.
  intros Ht Hrel. unfold copy_objects, log_info.
  apply keeps_bind; [|intros a; node_tac].
  apply keeps_for_each. intros [file md5] a Hin. unfold copy_step.
  destruct (copy_wanted _ _ _); [|apply keeps_ret].
  apply copy_object_keeps_node; [exact Ht|].
  rewrite Forall_forall in Hrel. apply Hrel. unfold dict_keys.
  apply in_map_iff. exists (file, md5). auto.
Qed.

Lemma remove_objects_keeps_node source_files target_files target_path :
  under t target_path -> Forall relative (dict_keys target_files) ->
  keeps (keeps_node q) (remove_objects source_files target_files target_path).
Proof.
  intros Ht Hrel. rewrite Forall_forall in Hrel.
  assert (Hdirs : forall dirs total,
             Forall (under t) dirs -> keeps (keeps_node q) (for_each dirs remove_dir total)).
  { intros dirs total Hd. apply keeps_for_each. intros p a Hp.
    rewrite Forall_forall in Hd. specialize (Hd p Hp).
    unfold remove_dir, Path_rmdir, log_info, log_error.
    repeat first
      [ apply remove_entry_keeps; [apply Hd | apply under_apart; exact Hd]
      | solve [auto with node] | keeps_step ]. }
  (* the first sweep puts only paths below the target aside *)
  assert (Hsweep : forall keys st w,
             incl keys (dict_keys target_files) -> Forall (under t) (fst st) ->
             keeps_node q w (snd (for_each keys (remove_sweep source_files target_path) st w))
             /\ forall st', fst (for_each keys (remove_sweep source_files target_path) st w)
                            = Ok st' -> Forall (under t) (fst st')).
  { induction keys as [|k keys IH]; intros [dirs total] w Hincl Hd.
    - split; [apply frame_refl | intros st' H; inversion H; subst; exact Hd].
    - rewrite for_each_cons.
      assert (Hk : under t (get_absolute_path target_path k))
        by (apply under_joinpath; [exact Ht | apply Hrel, Hincl; left; reflexivity]).
      assert (Hincl' : incl keys (dict_keys target_files))
        by (intros x Hx; apply Hincl; right; exact Hx).
      assert (Hstep : keeps_node q w
                        (snd (remove_sweep source_files target_path k (dirs, total) w))
                      /\ forall st', fst (remove_sweep source_files target_path k
                                                       (dirs, total) w) = Ok st' ->
                                     Forall (under t) (fst st')).
      { unfold remove_sweep. destruct (negb _).
        - unfold bind at 1 3.
          destruct (Path_is_dir_pure (get_absolute_path target_path k) w) as (d & ->).
          destruct d.
          + split; [apply frame_refl|]. intros st' H; inversion H; subst.
            apply Forall_app. split; [exact Hd | constructor; [exact Hk | constructor]].
          + assert (Hf : keeps (keeps_node q)
                           (remove_file (get_absolute_path target_path k) total)).
            { unfold remove_file, Path_unlink, log_info, log_error.
              repeat first
                [ apply remove_entry_keeps; [apply Hk | apply under_apart; exact Hk]
                | solve [auto with node] | keeps_step ]. }
            specialize (Hf w). unfold bind.
            destruct (remove_file _ total w) as [[t1|e] w1]; cbn [fst snd] in *.
            * split; [exact Hf | intros st' H; inversion H; subst; exact Hd].
            * split; [exact Hf | intros st' H; discriminate H].
        - split; [apply frame_refl | intros st' H; inversion H; subst; exact Hd]. }
      destruct Hstep as [Hn1 Hd1].
      destruct (remove_sweep source_files target_path k (dirs, total) w)
        as [[st1|e] w1]; cbn [fst snd] in *.
      + destruct (IH st1 w1 Hincl' (Hd1 st1 eq_refl)) as [Hn2 Hd2].
        split; [eapply frame_trans; eassumption | exact Hd2].
      + split; [exact Hn1 | intros st' H; discriminate H]. }
  intros w. unfold remove_objects, bind at 1.
  destruct (Hsweep (dict_keys target_files) ([], 0) w (incl_refl _) (Forall_nil _))
    as [Hn Hd].
  destruct (for_each (dict_keys target_files) _ _ w) as [[[dirs total]|e] w1];
    cbn [fst snd] in *; [|exact Hn].
  eapply frame_trans; [exact Hn|].
  assert (Hrest : keeps (keeps_node q)
                    (total' <- for_each dirs remove_dir total ;;
                     log_info ("Total removed objects: " ++ str_of_nat total'))).
  { apply keeps_bind; [apply Hdirs; exact (Hd (dirs, total) eq_refl)|].
    intros a. unfold log_info. auto with node. }
  exact (Hrest w1).
Qed.

End BelowTarget.

Lemma keeps_bind_returns {A B} (R : world -> world -> Prop) `{Frame R}
      (P : A -> Prop) (m : M A) (k : A -> M B) :
  keeps R m -> returns P m -> (forall a, P a -> keeps R (k a)) -> keeps R (bind m k).
Proof.
  intros Hm HP Hk w. unfold bind. specialize (Hm w). specialize (HP w).
  destruct (m w) as [[a|e] w1]; cbn [fst snd] in *; [|exact Hm].
  eapply frame_trans; [exact Hm | apply Hk, HP; reflexivity].
Qed.

Lemma scan_keys_relative scan_path :
  returns (fun d => Forall relative (dict_keys d)) (get_files_in_path scan_path).
Proof.
  intros w d Hrun.
  destruct (get_files_in_path_run scan_path w) as (w' & E & _).
  rewrite E in Hrun. cbn [fst] in Hrun. inversion Hrun; subst d; clear Hrun.
  apply Forall_forall. intros k Hk. unfold dict_keys in Hk.
  apply in_map_iff in Hk. destruct Hk as ([k' v] & <- & Hin).
  destruct (scan_fold_sound w scan_path (glob_rels w scan_path) []
              (fun _ _ F => match F with end) (glob_rels_below w scan_path) k' v Hin)
    as (rel & -> & _). reflexivity.
Qed.

Lemma sync_pass_keeps_node q source_path target_path :
  is_absolute target_path = true ->
  apart (pp_parts target_path) q ->
  keeps (keeps_node q) (sync_pass source_path target_path).
Proof.
  intros Habs Hap.
  assert (Ht : under (pp_parts target_path) target_path)
    by (split; [exact Habs | exists []; rewrite app_nil_r; reflexivity]).
  assert (Hscan : forall p, keeps (keeps_node q) (get_files_in_path p)).
  { intros p. apply only_logged_keeps_node. intros w.
    destruct (get_files_in_path_run p w) as (w' & E & H). rewrite E. exact H. }
  unfold sync_pass, log_info.
  apply keeps_bind; [apply log_keeps_node | intros _].
  apply (keeps_bind_returns _ _ _ _ (Hscan source_path) (scan_keys_relative source_path)).
  intros source_files Hsrc.
  apply keeps_bind; [apply log_keeps_node | intros _].
  apply (keeps_bind_returns _ _ _ _ (Hscan target_path) (scan_keys_relative target_path)).
  intros target_files Htgt.
  apply keeps_bind; [apply log_keeps_node | intros _].
  apply keeps_bind;
    [apply (copy_objects_keeps_node q (pp_parts target_path) Hap); assumption | intros _].
  apply keeps_bind; [apply log_keeps_node | intros _].
  apply keeps_bind;
    [apply (remove_objects_keeps_node q (pp_parts target_path) Hap); assumption | intros _].
  apply log_keeps_node.
Qed.



(** ** copy_verify_file *)

Lemma update_node_nil n f : update_node n [] f = f n.
Proof. destruct n; reflexivity. Qed.

Lemma walk_update_node_same p : forall n m f,
  walk n p = inr m -> walk (update_node n p f) p = inr (f m).
Proof.
  induction p as [|c p IH]; intros n m f Hw; simpl in *.
  - injection Hw as ->. rewrite update_node_nil. reflexivity.
  - destruct n as [| st es | |]; try discriminate.
    simpl. rewrite entry_get_alter, String.eqb_refl.
    destruct (entry_get c es) as [n'|]; [|discriminate]. simpl. apply IH. exact Hw.
Qed.

Lemma entry_get_add_same name x es :
  entry_get name es = None -> entry_get name (entry_add name x es) = Some x.
Proof.
  unfold entry_add. induction es as [|[k m] es IH]; simpl.
  - rewrite String.eqb_refl. reflexivity.
  - destruct (String.eqb k name); [discriminate | exact IH].
Qed.

Lemma walk_update_entries_add dir name x n st es :
  walk n dir = inr (Directory st es) ->
  entry_get name es = None ->
  walk (update_entries n dir (entry_add name x)) (dir ++ [name]) = inr x.
Proof.
  intros Hd Hget. unfold update_entries. rewrite walk_app.
  rewrite (walk_update_node_same dir n _ _ Hd). simpl.
  rewrite (entry_get_add_same name x es Hget). reflexivity.
Qed.

(** A regular file and a different path whose parent is a directory lie
    apart when the path is missing or a regular file too. *)
Lemma file_apart fs s d m st data bad :
  walk fs s = inr (RegularFile st data bad) ->
  s <> d ->
  (walk fs d = inl ENOENT \/ exists st' data' bad', walk fs d = inr (RegularFile st' data' bad')) ->
  (exists dst es, walk fs (removelast d) = inr (Directory dst es)) ->
  d <> [] ->
  m = tt -> apart d s.
Proof.
  intros Hs Hne Hd (dst & es & Hp) Hdne _. split.
  - intros [r Hr]. subst s. rewrite walk_app in Hs.
    destruct Hd as [Hd|(st' & data' & bad' & Hd)]; rewrite Hd in Hs; [discriminate|].
    destruct r as [|c r]; [apply Hne; rewrite app_nil_r; reflexivity|].
    simpl in Hs. discriminate.
  - intros [r Hr]. subst d.
    destruct r as [|c r] using rev_ind; [apply Hne; rewrite app_nil_r; reflexivity|].
    clear IHr. rewrite app_assoc, removelast_last in Hp. rewrite walk_app, Hs in Hp.
    destruct r; simpl in Hp; discriminate.
Qed.

Section CopyVerify.

Variables (w : world) (source_file target_file : PurePath).
Variables (st : stat_result) (data : bytes) (bad : option nat).

Let s := fs_path w source_file.
Let d := fs_path w target_file.

Hypothesis source_node : walk (w_fs w) s = inr (RegularFile st data bad).
Hypothesis source_readable : readable st = true.
Hypothesis source_sound : forall k, bad = Some k -> length data <= k.
Hypothesis target_ok : writable_target w target_file.
Hypothesis distinct : s <> d.

(** What [shutil.copy2] leaves: the target holds the bytes and the metadata
    of the source, the source is as it was. *)
Lemma copy2_run w0 :
  w_fs w0 = w_fs w -> w_cwd w0 = w_cwd w ->
  exists fs',
    copy2 source_file target_file w0 = (Ok target_file, set_fs fs' w0)
    /\ walk fs' d = inr (RegularFile st data None)
    /\ walk fs' s = inr (RegularFile st data bad).
Proof.
  intros Hfs Hcwd.
  assert (Hs0 : fs_path w0 source_file = s) by (apply fs_path_ext; exact Hcwd).
  assert (Hd0 : fs_path w0 target_file = d) by (apply fs_path_ext; exact Hcwd).
  destruct target_ok as (Hdne & dst & es & Hparent & Hentry). fold d in Hdne, Hparent, Hentry.
  assert (Hdsplit : d = removelast d ++ [last d ""]) by (apply removelast_last_parts; exact Hdne).
  (* the node at the target, before *)
  assert (Htarget : walk (w_fs w) d
                    = match entry_get (last d "") es with
                      | Some m => inr m
                      | None => inl ENOENT
                      end).
  { rewrite Hdsplit at 1. rewrite walk_app, Hparent. simpl.
    destruct (entry_get (last d "") es); reflexivity. }
  assert (Hap : apart d s).
  { apply (file_apart (w_fs w) s d tt st data bad source_node distinct); auto.
    - rewrite Htarget. destruct (entry_get (last d "") es) as [[fst0 d0 b0| | |]|];
        try contradiction; [right; eauto | left; reflexivity].
    - eauto. }
  unfold copy2.
  (* the target is no directory *)
  assert (Hisdir : Path_is_dir target_file w0 = (Ok false, w0)).
  { unfold Path_is_dir. rewrite Hfs, Hd0, Htarget.
    destruct (entry_get (last d "") es) as [[| | |]|]; try contradiction; reflexivity. }
  rewrite (bind_run _ _ _ _ _ Hisdir). cbv beta iota.
  (* copyfile *)
  assert (Hcopyfile : exists fs3,
             copyfile source_file target_file w0 = (Ok tt, set_fs fs3 w0)
             /\ (exists st3, walk fs3 d = inr (RegularFile st3 data None))
             /\ walk fs3 s = inr (RegularFile st data bad)).
  { unfold copyfile.
    rewrite (bind_run get_world _ w0 w0 w0 eq_refl). cbv beta.
    assert (Hex : Path_exists source_file w0 = (Ok true, w0))
      by (unfold Path_exists; rewrite Hfs, Hs0, source_node; reflexivity).
    rewrite (bind_run _ _ _ _ _ Hex).
    rewrite Hs0, Hd0.
    assert (Hneq : parts_eqb s d = false).
    { apply not_true_iff_false. rewrite parts_eqb_eq. exact distinct. }
    rewrite Hneq. cbn [andb].
    assert (Hf1 : Path_is_fifo source_file w0 = (Ok false, w0))
      by (unfold Path_is_fifo; rewrite Hfs, Hs0, source_node; reflexivity).
    rewrite (bind_run _ _ _ _ _ Hf1).
    assert (Hf2 : Path_is_fifo target_file w0 = (Ok false, w0)).
    { unfold Path_is_fifo. rewrite Hfs, Hd0, Htarget.
      destruct (entry_get (last d "") es) as [[| | |]|]; try contradiction; reflexivity. }
    rewrite (bind_run _ _ _ _ _ Hf2).
    assert (Hopen : open_rb source_file w0
                    = (Ok {| f_name := source_file; f_rest := data; f_pos := 0;
                             f_bad := bad |}, w0)).
    { unfold open_rb, os_stat, bind. rewrite Hfs, Hs0, source_node, source_readable.
      reflexivity. }
    rewrite (bind_run _ _ _ _ _ Hopen).
    (* open the target for writing *)
    assert (Howb : exists fs2,
               open_wb target_file w0 = (Ok tt, set_fs fs2 w0)
               /\ (exists st2, walk fs2 d = inr (RegularFile st2 [] None))
               /\ walk fs2 s = inr (RegularFile st data bad)).
    { unfold open_wb. rewrite Hd0, Hfs.
      destruct d as [|c0 d0] eqn:Ed; [congruence|]. rewrite <- Ed in *.
      rewrite Hparent.
      destruct (entry_get (last d "") es) as [[fst0 d1 b1| | |]|] eqn:Hget;
        try contradiction.
      - rewrite Hentry. eexists. split; [reflexivity|]. split.
        + exists fst0. rewrite (walk_update_node_same d (w_fs w) _ _ Htarget). reflexivity.
        + rewrite walk_update_node_apart by exact Hap. exact source_node.
      - rewrite Hentry. eexists. split; [reflexivity|]. split.
        + exists {| st_mode := mode_file; st_mtime := w_clock w0 |}.
          pose proof (walk_update_entries_add (removelast d) (last d "")
                        (RegularFile {| st_mode := mode_file; st_mtime := w_clock w0 |}
                                     [] None)
                        (w_fs w) dst es Hparent Hget) as Hnew.
          rewrite <- Hdsplit in Hnew. exact Hnew.
        + rewrite walk_update_entries_apart with (name := last d "").
          * exact source_node.
          * intros c1 es1 Hc. apply entry_get_add. exact Hc.
          * rewrite <- Hdsplit. exact Hap. }
    destruct Howb as (fs2 & Eowb & (st2 & Hd2) & Hs2).
    rewrite (bind_run _ _ _ _ _ Eowb).
    assert (Hwrite : write_data target_file data (set_fs fs2 w0)
                     = (Ok tt, set_fs (update_node fs2 d
                                          (fun n => match n with
                                                    | RegularFile st1 _ _ =>
                                                        RegularFile
                                                          {| st_mode := st_mode st1;
                                                             st_mtime := w_clock w0 |}
                                                          data None
                                                    | _ => n
                                                    end)) w0)).
    { unfold write_data. rewrite <- Hd0. reflexivity. }
    cbn [f_bad f_rest].
    assert (Hgoal : exists fs3,
               write_data target_file data (set_fs fs2 w0) = (Ok tt, set_fs fs3 w0)
               /\ (exists st3, walk fs3 d = inr (RegularFile st3 data None))
               /\ walk fs3 s = inr (RegularFile st data bad)).
    { eexists. split; [exact Hwrite|]. split.
      - eexists. rewrite (walk_update_node_same d fs2 _ _ Hd2). reflexivity.
      - rewrite walk_update_node_apart by exact Hap. exact Hs2. }
    destruct bad as [k|]; [|exact Hgoal].
    specialize (source_sound k eq_refl).
    destruct (Nat.ltb_spec k (length data)); [lia | exact Hgoal]. }
  destruct Hcopyfile as (fs3 & Ecf & (st3 & Hd3) & Hs3).
  rewrite (bind_run _ _ _ _ _ Ecf).
  (* copystat *)
  assert (Hstat : copystat source_file target_file (set_fs fs3 w0)
                  = (Ok tt, set_fs (update_node fs3 d (set_node_stat st)) w0)).
  { unfold copystat, bind, os_stat. cbn [w_fs set_fs].
    change (fs_path (set_fs fs3 w0) source_file) with (fs_path w0 source_file).
    rewrite Hs0, Hs3. cbn [w_fs set_fs].
    change (fs_path (set_fs fs3 w0) target_file) with (fs_path w0 target_file).
    rewrite Hd0, Hd3. reflexivity. }
  rewrite (bind_run _ _ _ _ _ Hstat).
  eexists. split; [reflexivity|]. split.
  - rewrite (walk_update_node_same d fs3 _ _ Hd3). reflexivity.
  - rewrite walk_update_node_apart by exact Hap. exact Hs3.
Qed.

End CopyVerify.

(** X11. [copy_verify_file].  Copying a readable regular file onto a different
    path that can be written (missing in a writable directory, or a writable
    regular file) returns [True] without logging anything: the only recorded
    call is the [copy2], afterwards the target is a regular file with the
    bytes, the mode and the modification time of the source, and the source
    is as it was. *)
Theorem copy_verify_file_copies
        (w : world) (source_file target_file : PurePath) (data : bytes) :
  readable_file w source_file data ->
  writable_target w target_file ->
  fs_path w source_file <> fs_path w target_file ->
  exists fs' st bad,
    copy_verify_file source_file target_file w
    = (Ok true, set_fs fs' (add_call (CallCopy2 source_file target_file) w))
    /\ walk (w_fs w) (fs_path w source_file) = inr (RegularFile st data bad)
    /\ walk fs' (fs_path w source_file) = inr (RegularFile st data bad)
    /\ walk fs' (fs_path w target_file) = inr (RegularFile st data None).
Proof.
  intros (st & bad & Hnode & Hread & Hsound) Htarget Hne.
  set (w0 := add_call (CallCopy2 source_file target_file) w).
  destruct (copy2_run w source_file target_file st data bad
                      Hnode Hread Hsound Htarget Hne w0 eq_refl eq_refl)
    as (fs' & Ecopy & Hd & Hs).
  exists fs', st, bad.
  split; [|split; [exact Hnode | split; [exact Hs | exact Hd]]].
  unfold copy_verify_file, shutil_copy2.
  rewrite bind_assoc.
  rewrite (bind_run (record_call _) _ w tt w0 eq_refl).
  rewrite (bind_run _ _ _ _ _ Ecopy).
  assert (Hrs : readable_file (set_fs fs' w0) source_file data).
  { exists st, bad. split; [exact Hs | split; [exact Hread | exact Hsound]]. }
  assert (Hrd : readable_file (set_fs fs' w0) target_file data).
  { exists st, None. split; [exact Hd | split; [exact Hread | discriminate]]. }
  rewrite (bind_run _ _ _ _ _ (get_md5_readable _ _ _ Hrs)).
  rewrite (bind_run _ _ _ _ _ (get_md5_readable _ _ _ Hrd)).
  cbv zeta.
  assert (Heq : py_eqb (PyStr (md5_hexdigest (md5_update hashlib_md5 data)))
                       (PyStr (md5_hexdigest (md5_update hashlib_md5 data))) = true)
    by (apply py_eqb_eq; reflexivity).
  rewrite Heq. reflexivity.
Qed.

Lemma copy_verify_file_copies_witness :
  exists fs' st bad,
    copy_verify_file (PurePath_of_str "/src/a.txt") (PurePath_of_str "/tgt/a.txt")
                     scenario_world
    = (Ok true,
       set_fs fs' (add_call (CallCopy2 (PurePath_of_str "/src/a.txt")
                                       (PurePath_of_str "/tgt/a.txt")) scenario_world))
    /\ walk (w_fs scenario_world) (fs_path scenario_world (PurePath_of_str "/src/a.txt"))
       = inr (RegularFile st (bytes_of_string "1") bad)
    /\ walk fs' (fs_path scenario_world (PurePath_of_str "/src/a.txt"))
       = inr (RegularFile st (bytes_of_string "1") bad)
    /\ walk fs' (fs_path scenario_world (PurePath_of_str "/tgt/a.txt"))
       = inr (RegularFile st (bytes_of_string "1") None).
Proof.
  apply (copy_verify_file_copies scenario_world (PurePath_of_str "/src/a.txt")
           (PurePath_of_str "/tgt/a.txt") (bytes_of_string "1")).
  - exists rw_file, None. split; [reflexivity | split; [reflexivity | discriminate]].
  - split; [vm_compute; discriminate|].
    exists rwx_dir, [("a.txt", file_of "0"); ("stale.txt", file_of "9")].
    split; vm_compute; reflexivity.
  - vm_compute. discriminate.
Defined.

(** ** The scheduler and the [try] block of main *)

Lemma heap_push_not_nil ev q : heap_push ev q <> [].
Proof. destruct q as [|x q]; simpl; [discriminate|]. destruct (_ || _); discriminate. Qed.

(** The event a pass returns: due [interval] seconds after the pass ended,
    and in the queue. *)
Lemma do_sync_dirs_event source_path target_path interval w ev w1 :
  do_sync_dirs source_path target_path interval w = (Ok ev, w1) ->
  ev_time ev = (w_clock w1 + interval)%Z
  /\ w_queue w1 = heap_push ev (w_queue w).
Proof.
  destruct (sync_pass_fs source_path target_path) as [_ Hq].
  specialize (Hq w). unfold same_queue in Hq.
  unfold do_sync_dirs, bind at 1.
  destruct (sync_pass source_path target_path w) as [[[]|e] w0]; simpl in Hq;
    [|discriminate].
  unfold schedule_enter, bind, get_world, record_call, modify, ret. simpl.
  intros H. inversion H; subst. simpl. rewrite Hq. split; reflexivity.
Qed.

(** While there is an event in the queue, [schedule.run()] does not return:
    every action that comes to its end has entered the next event. *)
Lemma schedule_run_goes_on fuel : forall w w',
  w_queue w <> [] -> schedule_run fuel w <> Some (Ok tt, w').
Proof.
  induction fuel as [|fuel IH]; intros w w' Hq; [discriminate|].
  cbn [schedule_run].
  destruct (w_queue w) as [|ev q] eqn:Eq; [congruence|].
  cbv zeta.
  destruct (Z.gtb (ev_time ev) (w_clock w)).
  - pose proof (untouched_time_sleep (ev_time ev - w_clock w) w) as [_ Hsame].
    destruct (time_sleep _ w) as [[[]|e] w1]; [|discriminate].
    apply IH. simpl in Hsame. rewrite Hsame, Eq. discriminate.
  - rewrite (bind_run (modify (set_queue q)) _ w tt (set_queue q w) eq_refl).
    rewrite (bind_run (record_call (CallAction ev)) _ _ tt
                      (add_call (CallAction ev) (set_queue q w)) eq_refl).
    unfold bind at 1.
    destruct (do_sync_dirs _ _ _ _) as [[ev'|e] w1] eqn:Epass; [|discriminate].
    destruct (do_sync_dirs_event _ _ _ _ _ _ Epass) as [_ Hpush].
    pose proof (untouched_time_sleep 0 w1) as [_ Hsame].
    destruct (time_sleep 0 w1) as [[[]|e] w2]; [|discriminate].
    apply IH. simpl in Hsame. rewrite Hsame, Hpush. apply heap_push_not_nil.
Qed.

Lemma on_interrupt_run w :
  on_interrupt w
  = (Raise (SystemExit 0), snd (log_info "Shutting down on keyboard interrupt..." w)).
Proof. reflexivity. Qed.

(** X12. [main] and [schedule.run()].  Without [--oneshot]
    the script never returns normally and never ends in a
    [KeyboardInterrupt]: whenever [main] ends, it ends by another exception
    ([exit] included). *)
Theorem recurring_main_ends_by_exception
        (fuel : nat) (args : Namespace) (w w' : world) (r : result unit) :
  oneshot args = false ->
  main fuel args w = Some (r, w') ->
  exists e, r = Raise e /\ e <> KeyboardInterrupt.
Proof.
  intros Hrec. rewrite main_run.
  pose proof (startup_run args w) as Hstart. cbv zeta in Hstart.
  destruct (startup args w) as [[[source_path target_path]|e] w0].
  - clear Hstart. unfold sync_loop. rewrite Hrec. cbn [negb].
    destruct (do_sync_dirs _ _ _ _) as [[ev|e] w1] eqn:Epass.
    + destruct (do_sync_dirs_event _ _ _ _ _ _ Epass) as [_ Hpush].
      pose proof (schedule_run_goes_on fuel w1) as Hrun.
      destruct (schedule_run fuel w1) as [[[[]|e] w2]|]; cbn [option_map];
        [| |discriminate].
      * exfalso. apply (Hrun w2); [|reflexivity].
        rewrite Hpush. apply heap_push_not_nil.
      * destruct e; cbn [is_KeyboardInterrupt];
          try (intros H; inversion H; subst; eexists; split;
               [reflexivity | discriminate]).
    + destruct e; cbn [is_KeyboardInterrupt];
        try (intros H; inversion H; subst; eexists; split;
             [reflexivity | discriminate]).
  - intros H. inversion H; subst. exists e. split; [reflexivity|].
    destruct (path_exists w _); [destruct (path_exists w _)|];
      inversion Hstart; discriminate.
Qed.

Lemma recurring_main_ends_by_exception_witness :
  exists e, Raise (A := unit) (SystemExit 0) = Raise e /\ e <> KeyboardInterrupt.
Proof.
  apply (recurring_main_ends_by_exception 2 recurring_args interrupted_world
           (match main 2 recurring_args interrupted_world with
            | Some (_, w') => w'
            | None => interrupted_world
            end)).
  - reflexivity.
  - vm_compute. reflexivity.
Defined.

(** X13. The [try] block of [main].  An interrupt that arrives while the
    scheduler waits for the next pass ends the script by [exit(0)]: when the
    first pass has returned, the interval is positive and no longer than
    [time.sleep] accepts, and the interrupt comes no later than the next
    pass is due, nothing happens after the first pass but the clock going on
    to the interrupt and the line "Shutting down on keyboard interrupt..."
    being logged. *)
Theorem interrupt_while_waiting
        (fuel : nat) (args : Namespace) (source_path target_path : PurePath)
        (w w1 : world) (ev : sched_event) (t : Z) :
  oneshot args = false ->
  w_queue w = [] ->
  do_sync_dirs source_path target_path (interval args) w = (Ok ev, w1) ->
  w_sigint w1 = Some t ->
  (0 < interval args <= sleep_max)%Z ->
  (t <= w_clock w1 + interval args)%Z ->
  sync_loop (S fuel) args source_path target_path w
  = Some (Raise (SystemExit 0),
          snd (log_info "Shutting down on keyboard interrupt..."
                        (set_clock (Z.max t (w_clock w1)) None w1))).
Proof.
  intros Hrec Hempty Epass Hsig [Hpos Hfits] Hdue.
  destruct (do_sync_dirs_event _ _ _ _ _ _ Epass) as [Htime Hpush].
  rewrite Hempty in Hpush. simpl in Hpush.
  unfold sync_loop. rewrite Epass, Hrec. cbn [negb schedule_run].
  rewrite Hpush. cbv zeta.
  assert (Hgt : Z.gtb (ev_time ev) (w_clock w1) = true)
    by (rewrite Z.gtb_ltb; apply Z.ltb_lt; lia).
  rewrite Hgt. unfold time_sleep.
  assert (Hd : (ev_time ev - w_clock w1 = interval args)%Z) by lia.
  rewrite Hd.
  assert (Hbig : Z.ltb sleep_max (Z.abs (interval args)) = false)
    by (apply Z.ltb_ge; lia).
  assert (Hneg : Z.ltb (interval args) 0 = false) by (apply Z.ltb_ge; lia).
  rewrite Hbig, Hneg, Hsig.
  assert (Hle : Z.leb t (w_clock w1 + interval args) = true) by (apply Z.leb_le; lia).
  cbv zeta. rewrite Hle. reflexivity.
Qed.

(** A longer interval ends the script at its first wait: [time.sleep] raises
    [OverflowError], which [main] does not catch. *)
Lemma interval_too_long (fuel : nat) (args : Namespace)
      (source_path target_path : PurePath) (w w1 : world) (ev : sched_event) :
  oneshot args = false ->
  w_queue w = [] ->
  do_sync_dirs source_path target_path (interval args) w = (Ok ev, w1) ->
  (sleep_max < interval args)%Z ->
  exists msg,
    sync_loop (S fuel) args source_path target_path w
    = Some (Raise (OverflowError msg), w1).
Proof.
  intros Hrec Hempty Epass Hbig.
  destruct (do_sync_dirs_event _ _ _ _ _ _ Epass) as [Htime Hpush].
  rewrite Hempty in Hpush. simpl in Hpush.
  unfold sync_loop. rewrite Epass, Hrec. cbn [negb schedule_run].
  rewrite Hpush. cbv zeta.
  assert (Hpos : (0 < interval args)%Z) by (unfold sleep_max in Hbig; lia).
  assert (Hgt : Z.gtb (ev_time ev) (w_clock w1) = true)
    by (rewrite Z.gtb_ltb; apply Z.ltb_lt; lia).
  rewrite Hgt. unfold time_sleep.
  assert (Hd : (ev_time ev - w_clock w1 = interval args)%Z) by lia.
  rewrite Hd.
  assert (Hlt : Z.ltb sleep_max (Z.abs (interval args)) = true)
    by (apply Z.ltb_lt; lia).
  rewrite Hlt. eexists. reflexivity.
Qed.

Lemma interrupt_while_waiting_witness :
  let w1 := snd (do_sync_dirs (PurePath_of_str "/src") (PurePath_of_str "/tgt") 600
                              interrupted_world) in
  sync_loop 1 recurring_args (PurePath_of_str "/src") (PurePath_of_str "/tgt")
            interrupted_world
  = Some (Raise (SystemExit 0),
          snd (log_info "Shutting down on keyboard interrupt..."
                        (set_clock (Z.max 150 (w_clock w1)) None w1))).
Proof.
  intros w1.
  apply (interrupt_while_waiting 0 recurring_args (PurePath_of_str "/src")
           (PurePath_of_str "/tgt") interrupted_world w1
           {| ev_time := 700; ev_priority := 1;
              ev_source := PurePath_of_str "/src"; ev_target := PurePath_of_str "/tgt";
              ev_interval := 600 |} 150).
  - reflexivity.
  - reflexivity.
  - vm_compute. reflexivity.
  - vm_compute. reflexivity.
  - split; [reflexivity | vm_compute; discriminate].
  - vm_compute. discriminate.
Defined.
